(** * EWAH compressed bitmap (package ewah, file ewah.go)

    A shallow embedding of the [Ewah] bitmap of [ewah.go] and the
    properties of its specification.

    Conventions of the embedding.
    - A Go [int64] that is used as a count, a size or an index is a [Z];
      where the source can leave the range of its type the wrap-around
      is written with [i64] and [i32].
    - A word of the buffer (a Go [int64] used as 64 bits) is modelled by
      its bit pattern, a [Z] in [0, 2^64): [^0] is [allOnes], [^1] is
      [allOnes - 1], [^w] is [not64 w].
    - The buffer is a [list Z]; an access out of range is the Go run-time
      panic, outcome [Panic].
    - A method of [*Ewah] is a state transformer [M A] over the record
      [Ewah]; loops run on fuel and [OutOfFuel] is an outcome of its own,
      never confused with a panic.
    - The fields [wordInBits] and [defaultBufferSize] are assigned in one
      place, [Reset], from constants (64 and 4), and [New] resets every
      bitmap before it returns it; [defaultBufferSize] is never read. The
      embedding reads the package constant [wordInBits] where the source
      reads the field.
    - A value of the record [Ewah] stands for an object whose [rlw] is
      set and whose [wordInBits] is 64: [New] leaves them so and no
      method undoes it. The zero value [Ewah{}], on which most methods
      panic, is not a value of the record; the struct literal inside
      [New] is used by [New] alone.
    - Objects are told apart where a method has two of them and writes
      one: see [operand] at [Copy].

    The file has three parts: the embedding of the source; an abstract
    view, as lists of segments, of the states that [New] and [Set]
    reach; the properties. *)

From Stdlib Require Import ZArith List Bool Lia Btauto.
From stdpp Require Import base list.
Import ListNotations.
Local Open Scope Z_scope.

(** ** Machine integers *)

Definition i64 (z : Z) : Z := (z + 2 ^ 63) mod 2 ^ 64 - 2 ^ 63.
Definition i32 (z : Z) : Z := (z + 2 ^ 31) mod 2 ^ 32 - 2 ^ 31.
Definition u64 (z : Z) : Z := z mod 2 ^ 64.

Definition MaxInt32 : Z := 2147483647.

(** [^0] and the complement of a 64-bit pattern. *)
Definition allOnes : Z := 2 ^ 64 - 1.
Definition not64 (w : Z) : Z := Z.lxor w allOnes.

(** const wordInBits int64 = 64 *)
Definition wordInBits : Z := 64.

(** Go's [/] and [%] truncate towards zero; shifts by 64 or more give 0. *)
Definition shl64 (w k : Z) : Z :=
  if (0 <=? k) && (k <? 64) then u64 (Z.shiftl w k) else 0.
Definition shr64 (w k : Z) : Z :=
  if (0 <=? k) && (k <? 64) then Z.shiftr w k else 0.

(** Modelled from the spec: the constants [LargestRunningLengthCount] and
    [LargestLiteralCount] are declared in a file of the package that is
    not part of the sources; the specification fixes them to [2^32 - 1]
    and [2^31 - 1]. *)
Definition LargestRunningLengthCount : Z := 2 ^ 32 - 1.
Definition LargestLiteralCount : Z := 2 ^ 31 - 1.

(** Modelled from the spec: [popcount_3] is declared outside the sources;
    the specification describes it as the population count of a 64-bit
    word. *)
Fixpoint popcount_upto (n : nat) (w : Z) : Z :=
  match n with
  | O => 0
  | S k => popcount_upto k w + Z.b2z (Z.testbit w (Z.of_nat k))
  end.
Definition popcount_3 (w : Z) : Z := popcount_upto 64 w.

(** ** Outcomes and the state monad of the methods *)

Inductive outcome (A : Type) : Type :=
| Ok (a : A)
| Panic
| OutOfFuel.
Arguments Ok {A} a.
Arguments Panic {A}.
Arguments OutOfFuel {A}.

Record Ewah : Type := mkEwah {
  actualSizeInWords : Z;
  sizeInBits : Z;
  buffer : list Z;
  (* the position [p] of the current running length word; its buffer is
     the bitmap's own buffer, every reallocation re-seats it *)
  rlw : Z;
  adjustContainerSizeWhenAggregating : bool
}.

Definition set_actualSizeInWords (v : Z) (e : Ewah) : Ewah :=
  mkEwah v (sizeInBits e) (buffer e) (rlw e) (adjustContainerSizeWhenAggregating e).
Definition set_sizeInBits (v : Z) (e : Ewah) : Ewah :=
  mkEwah (actualSizeInWords e) v (buffer e) (rlw e) (adjustContainerSizeWhenAggregating e).
Definition set_buffer (v : list Z) (e : Ewah) : Ewah :=
  mkEwah (actualSizeInWords e) (sizeInBits e) v (rlw e) (adjustContainerSizeWhenAggregating e).
Definition set_rlw (v : Z) (e : Ewah) : Ewah :=
  mkEwah (actualSizeInWords e) (sizeInBits e) (buffer e) v
         (adjustContainerSizeWhenAggregating e).

(** A computation over a mutable object of type [S]. *)
Definition St (S A : Type) : Type := S -> outcome (A * S).

Definition ret {S A} (a : A) : St S A := fun e => Ok (a, e).
Definition bind {S A B} (m : St S A) (k : A -> St S B) : St S B :=
  fun e => match m e with
           | Ok (a, e') => k a e'
           | Panic => Panic
           | OutOfFuel => OutOfFuel
           end.
Definition panic {S A} : St S A := fun _ => Panic.
Definition gets {S A} (f : S -> A) : St S A := fun e => Ok (f e, e).
Definition modify {S} (f : S -> S) : St S unit := fun e => Ok (tt, f e).
(** a read of immutable data that may panic *)
Definition lift {S A} (o : option A) : St S A :=
  fun e => match o with Some a => Ok (a, e) | None => Panic end.

Notation "x <- c1 ;; c2" := (bind c1 (fun x => c2))
  (at level 100, c1 at next level, right associativity).
Notation "'unpack' pat <- c1 ;; c2" :=
  (bind c1 (fun x => match x with pat => c2 end))
  (at level 100, pat pattern, c1 at next level, right associativity).
Notation "c1 ;;; c2" := (bind c1 (fun _ => c2))
  (at level 100, right associativity).

(** A Go [for] loop with local variables [L]: the body either continues
    with new locals or leaves the loop ([break], [return]) with a result. *)
Fixpoint iter {S L R : Type} (fuel : nat) (step : L -> St S (L + R)) (l : L)
  : St S R :=
  match fuel with
  | O => fun _ => OutOfFuel
  | S f => r <- step l ;;
           match r with
           | inl l' => iter f step l'
           | inr r' => ret r'
           end
  end.

(** The methods of [*Ewah]. *)
Definition M (A : Type) : Type := St Ewah A.

(** ** The buffer *)

Definition rd_buf (buf : list Z) (p : Z) : option Z :=
  if p <? 0 then None else buf !! Z.to_nat p.

(** [this.buffer[p]] as a value *)
Definition rd (p : Z) : M Z :=
  buf <- gets buffer ;; lift (rd_buf buf p).

(** [this.buffer[p] = w] *)
Definition wr (p : Z) (w : Z) : M unit :=
  buf <- gets buffer ;;
  _ <- lift (rd_buf buf p) ;;
  modify (set_buffer (<[Z.to_nat p := w]> buf)).

(** ** Running length words

    Modelled from the spec: the type [runningLengthWord] and its methods
    are declared in a file of the package that is not part of the
    sources. The specification gives the layout of the marker word (bit 0
    the running bit, bits 1..32 the running length, bits 33..63 the number
    of literal words) and says that the setters change their field of
    [buffer[p]] in place with masks. A view is modelled by its position
    [p] in the buffer of the bitmap. *)
Module RLW.

Definition runningBit (w : Z) : bool := Z.testbit w 0.
Definition runningLength (w : Z) : Z :=
  Z.land (Z.shiftr w 1) LargestRunningLengthCount.
Definition numberOfLiteralWords (w : Z) : Z :=
  Z.land (Z.shiftr w 33) LargestLiteralCount.

Definition withRunningBit (w : Z) (b : bool) : Z :=
  if b then Z.lor w 1 else Z.land w (not64 1).
Definition withRunningLength (w : Z) (n : Z) : Z :=
  Z.lor (Z.land w (not64 (Z.shiftl LargestRunningLengthCount 1)))
        (Z.shiftl (Z.land n LargestRunningLengthCount) 1).
Definition withNumberOfLiteralWords (w : Z) (n : Z) : Z :=
  Z.lor (Z.land w (not64 (Z.shiftl LargestLiteralCount 33)))
        (Z.shiftl (Z.land n LargestLiteralCount) 33).

Definition getRunningBit (p : Z) : M bool :=
  w <- rd p ;; ret (runningBit w).
Definition getRunningLength (p : Z) : M Z :=
  w <- rd p ;; ret (runningLength w).
Definition getNumberOfLiteralWords (p : Z) : M Z :=
  w <- rd p ;; ret (numberOfLiteralWords w).
Definition size (p : Z) : M Z :=
  w <- rd p ;; ret (runningLength w + numberOfLiteralWords w).
Definition setRunningBit (p : Z) (b : bool) : M unit :=
  w <- rd p ;; wr p (withRunningBit w b).
Definition setRunningLength (p : Z) (n : Z) : M unit :=
  w <- rd p ;; wr p (withRunningLength w n).
Definition setNumberOfLiteralWords (p : Z) (n : Z) : M unit :=
  w <- rd p ;; wr p (withNumberOfLiteralWords w n).

End RLW.

(** [this.rlw.f(...)]: a method of the current running length word;
    [this.rlw.reset(this.buffer, p)] is [modify (set_rlw p)]. *)
Definition this_rlw {A} (f : Z -> M A) : M A := p <- gets rlw ;; f p.

(** ** Slices *)

(** [make([]int64, n)]: a negative length panics. *)
Definition go_make {S} (n : Z) : St S (list Z) :=
  if n <? 0 then panic else ret (replicate (Z.to_nat n) 0).

(** [copy(dst, src)] copies [min(len(dst), len(src))] elements. *)
Definition go_copy (dst src : list Z) : list Z :=
  take (length dst) src ++ drop (length src) dst.

(** [l[lo:hi]], which panics unless [0 <= lo <= hi <= len(l)]. *)
Definition go_slice (l : list Z) (lo hi : Z) : option (list Z) :=
  if (0 <=? lo) && (lo <=? hi) && (hi <=? Z.of_nat (length l))
  then Some (take (Z.to_nat (hi - lo)) (drop (Z.to_nat lo) l))
  else None.

(** ** Append primitives of [Ewah] *)

Definition pushBackMultiple (data : list Z) (start number : Z) : M unit :=
  buf <- gets buffer ;;
  asw <- gets actualSizeInWords ;;
  let bufferCap := i32 (Z.of_nat (length buf)) in
  (if asw =? bufferCap then
     let n := i32 (bufferCap + number) in
     let newSize :=
       if n <? 32768 then i32 (n * 2)
       else if Z.quot (i32 (n * 3)) 2 <? n then MaxInt32
       else Z.quot (i32 (n * 3)) 2 in
     newBuffer <- go_make newSize ;;
     modify (set_buffer (go_copy newBuffer buf))
   else ret tt) ;;;
  buf <- gets buffer ;;
  dst <- lift (go_slice buf asw (Z.of_nat (length buf))) ;;
  src <- lift (go_slice data start (i32 (start + number))) ;;
  modify (set_buffer (take (Z.to_nat asw) buf ++ go_copy dst src)) ;;;
  modify (set_actualSizeInWords (asw + number)).

Definition pushBack (data : Z) : M unit := pushBackMultiple [data] 0 1.

Definition addEmptyWord (v : bool) : M unit :=
  nl <- this_rlw RLW.getNumberOfLiteralWords ;;
  let noLiteralWord := nl =? 0 in
  runlen <- this_rlw RLW.getRunningLength ;;
  (if noLiteralWord && (runlen =? 0)
   then this_rlw (fun p => RLW.setRunningBit p v) else ret tt) ;;;
  rb <- this_rlw RLW.getRunningBit ;;
  if noLiteralWord && Bool.eqb rb v && (runlen <? LargestRunningLengthCount)
  then this_rlw (fun p => RLW.setRunningLength p (runlen + 1))
  else
    pushBack 0 ;;;
    asw <- gets actualSizeInWords ;;
    modify (set_rlw (asw - 1)) ;;;
    this_rlw (fun p => RLW.setRunningBit p v) ;;;
    this_rlw (fun p => RLW.setRunningLength p 1).

(** There is no [return] at the end of the branch of a full marker: the
    two statements after it run in both cases. *)
Definition addLiteralWord (newdata : Z) : M unit :=
  numberSoFar <- this_rlw RLW.getNumberOfLiteralWords ;;
  (if numberSoFar >=? LargestLiteralCount then
     pushBack 0 ;;;
     asw <- gets actualSizeInWords ;;
     modify (set_rlw (asw - 1)) ;;;
     this_rlw (fun p => RLW.setNumberOfLiteralWords p 1) ;;;
     pushBack newdata
   else ret tt) ;;;
  this_rlw (fun p => RLW.setNumberOfLiteralWords p (i32 (numberSoFar + 1))) ;;;
  pushBack newdata.

(** [math.Min] on two [float64] converted from integers and back: the
    second argument is exact in every call of this file (its magnitude is
    below [2^33]) and rounding is monotone, so the result is the integer
    minimum. *)
Definition addStreamOfLiteralWords (data : list Z) (start number : Z)
  : M unit :=
  iter (S (Z.to_nat (2 * number)))
    (fun leftOverNumber =>
       if leftOverNumber >? 0 then
         numberOfLiteralWords <- this_rlw RLW.getNumberOfLiteralWords ;;
         let whatWeCanAdd :=
           Z.min number (LargestLiteralCount - numberOfLiteralWords) in
         this_rlw (fun p => RLW.setNumberOfLiteralWords p
                              (i32 (numberOfLiteralWords + whatWeCanAdd))) ;;;
         let leftOverNumber := i32 (leftOverNumber - whatWeCanAdd) in
         pushBackMultiple data start whatWeCanAdd ;;;
         sib <- gets sizeInBits ;;
         modify (set_sizeInBits (i64 (sib + whatWeCanAdd * wordInBits))) ;;;
         (if leftOverNumber >? 0 then
            pushBack 0 ;;;
            asw <- gets actualSizeInWords ;;
            modify (set_rlw (asw - 1))
          else ret tt) ;;;
         ret (inl leftOverNumber)
       else ret (inr tt))
    number.

(** The part that [addStreamOfEmptyWords] and [fastAddStreamOfEmptyWords]
    have in common, statement for statement: everything after the update
    of [sizeInBits]. *)
Definition streamOfEmptyWords_body (v : bool) (number : Z) : M unit :=
  rb <- this_rlw RLW.getRunningBit ;;
  sz <- this_rlw RLW.size ;;
  (if negb (Bool.eqb rb v) && (sz =? 0) then
     this_rlw (fun p => RLW.setRunningBit p v)
   else
     nl <- this_rlw RLW.getNumberOfLiteralWords ;;
     rb <- this_rlw RLW.getRunningBit ;;
     if negb (nl =? 0) || negb (Bool.eqb rb v) then
       pushBack 0 ;;;
       asw <- gets actualSizeInWords ;;
       modify (set_rlw (asw - 1)) ;;;
       (if v then this_rlw (fun p => RLW.setRunningBit p v) else ret tt)
     else ret tt) ;;;
  runlen <- this_rlw RLW.getRunningLength ;;
  let whatWeCanAdd := Z.min number (LargestLiteralCount - runlen) in
  this_rlw (fun p => RLW.setRunningLength p (runlen + whatWeCanAdd)) ;;;
  let number := i64 (number - whatWeCanAdd) in
  number <-
    iter (S (Z.to_nat (number / LargestRunningLengthCount)))
      (fun number =>
         if number >=? LargestRunningLengthCount then
           pushBack 0 ;;;
           asw <- gets actualSizeInWords ;;
           modify (set_rlw (asw - 1)) ;;;
           (if v then this_rlw (fun p => RLW.setRunningBit p v) else ret tt) ;;;
           this_rlw (fun p => RLW.setRunningLength p
                                LargestRunningLengthCount) ;;;
           ret (inl (number - LargestRunningLengthCount))
         else ret (inr number))
      number ;;
  if number >? 0 then
    pushBack 0 ;;;
    asw <- gets actualSizeInWords ;;
    modify (set_rlw (asw - 1)) ;;;
    (if v then this_rlw (fun p => RLW.setRunningBit p v) else ret tt) ;;;
    this_rlw (fun p => RLW.setRunningLength p number)
  else ret tt.

Definition addStreamOfEmptyWords (v : bool) (number : Z) : M unit :=
  if number =? 0 then ret tt
  else
    sib <- gets sizeInBits ;;
    modify (set_sizeInBits (i64 (sib + i64 (number * wordInBits)))) ;;;
    streamOfEmptyWords_body v number.

Definition fastAddStreamOfEmptyWords (v : bool) (number : Z) : M unit :=
  streamOfEmptyWords_body v number.

Definition addSignificantBits (newdata bitsthatmatter : Z) : M unit :=
  sib <- gets sizeInBits ;;
  modify (set_sizeInBits (i64 (sib + bitsthatmatter))) ;;;
  if newdata =? 0 then addEmptyWord false
  else if newdata =? not64 1 then addEmptyWord true
  else addLiteralWord newdata.

Definition add (newdata : Z) : M unit :=
  addSignificantBits newdata wordInBits.

(** The result is [true] when the Go method returns a nil error. *)
Definition setSizeInBits (size : Z) : M bool :=
  sib <- gets sizeInBits ;;
  if negb (Z.quot (i64 (i64 (size + wordInBits) - 1)) wordInBits
           =? Z.quot (i64 (i64 (sib + wordInBits) - 1)) wordInBits)
  then ret false
  else modify (set_sizeInBits size) ;;; ret true.

(** ** Construction, [Set] and [Get] *)

Definition Reset : M unit :=
  modify (set_actualSizeInWords 1) ;;;
  modify (set_sizeInBits 0) ;;;
  wr 0 0 ;;;
  modify (fun e => mkEwah (actualSizeInWords e) (sizeInBits e) (buffer e)
                          (rlw e) true) ;;;
  modify (set_rlw 0).

Definition Clear : M unit := Reset.

(** The struct literal of [New], before [Reset] has run. *)
Definition New_literal : Ewah := mkEwah 0 0 (replicate 4 0) 0 false.

Definition New : outcome Ewah :=
  match Reset New_literal with
  | Ok (_, e) => Ok e
  | Panic => Panic
  | OutOfFuel => OutOfFuel
  end.

(** [Set]; the result is [false] where the Go method returns [nil] and
    [true] where it returns the bitmap. *)
Definition Set_ (i : Z) : M bool :=
  if (i >? MaxInt32 - wordInBits) || (i <? 0) then ret false
  else
    sib <- gets sizeInBits ;;
    if i <? sib then ret false
    else
      let dist := Z.quot (i + wordInBits) wordInBits
                  - Z.quot (sib + wordInBits - 1) wordInBits in
      modify (set_sizeInBits (i + 1)) ;;;
      if dist >? 0 then
        (if dist >? 1 then fastAddStreamOfEmptyWords false (dist - 1)
         else ret tt) ;;;
        addLiteralWord (shl64 1 (Z.rem i wordInBits)) ;;;
        ret true
      else
        nl <- this_rlw RLW.getNumberOfLiteralWords ;;
        if nl =? 0 then
          rl <- this_rlw RLW.getRunningLength ;;
          this_rlw (fun p => RLW.setRunningLength p (rl - 1)) ;;;
          addLiteralWord (shl64 1 (Z.rem i wordInBits)) ;;;
          ret true
        else
          asw <- gets actualSizeInWords ;;
          w <- rd (asw - 1) ;;
          wr (asw - 1) (Z.lor w (shl64 1 (Z.rem i wordInBits))) ;;;
          w <- rd (asw - 1) ;;
          (if w =? allOnes then
             wr (asw - 1) 0 ;;;
             modify (set_actualSizeInWords (asw - 1)) ;;;
             nl <- this_rlw RLW.getNumberOfLiteralWords ;;
             this_rlw (fun p => RLW.setNumberOfLiteralWords p (nl - 1)) ;;;
             addEmptyWord true
           else ret tt) ;;;
          ret true.

(** The loop of [Get] reads a marker in every round and moves the marker
    forward by at least one word, so that it leaves the buffer, and
    panics, after at most [len(buffer)] rounds. *)
Definition Get (i : Z) : M bool :=
  sib <- gets sizeInBits ;;
  if (i <? 0) || (i >? sib) then ret false
  else
    let wordi := Z.quot i wordInBits in
    let biti := Z.rem i wordInBits in
    buf <- gets buffer ;;
    iter (S (length buf))
      (fun '(wordChecked, marker) =>
         if wordChecked <=? wordi then
           numOfLiteralWords <- RLW.getNumberOfLiteralWords marker ;;
           rl <- RLW.getRunningLength marker ;;
           let wordChecked := wordChecked + rl in
           if wordi <? wordChecked then
             rb <- RLW.getRunningBit marker ;; ret (inr rb)
           else if wordi <? wordChecked + numOfLiteralWords then
             w <- rd (marker + (wordi - wordChecked) + 1) ;;
             ret (inr (negb (Z.land w (shl64 1 biti) =? 0)))
           else
             ret (inl (wordChecked + numOfLiteralWords,
                       marker + numOfLiteralWords + 1))
         else ret (inr false))
      (0, 0).

Definition Size : M Z := gets sizeInBits.
Definition SizeInBytes : M Z :=
  asw <- gets actualSizeInWords ;; ret (i64 (asw * Z.quot wordInBits 8)).
Definition SizeInWords : M Z := gets actualSizeInWords.

(** run a method and keep the object / the result *)
Definition exec {S A} (m : St S A) (e : S) : outcome S :=
  match m e with
  | Ok (_, e') => Ok e'
  | Panic => Panic
  | OutOfFuel => OutOfFuel
  end.
Definition eval {S A} (m : St S A) (e : S) : outcome A :=
  match m e with
  | Ok (a, _) => Ok a
  | Panic => Panic
  | OutOfFuel => OutOfFuel
  end.

(** ** [reserve], [Clone], [Copy], [Swap] *)

Definition reserve (size : Z) : M unit :=
  buf <- gets buffer ;;
  if size >? i32 (Z.of_nat (length buf)) then
    newBuffer <- go_make size ;;
    modify (set_buffer (go_copy newBuffer buf)) ;;;
    modify (set_rlw 0)
  else ret tt.

(** [Clone] builds a new object and leaves [this] as it is. *)
Definition Clone (this : Ewah) : outcome Ewah :=
  match New with
  | Ok c =>
      exec (reserve (i32 (actualSizeInWords this)) ;;;
            buf <- gets buffer ;;
            modify (set_buffer (go_copy buf (buffer this))) ;;;
            modify (set_actualSizeInWords (actualSizeInWords this)) ;;;
            modify (set_sizeInBits (sizeInBits this)) ;;;
            modify (set_rlw (rlw this))) c
  | Panic => Panic
  | OutOfFuel => OutOfFuel
  end.

(** [this.Copy(other)] has two pointers. When [other] is an object of
    its own its fields are values, fixed during the call; when it is
    [this] itself, every read of [other] sees what the statements before
    it have assigned to [this]: [copy] then reads the buffer that [make]
    has just returned. *)
Inductive operand : Type :=
| This
| Other (o : Ewah).

(** [other.f], read while a method of [this] runs *)
Definition field {A} (other : operand) (f : Ewah -> A) : M A :=
  match other with
  | This => gets f
  | Other o => ret (f o)
  end.

Definition Copy (other : operand) : M unit :=
  n <- field other actualSizeInWords ;;
  newBuffer <- go_make n ;;
  modify (set_buffer newBuffer) ;;;
  src <- field other buffer ;;
  dst <- gets buffer ;;
  modify (set_buffer (go_copy dst src)) ;;;
  n <- field other actualSizeInWords ;;
  modify (set_actualSizeInWords n) ;;;
  sib <- field other sizeInBits ;;
  modify (set_sizeInBits sib) ;;;
  p <- field other rlw ;;
  modify (set_rlw p).

(** [this.Swap(other)]: the new [this] and the new [other]. *)
Definition Swap (this other : Ewah) : Ewah * Ewah :=
  (mkEwah (actualSizeInWords other) (sizeInBits other) (buffer other)
          (rlw other) (adjustContainerSizeWhenAggregating this),
   mkEwah (actualSizeInWords this) (sizeInBits this) (buffer this)
          (rlw this) (adjustContainerSizeWhenAggregating other)).

(** ** [Cardinality] and [Not] *)

Definition Cardinality : M Z :=
  asw0 <- gets actualSizeInWords ;;
  buf <- gets buffer ;;
  iter (S (Z.to_nat asw0))
    (fun '(counter, marker) =>
       asw <- gets actualSizeInWords ;;
       if marker <? asw then
         rb <- RLW.getRunningBit marker ;;
         rl <- RLW.getRunningLength marker ;;
         let counter :=
           if rb then i64 (counter + i64 (wordInBits * rl)) else counter in
         numOfLiteralWords <- RLW.getNumberOfLiteralWords marker ;;
         counter <-
           iter (S (length buf))
             (fun '(counter, j) =>
                if j <=? numOfLiteralWords then
                  w <- rd (marker + j) ;;
                  ret (inl (i64 (counter + popcount_3 w), j + 1))
                else ret (inr counter))
             (counter, 1) ;;
         ret (inl (counter, marker + numOfLiteralWords + 1))
       else ret (inr counter))
    (0, 0).

Definition Not : M unit :=
  asw0 <- gets actualSizeInWords ;;
  buf0 <- gets buffer ;;
  iter (S (Z.to_nat asw0))
    (fun marker =>
       asw <- gets actualSizeInWords ;;
       if marker <? asw then
         numOfLiteralWords <- RLW.getNumberOfLiteralWords marker ;;
         rb <- RLW.getRunningBit marker ;;
         RLW.setRunningBit marker (negb rb) ;;;
         iter (S (length buf0))
           (fun i =>
              if i <=? numOfLiteralWords then
                w <- rd (marker + i) ;;
                wr (marker + i) (not64 w) ;;;
                ret (inl (i + 1))
              else ret (inr tt))
           1 ;;;
         if marker + numOfLiteralWords + 1 =? asw then
           sib <- gets sizeInBits ;;
           let lastBits := Z.rem sib wordInBits in
           if lastBits =? 0 then ret (inr tt)
           else
             nl <- RLW.getNumberOfLiteralWords marker ;;
             if nl =? 0 then
               rl <- RLW.getRunningLength marker ;;
               rb <- RLW.getRunningBit marker ;;
               (if (rl >? 0) && rb then
                  nl <- RLW.getNumberOfLiteralWords marker ;;
                  RLW.setNumberOfLiteralWords marker (nl - 1) ;;;
                  addLiteralWord (shr64 0 (wordInBits - lastBits))
                else ret tt) ;;;
               ret (inr tt)
             else
               w <- rd (marker + numOfLiteralWords) ;;
               wr (marker + numOfLiteralWords)
                  (Z.land w (shr64 allOnes (wordInBits - lastBits))) ;;;
               ret (inr tt)
         else ret (inl (marker + numOfLiteralWords + 1))
       else ret (inr tt))
    0.

(** ** Sinks

    Modelled from the spec: the interface [BitmapStorage] and the type
    [bitCounter] are declared outside the sources. The specification
    lists the four methods of a sink and says that the counter adds
    [popcount(w)] for [add(w)], [64 * n] for a stream of [n] one-words,
    nothing for a stream of zero-words, and ignores [setSizeInBits]. *)
Class BitmapStorage (S : Type) : Type := {
  sink_add : Z -> St S unit;
  sink_addStreamOfEmptyWords : bool -> Z -> St S unit;
  sink_addStreamOfLiteralWords : list Z -> Z -> Z -> St S unit;
  sink_setSizeInBits : Z -> St S unit
}.

#[global] Instance Ewah_storage : BitmapStorage Ewah := {
  sink_add := add;
  sink_addStreamOfEmptyWords := addStreamOfEmptyWords;
  sink_addStreamOfLiteralWords := addStreamOfLiteralWords;
  sink_setSizeInBits := fun n => setSizeInBits n ;;; ret tt
}.

Record bitCounter : Type := mkBitCounter { getCount : Z }.

Definition newBitCounter : bitCounter := mkBitCounter 0.

Definition counter_add (n : Z) : St bitCounter unit :=
  modify (fun c => mkBitCounter (i64 (getCount c + n))).

#[global] Instance bitCounter_storage : BitmapStorage bitCounter := {
  sink_add := fun w => counter_add (popcount_3 w);
  sink_addStreamOfEmptyWords :=
    fun v n => if v then counter_add (i64 (wordInBits * n)) else ret tt;
  sink_addStreamOfLiteralWords :=
    fun data start number =>
      ws <- lift (go_slice data start (start + number)) ;;
      counter_add (fold_right (fun w acc => popcount_3 w + acc) 0 ws);
  sink_setSizeInBits := fun _ => ret tt
}.

(** ** Iterators

    Modelled from the spec: [EWAHIterator] and
    [BufferedRunningLengthWordIterator] are declared outside the sources.
    The raw iterator has the buffer, its populated length and a cursor;
    [next] binds a view at the cursor and moves the cursor by [1 + nl].
    The buffered iterator keeps a working copy of the current segment
    (running bit, running length, pending literals and the position of
    the first pending literal) and loads the next segment when, and only
    when, the working copy is used up. Iterators only read the buffer of
    their operand, which no binary operation changes, so their methods
    are functions on the iterator. *)
Record EWAHIterator : Type := mkEWAHIterator {
  it_buffer : list Z;
  it_size : Z;
  it_pointer : Z
}.

Definition NewEWAHIterator (buf : list Z) (sizeInWords : Z) : EWAHIterator :=
  mkEWAHIterator buf sizeInWords 0.

Definition hasNext (it : EWAHIterator) : bool := it_pointer it <? it_size it.

(** [next]: the marker word under the cursor, the position of its first
    literal word, and the iterator moved past the segment. *)
Definition next (it : EWAHIterator) : option (Z * Z * EWAHIterator) :=
  match rd_buf (it_buffer it) (it_pointer it) with
  | Some w =>
      Some (w, it_pointer it + 1,
            mkEWAHIterator (it_buffer it) (it_size it)
              (it_pointer it + 1 + RLW.numberOfLiteralWords w))
  | None => None
  end.

Record BufferedRunningLengthWordIterator : Type := mkBuffered {
  brlw_runningBit : bool;
  brlw_runningLength : Z;
  brlw_numberOfLiteralWords : Z;
  literalWordStartPosition : Z;
  iterator : EWAHIterator
}.

Module Buffered.

Definition load (it : EWAHIterator)
  : option BufferedRunningLengthWordIterator :=
  match next it with
  | Some (w, start, it') =>
      Some (mkBuffered (RLW.runningBit w) (RLW.runningLength w)
              (RLW.numberOfLiteralWords w) start it')
  | None => None
  end.

Definition getRunningBit := brlw_runningBit.
Definition getRunningLength := brlw_runningLength.
Definition getNumberOfLiteralWords := brlw_numberOfLiteralWords.

Definition getLiteralWordAt (b : BufferedRunningLengthWordIterator) (k : Z)
  : option Z :=
  rd_buf (it_buffer (iterator b)) (literalWordStartPosition b + k).

(** the logical words of the segments that the raw iterator has not
    returned yet *)
Fixpoint wordsAhead (fuel : nat) (it : EWAHIterator) : option Z :=
  if hasNext it then
    match fuel with
    | O => None
    | S f =>
        match next it with
        | Some (w, _, it') =>
            match wordsAhead f it' with
            | Some n =>
                Some (RLW.runningLength w + RLW.numberOfLiteralWords w + n)
            | None => None
            end
        | None => None
        end
    end
  else Some 0.

Definition size (b : BufferedRunningLengthWordIterator) : option Z :=
  match wordsAhead (length (it_buffer (iterator b))) (iterator b) with
  | Some n => Some (brlw_runningLength b + brlw_numberOfLiteralWords b + n)
  | None => None
  end.

Fixpoint discardFirstWords_loop (fuel : nat) (x : Z)
    (b : BufferedRunningLengthWordIterator)
  : option BufferedRunningLengthWordIterator :=
  if x >? 0 then
    if brlw_runningLength b >? x then
      Some (mkBuffered (brlw_runningBit b) (brlw_runningLength b - x)
              (brlw_numberOfLiteralWords b) (literalWordStartPosition b)
              (iterator b))
    else
      let x := x - brlw_runningLength b in
      let toDiscard := Z.min x (brlw_numberOfLiteralWords b) in
      let b := mkBuffered (brlw_runningBit b) 0
                 (brlw_numberOfLiteralWords b - toDiscard)
                 (literalWordStartPosition b + toDiscard) (iterator b) in
      let x := x - toDiscard in
      if (x >? 0) || (brlw_numberOfLiteralWords b =? 0) then
        if hasNext (iterator b) then
          match fuel with
          | O => None
          | S f =>
              match load (iterator b) with
              | Some b' => discardFirstWords_loop f x b'
              | None => None
              end
          end
        else Some b
      else Some b
  else Some b.

Definition discardFirstWords (b : BufferedRunningLengthWordIterator) (x : Z)
  : option BufferedRunningLengthWordIterator :=
  discardFirstWords_loop (length (it_buffer (iterator b))) x b.

End Buffered.

Definition newBufferedRunningLengthWordIterator (it : EWAHIterator)
  : option BufferedRunningLengthWordIterator :=
  if hasNext it then Buffered.load it
  else Some (mkBuffered false 0 0 0 it).

(** The methods of the buffered iterator that write to a sink. *)
Section Discharge.
Context {K : Type} `{BitmapStorage K}.

Let Iter := BufferedRunningLengthWordIterator.

(** [discharge] and [dischargeNegated]: [negated] tells which. The
    result is the number of words written and the iterator after them. *)
Definition discharge_gen (negated : bool) (b : Iter) (max : Z)
  : St K (Z * Iter) :=
  let len := length (it_buffer (iterator b)) in
  iter (2 * len + 3)%nat
    (fun '(index, b) =>
       sz <- lift (Buffered.size b) ;;
       if (index <? max) && (sz >? 0) then
         let pl := Buffered.getRunningLength b in
         let pl := if index + pl >? max then max - index else pl in
         sink_addStreamOfEmptyWords
           (xorb negated (Buffered.getRunningBit b)) pl ;;;
         let index := index + pl in
         let pd := Buffered.getNumberOfLiteralWords b in
         let pd := if pd + index >? max then max - index else pd in
         iter (S len)
           (fun k =>
              if k <? pd then
                w <- lift (Buffered.getLiteralWordAt b k) ;;
                sink_add (if negated then not64 w else w) ;;;
                ret (inl (k + 1))
              else ret (inr tt))
           0 ;;;
         b <- lift (Buffered.discardFirstWords b (pl + pd)) ;;
         ret (inl (index + pd, b))
       else ret (inr (index, b)))
    (0, b).

Definition discharge := discharge_gen false.
Definition dischargeNegated := discharge_gen true.

Definition dischargeContainer (b : Iter) : St K (Z * Iter) :=
  sz <- lift (Buffered.size b) ;; discharge b sz.

Definition dischargeAsEmpty (b : Iter) : St K unit :=
  sz <- lift (Buffered.size b) ;; sink_addStreamOfEmptyWords false sz.

End Discharge.

(** ** The Boolean operations

    The four [...ToContainer] methods have the same two nested loops and
    differ in the treatment of a run, in the word operation on a pair of
    literals, and in the tail. [merge_loop] is that common text; the
    treatment of a run is given by each method. *)
Section Merge.
Context {K : Type} `{BitmapStorage K}.

Let Iter := BufferedRunningLengthWordIterator.

(** [rlwi] and [rlwj] from the prey and the predator *)
Definition unprey (i_is_prey : bool) (prey predator : Iter) : Iter * Iter :=
  if i_is_prey then (prey, predator) else (predator, prey).

Definition bothNonEmpty (rlwi rlwj : Iter) : St K bool :=
  si <- lift (Buffered.size rlwi) ;;
  if si >? 0 then sj <- lift (Buffered.size rlwj) ;; ret (sj >? 0)
  else ret false.

Definition merge_loop
    (run : bool -> Iter -> Iter -> St K (Iter * Iter))
    (op : Z -> Z -> Z) (rlwi rlwj : Iter) : St K (Iter * Iter) :=
  let len := (length (it_buffer (iterator rlwi))
              + length (it_buffer (iterator rlwj)))%nat in
  iter (S len)
    (fun '(rlwi, rlwj) =>
       go <- bothNonEmpty rlwi rlwj ;;
       if go : bool then
         unpack (rlwi, rlwj) <-
           iter (2 * len + 3)%nat
             (fun '(rlwi, rlwj) =>
                if (Buffered.getRunningLength rlwi >? 0)
                   || (Buffered.getRunningLength rlwj >? 0) then
                  let i_is_prey := Buffered.getRunningLength rlwi
                                   <? Buffered.getRunningLength rlwj in
                  let prey := if i_is_prey then rlwi else rlwj in
                  let predator := if i_is_prey then rlwj else rlwi in
                  unpack (prey, predator) <- run i_is_prey prey predator ;;
                  ret (inl (unprey i_is_prey prey predator))
                else ret (inr (rlwi, rlwj)))
             (rlwi, rlwj) ;;
         let nbre_literal :=
           Z.min (Buffered.getNumberOfLiteralWords rlwi)
                 (Buffered.getNumberOfLiteralWords rlwj) in
         if nbre_literal >? 0 then
           iter (S len)
             (fun k =>
                if k <? i32 nbre_literal then
                  wi <- lift (Buffered.getLiteralWordAt rlwi k) ;;
                  wj <- lift (Buffered.getLiteralWordAt rlwj k) ;;
                  sink_add (op wi wj) ;;;
                  ret (inl (k + 1))
                else ret (inr tt))
             0 ;;;
           rlwi <- lift (Buffered.discardFirstWords rlwi nbre_literal) ;;
           rlwj <- lift (Buffered.discardFirstWords rlwj nbre_literal) ;;
           ret (inl (rlwi, rlwj))
         else ret (inl (rlwi, rlwj))
       else ret (inr (rlwi, rlwj)))
    (rlwi, rlwj).

(** the first branch of every method: a stream of [v]-words as long as
    the run of the predator, and both iterators moved past it *)
Definition emitRun (v : bool) (prey predator : Iter) : St K (Iter * Iter) :=
  sink_addStreamOfEmptyWords v (Buffered.getRunningLength predator) ;;;
  prey <- lift (Buffered.discardFirstWords prey
                  (Buffered.getRunningLength predator)) ;;
  predator <- lift (Buffered.discardFirstWords predator
                      (Buffered.getRunningLength predator)) ;;
  ret (prey, predator).

(** the other branches: [who] is discharged, plainly or negated, then
    the stream is filled up with [v]-words and the predator moved *)
Definition fillUp (v : bool) (index : Z) (predator : Iter) : St K Iter :=
  sink_addStreamOfEmptyWords v (Buffered.getRunningLength predator - index) ;;;
  lift (Buffered.discardFirstWords predator
          (Buffered.getRunningLength predator)).

(** In [andToContainer] it is the predator that is discharged. *)
Definition and_run (i_is_prey : bool) (prey predator : Iter)
  : St K (Iter * Iter) :=
  if negb (Buffered.getRunningBit predator) then emitRun false prey predator
  else
    unpack (index, predator) <-
      discharge predator (Buffered.getRunningLength predator) ;;
    predator <- fillUp false index predator ;;
    ret (prey, predator).

Definition or_run (i_is_prey : bool) (prey predator : Iter)
  : St K (Iter * Iter) :=
  if Buffered.getRunningBit predator then emitRun true prey predator
  else
    unpack (index, prey) <-
      discharge prey (Buffered.getRunningLength predator) ;;
    predator <- fillUp false index predator ;;
    ret (prey, predator).

Definition xor_run (i_is_prey : bool) (prey predator : Iter)
  : St K (Iter * Iter) :=
  if negb (Buffered.getRunningBit predator) then
    unpack (index, prey) <-
      discharge prey (Buffered.getRunningLength predator) ;;
    predator <- fillUp false index predator ;;
    ret (prey, predator)
  else
    unpack (index, prey) <-
      dischargeNegated prey (Buffered.getRunningLength predator) ;;
    predator <- fillUp true index predator ;;
    ret (prey, predator).

Definition andNot_run (i_is_prey : bool) (prey predator : Iter)
  : St K (Iter * Iter) :=
  if (Buffered.getRunningBit predator && i_is_prey)
     || (negb (Buffered.getRunningBit predator) && negb i_is_prey)
  then emitRun false prey predator
  else if i_is_prey then
    unpack (index, prey) <-
      discharge prey (Buffered.getRunningLength predator) ;;
    predator <- fillUp false index predator ;;
    ret (prey, predator)
  else
    unpack (index, prey) <-
      dischargeNegated prey (Buffered.getRunningLength predator) ;;
    predator <- fillUp true index predator ;;
    ret (prey, predator).

Definition iterators (x y : Ewah) : St K (Iter * Iter) :=
  rlwi <- lift (newBufferedRunningLengthWordIterator
                  (NewEWAHIterator (buffer x) (actualSizeInWords x))) ;;
  rlwj <- lift (newBufferedRunningLengthWordIterator
                  (NewEWAHIterator (buffer y) (actualSizeInWords y))) ;;
  ret (rlwi, rlwj).

(** [remaining]: [rlwi] if it still has words, else [rlwj] *)
Definition remaining (rlwi rlwj : Iter) : St K (bool * Iter) :=
  si <- lift (Buffered.size rlwi) ;;
  let i_remains := si >? 0 in
  ret (i_remains, if i_remains then rlwi else rlwj).

Definition andToContainer (this a : Ewah) : St K unit :=
  unpack (rlwi, rlwj) <- iterators a this ;;
  unpack (rlwi, rlwj) <- merge_loop and_run Z.land rlwi rlwj ;;
  if adjustContainerSizeWhenAggregating this then
    unpack (_, rest) <- remaining rlwi rlwj ;;
    dischargeAsEmpty rest ;;;
    sink_setSizeInBits (Z.max (sizeInBits this) (sizeInBits a))
  else ret tt.

Definition andNotToContainer (this a : Ewah) : St K unit :=
  unpack (rlwi, rlwj) <- iterators this a ;;
  unpack (rlwi, rlwj) <-
    merge_loop andNot_run (fun x y => Z.land x (not64 y)) rlwi rlwj ;;
  unpack (i_remains, rest) <- remaining rlwi rlwj ;;
  (if i_remains : bool then dischargeContainer rest ;;; ret tt
   else if adjustContainerSizeWhenAggregating this
        then dischargeAsEmpty rest
        else ret tt) ;;;
  if adjustContainerSizeWhenAggregating this then
    sink_setSizeInBits (Z.max (sizeInBits this) (sizeInBits a))
  else ret tt.

Definition orToContainer (this a : Ewah) : St K unit :=
  unpack (rlwi, rlwj) <- iterators a this ;;
  unpack (rlwi, rlwj) <- merge_loop or_run Z.lor rlwi rlwj ;;
  unpack (_, rest) <- remaining rlwi rlwj ;;
  dischargeContainer rest ;;;
  sink_setSizeInBits (Z.max (sizeInBits this) (sizeInBits a)).

Definition xorToContainer (this a : Ewah) : St K unit :=
  unpack (rlwi, rlwj) <- iterators a this ;;
  unpack (rlwi, rlwj) <- merge_loop xor_run Z.lxor rlwi rlwj ;;
  unpack (_, rest) <- remaining rlwi rlwj ;;
  dischargeContainer rest ;;;
  sink_setSizeInBits (Z.max (sizeInBits this) (sizeInBits a)).

End Merge.

(** [bitOp]: the operand is an [*Ewah] by its type here, so that the
    branch of a foreign implementation does not arise. *)
Definition bitOp (this a : Ewah) (f : Ewah -> St Ewah unit) : outcome Ewah :=
  match New with
  | Ok container =>
      exec (reserve (i32 (Z.max (actualSizeInWords this)
                                (actualSizeInWords a))) ;;;
            f a) container
  | Panic => Panic
  | OutOfFuel => OutOfFuel
  end.

Definition And (this a : Ewah) := bitOp this a (andToContainer this).
Definition AndNot (this a : Ewah) := bitOp this a (andNotToContainer this).
Definition Or (this a : Ewah) := bitOp this a (orToContainer this).
Definition Xor (this a : Ewah) := bitOp this a (xorToContainer this).

Definition cardinalityOf (f : St bitCounter unit) : outcome Z :=
  match f newBitCounter with
  | Ok (_, c) => Ok (i32 (getCount c))
  | Panic => Panic
  | OutOfFuel => OutOfFuel
  end.

Definition andCardinality (this a : Ewah) : outcome Z :=
  cardinalityOf (andToContainer this a).
Definition andNotCardinality (this a : Ewah) : outcome Z :=
  cardinalityOf (andNotToContainer this a).
Definition orCardinality (this a : Ewah) : outcome Z :=
  cardinalityOf (orToContainer this a).
Definition xorCardinality (this a : Ewah) : outcome Z :=
  cardinalityOf (xorToContainer this a).

(** ** Building bitmaps through the public interface *)

Definition andThen {A B} (o : outcome A) (f : A -> outcome B) : outcome B :=
  match o with
  | Ok a => f a
  | Panic => Panic
  | OutOfFuel => OutOfFuel
  end.

(** [Set] on each index of the list, in order *)
Definition setEach (l : list Z) (e : Ewah) : outcome Ewah :=
  fold_left (fun o i => andThen o (exec (Set_ i))) l (Ok e).

(** the bitmap that [New] and then [Set] on each index of [l] build *)
Definition fromList (l : list Z) : outcome Ewah := andThen New (setEach l).

(** the state of a bitmap that [New] has just returned *)
Definition fresh : Ewah := mkEwah 1 0 [0; 0; 0; 0] 0 true.

(** the indices 1, 2, ..., 63 *)
Definition oneTo63 : list Z := map Z.of_nat (seq 1 63).

(** ** [setSizeInBitsWithDefault] and the stream of negated literal words *)

(** [extendEmptyBits]: the body of the function is empty. *)
Definition extendEmptyBits (currentSize newSize : Z) : M unit := ret tt.

(** [for cond(this.sizeInBits) { this.Set(this.sizeInBits) }] *)
Definition setWhile (fuel : nat) (cond : Z -> bool) : M unit :=
  iter fuel
    (fun _ : unit =>
       sib <- gets sizeInBits ;;
       if cond sib then sib <- gets sizeInBits ;; Set_ sib ;;; ret (inl tt)
       else ret (inr tt))
    tt.

(** The two loops end when [Set] has moved [sizeInBits] far enough, and
    no bound on their rounds follows from the arguments: they run on
    [fuel]. The result is [false] where the Go method returns [false]. *)
Definition setSizeInBitsWithDefault (fuel : nat) (size : Z)
    (defaultValue : bool) : M bool :=
  sib <- gets sizeInBits ;;
  if size <? sib then ret false
  else
    (if negb defaultValue then
       sib <- gets sizeInBits ;; extendEmptyBits sib size
     else
       setWhile fuel (fun sib => negb (Z.rem sib wordInBits =? 0)
                                 && (sib <? size)) ;;;
       sib <- gets sizeInBits ;;
       addStreamOfEmptyWords defaultValue
         (i64 (Z.quot size wordInBits - Z.quot sib wordInBits)) ;;;
       setWhile fuel (fun sib => sib <? size)) ;;;
    modify (set_sizeInBits size) ;;;
    ret true.

(** [negativeData[i] = ^data[start + i]] for [i] from 0 up to [number],
    then [pushBackMultiple(negativeData, 0, number)]; an index of
    [negativeData] is in range whenever the loop condition holds. *)
Definition negativePushBack (data : list Z) (start number : Z) : M unit :=
  negativeData <- go_make number ;;
  negativeData <-
    iter (S (Z.to_nat number))
      (fun '(i, nd) =>
         if i <? number then
           w <- lift (rd_buf data (i32 (start + i))) ;;
           ret (inl (i32 (i + 1), <[Z.to_nat i := not64 w]> nd))
         else ret (inr nd))
      (0, negativeData) ;;
  pushBackMultiple negativeData 0 number.

Definition addStreamOfNegatedLiteralWords (data : list Z) (start number : Z)
  : M unit :=
  iter (S (Z.to_nat (2 * number)))
    (fun leftOverNumber =>
       if leftOverNumber >? 0 then
         numberOfLiteralWords <- this_rlw RLW.getNumberOfLiteralWords ;;
         let whatWeCanAdd :=
           Z.min number (LargestLiteralCount - numberOfLiteralWords) in
         this_rlw (fun p => RLW.setNumberOfLiteralWords p
                              (i32 (numberOfLiteralWords + whatWeCanAdd))) ;;;
         let leftOverNumber := i32 (leftOverNumber - whatWeCanAdd) in
         negativePushBack data start whatWeCanAdd ;;;
         sib <- gets sizeInBits ;;
         modify (set_sizeInBits (i64 (sib + whatWeCanAdd * wordInBits))) ;;;
         (if leftOverNumber >? 0 then
            pushBack 0 ;;;
            asw <- gets actualSizeInWords ;;
            modify (set_rlw (asw - 1))
          else ret tt) ;;;
         ret (inl leftOverNumber)
       else ret (inr tt))
    number.

(** * Bitmaps built by [New] and [Set]

    The definitions below describe the states that [New] and [Set]
    reach: a list of segments, each a run of equal words followed by
    literal words, laid out in the buffer as a marker word followed by
    the literals.  They serve to state what [Get], [Cardinality] and
    [Not] do on such states. *)

(** the marker word with running bit [rb], running length [rl] and [nl]
    literal words *)
Definition mk (rb : bool) (rl nl : Z) : Z :=
  Z.lor (Z.b2z rb) (Z.lor (Z.shiftl rl 1) (Z.shiftl nl 33)).

(** a state by its parts: the populated words [pop] of the buffer (so
    that [actualSizeInWords] is their number), the rest [junk] of the
    buffer, [sizeInBits] and the position [p] of the current marker *)
Definition st (pop junk : list Z) (sib p : Z) (adj : bool) : Ewah :=
  mkEwah (Z.of_nat (length pop)) sib (pop ++ junk) p adj.

(** the capacity [pushBackMultiple] asks for when [n] words must fit a
    buffer that is full *)
Definition newCap (n : Z) : Z :=
  if n <? 32768 then n * 2 else Z.quot (n * 3) 2.

(** the rest of the buffer once a word has been pushed after [n]
    populated words: one slot less, or the fresh zeros of the
    reallocation when there was none *)
Definition grown (n : nat) (junk : list Z) : list Z :=
  match junk with
  | [] => replicate (Z.to_nat (newCap (Z.of_nat n + 1)) - n - 1) 0
  | _ :: junk' => junk'
  end.

(** a state whose populated part ends with the current marker [m], at
    index [length pre], and the literal words [lits] that follow it *)
Definition seg_st (pre : list Z) (m : Z) (lits junk : list Z) (sib : Z)
    (adj : bool) : Ewah :=
  st (pre ++ m :: lits) junk sib (Z.of_nat (length pre)) adj.

(** the same, the marker being given by its fields *)
Definition sst (pre : list Z) (rb : bool) (rl : Z) (lits junk : list Z)
    (sib : Z) (adj : bool) : Ewah :=
  seg_st pre (mk rb rl (Z.of_nat (length lits))) lits junk sib adj.

(** a segment: [rlen] words of bit [rbit], then the literal words [lits] *)
Record seg : Type := mkSeg { rbit : bool; rlen : Z; lits : list Z }.

Definition nlit (s : seg) : Z := Z.of_nat (length (lits s)).

(** the buffer words of a segment: its marker, then its literals *)
Definition enc (s : seg) : list Z := mk (rbit s) (rlen s) (nlit s) :: lits s.

Fixpoint encode (ss : list seg) : list Z :=
  match ss with
  | [] => []
  | s :: ss' => enc s ++ encode ss'
  end.

(** a bitmap: its segments, the last of which is the current one, and
    its size in bits *)
Record abs : Type := mkAbs { a_init : list seg; a_last : seg; a_sib : Z }.

Definition all_segs (a : abs) : list seg := a_init a ++ [a_last a].

(** the state that holds [a], with [junk] after the populated words *)
Definition conc (a : abs) (junk : list Z) (adj : bool) : Ewah :=
  sst (encode (a_init a)) (rbit (a_last a)) (rlen (a_last a))
      (lits (a_last a)) junk (a_sib a) adj.

Definition with_last (s : seg) (a : abs) : abs := mkAbs (a_init a) s (a_sib a).

Definition with_sib (n : Z) (a : abs) : abs := mkAbs (a_init a) (a_last a) n.

(** the segments after a new marker, after [addLiteralWord] on a marker
    with room, and after [addEmptyWord] *)
Definition abs_newMarker (v : bool) (n : Z) (a : abs) : abs :=
  mkAbs (a_init a ++ [a_last a]) (mkSeg v n []) (a_sib a).

Definition abs_addLiteralWord (w : Z) (a : abs) : abs :=
  let l := a_last a in with_last (mkSeg (rbit l) (rlen l) (lits l ++ [w])) a.

Definition abs_addEmptyWord (v : bool) (a : abs) : abs :=
  let l := a_last a in
  let noLiteralWord := nlit l =? 0 in
  let runlen := rlen l in
  let rb := if noLiteralWord && (runlen =? 0) then v else rbit l in
  if noLiteralWord && Bool.eqb rb v && (runlen <? LargestRunningLengthCount)
  then with_last (mkSeg rb (runlen + 1) (lits l)) a
  else abs_newMarker v 1 a.

(** the segment that takes a stream of [v]-words: the current one, with
    its running bit changed if it is empty, or a new one *)
Definition abs_stream_head (v : bool) (a : abs) : abs :=
  let l := a_last a in
  if negb (Bool.eqb (rbit l) v) && (rlen l + nlit l =? 0)
  then with_last (mkSeg v (rlen l) (lits l)) a
  else if negb (nlit l =? 0) || negb (Bool.eqb (rbit l) v)
       then abs_newMarker v 0 a
       else a.

(** a stream of [n] words, for an [n] that the segment can take *)
Definition abs_stream (v : bool) (n : Z) (a : abs) : abs :=
  let a1 := abs_stream_head v a in
  let l1 := a_last a1 in
  with_last (mkSeg (rbit l1) (rlen l1 + n) (lits l1)) a1.

(** the counts of a segment leave room in its marker *)
Definition wf_seg (s : seg) : Prop :=
  0 <= rlen s < 2 ^ 31 - 1 /\ nlit s < 2 ^ 31 - 1
  /\ Forall (fun w => 0 <= w < 2 ^ 64) (lits s).

(** the populated words, and the length of the buffer *)
Definition size_w (a : abs) : Z := Z.of_nat (length (encode (all_segs a))).

Definition total_len (a : abs) (junk : list Z) : Z :=
  size_w a + Z.of_nat (length junk).

(** the buffer is short enough for its length and the capacities
    computed from it to be exact in 32 bits *)
Definition Fit (a : abs) (junk : list Z) : Prop := total_len a junk < 2 ^ 29 - 1.

(** [m] takes the state that encodes [a] to a state that encodes [a'],
    returns [r], and lets the buffer grow to at most twice the words in
    use *)
Definition runs_to {A} (m : M A) (a : abs) (junk : list Z) (adj : bool)
    (r : A) (a' : abs) : Prop :=
  exists junk',
    m (conc a junk adj) = Ok (r, conc a' junk' adj)
    /\ total_len a' junk' <= Z.max (total_len a junk) (2 * size_w a').

(** the part of [streamOfEmptyWords_body] after the choice of the
    segment, for a stream that the segment can take *)
Definition stream_tail (v : bool) (number : Z) : M unit :=
  runlen <- this_rlw RLW.getRunningLength ;;
  let whatWeCanAdd := Z.min number (LargestLiteralCount - runlen) in
  this_rlw (fun p => RLW.setRunningLength p (runlen + whatWeCanAdd)) ;;;
  let number := i64 (number - whatWeCanAdd) in
  number <-
    iter (S (Z.to_nat (number / LargestRunningLengthCount)))
      (fun number =>
         if number >=? LargestRunningLengthCount then
           pushBack 0 ;;;
           asw <- gets actualSizeInWords ;;
           modify (set_rlw (asw - 1)) ;;;
           (if v then this_rlw (fun p => RLW.setRunningBit p v) else ret tt) ;;;
           this_rlw (fun p => RLW.setRunningLength p
                                LargestRunningLengthCount) ;;;
           ret (inl (number - LargestRunningLengthCount))
         else ret (inr number))
      number ;;
  if number >? 0 then
    pushBack 0 ;;;
    asw <- gets actualSizeInWords ;;
    modify (set_rlw (asw - 1)) ;;;
    (if v then this_rlw (fun p => RLW.setRunningBit p v) else ret tt) ;;;
    this_rlw (fun p => RLW.setRunningLength p number)
  else ret tt.

(** the segments after [Set i] with [sizeInBits <= i], branch by branch
    as in [Set] *)
Definition abs_Set (i : Z) (a : abs) : abs :=
  let dist := Z.quot (i + wordInBits) wordInBits
              - Z.quot (a_sib a + wordInBits - 1) wordInBits in
  let a0 := with_sib (i + 1) a in
  let bit := shl64 1 (Z.rem i wordInBits) in
  if dist >? 0 then
    abs_addLiteralWord bit
      (if dist >? 1 then abs_stream false (dist - 1) a0 else a0)
  else
    let l := a_last a0 in
    let w := Z.lor (List.last (lits l) 0) bit in
    if w =? allOnes then
      abs_addEmptyWord true
        (with_last (mkSeg (rbit l) (rlen l) (removelast (lits l))) a0)
    else with_last (mkSeg (rbit l) (rlen l) (removelast (lits l) ++ [w])) a0.

(** the number of logical words of a segment and of a bitmap *)
Definition seg_words (s : seg) : Z := rlen s + nlit s.

Fixpoint total (ss : list seg) : Z :=
  match ss with
  | [] => 0
  | s :: ss' => seg_words s + total ss'
  end.

(** a word of a run *)
Definition run_word (rb : bool) : Z := if rb then allOnes else 0.

(** the [k]-th logical word of the bitmap *)
Fixpoint word_at (ss : list seg) (k : Z) : option Z :=
  match ss with
  | [] => None
  | s :: ss' =>
      if k <? rlen s then Some (run_word (rbit s))
      else if k <? rlen s + nlit s then lits s !! Z.to_nat (k - rlen s)
      else word_at ss' (k - rlen s - nlit s)
  end.

(** the counts of a segment fit the fields of its marker *)
Definition wf_mark (s : seg) : Prop :=
  0 <= rlen s < 2 ^ 32 /\ nlit s < 2 ^ 31.

(** the number of one-bits in the literals, in a segment and in a
    bitmap *)
Definition sum_popcount (ls : list Z) : Z :=
  fold_right (fun w acc => popcount_3 w + acc) 0 ls.

Definition card_seg (s : seg) : Z :=
  (if rbit s then 64 * rlen s else 0) + sum_popcount (lits s).

Fixpoint card (ss : list seg) : Z :=
  match ss with
  | [] => 0
  | s :: ss' => card_seg s + card ss'
  end.

(** a segment with every word complemented *)
Definition flip_seg (s : seg) : seg :=
  mkSeg (negb (rbit s)) (rlen s) (map not64 (lits s)).

(** the last word keeps its [lb] low bits *)
Definition mask_last (lb : Z) (ls : list Z) : list Z :=
  removelast ls ++ [Z.land (List.last ls 0) (Z.ones lb)].

(** the segments after [Not], where [lb] is [sizeInBits mod 64]: every
    segment is complemented and, unless [lb] is 0, the last literal of
    the last segment keeps its [lb] low bits only *)
Fixpoint not_segs (lb : Z) (ss : list seg) : list seg :=
  match ss with
  | [] => []
  | s :: ss' =>
      match ss' with
      | [] => [if lb =? 0 then flip_seg s
               else mkSeg (negb (rbit s)) (rlen s)
                          (mask_last lb (map not64 (lits s)))]
      | _ :: _ => flip_seg s :: not_segs lb ss'
      end
  end.

(** the last segment has a literal word *)
Fixpoint tail_has_literal (ss : list seg) : Prop :=
  match ss with
  | [] => True
  | s :: ss' =>
      match ss' with
      | [] => lits s <> []
      | _ :: _ => tail_has_literal ss'
      end
  end.

(** words are 64-bit patterns; run lengths are not negative *)
Definition word_ok (w : Z) : Prop := 0 <= w < 2 ^ 64.

Definition seg_ok (s : seg) : Prop := 0 <= rlen s /\ Forall word_ok (lits s).

(** the logical words of a segment and of a bitmap *)
Definition words_seg (s : seg) : list Z :=
  replicate (Z.to_nat (rlen s)) (run_word (rbit s)) ++ lits s.

Fixpoint words (ss : list seg) : list Z :=
  match ss with
  | [] => []
  | s :: ss' => words_seg s ++ words ss'
  end.

(** bit [j] of a list of words *)
Definition bitw (ws : list Z) (j : Z) : bool :=
  match ws !! Z.to_nat (j / 64) with
  | Some w => Z.testbit w (j mod 64)
  | None => false
  end.

(** what [New] establishes and [Set] keeps: the size is in range, the
    logical words are exactly those [sizeInBits] bits need, a partial
    last word is a literal of the current segment with no bit at or
    above [sizeInBits], and the buffer words in use are at most twice
    the logical words plus one *)
Definition Inv (a : abs) : Prop :=
  0 <= a_sib a <= MaxInt32 - 63
  /\ Forall seg_ok (all_segs a)
  /\ Z.of_nat (length (words (all_segs a))) = (a_sib a + 63) / 64
  /\ (a_sib a mod 64 <> 0 ->
      exists l0 w, lits (a_last a) = l0 ++ [w] /\ w < 2 ^ (a_sib a mod 64))
  /\ size_w a <= 2 * Z.of_nat (length (words (all_segs a))) + 1.

(** the logical words after [Not] *)
Definition not_words (lb : Z) (ws : list Z) : list Z :=
  if lb =? 0 then map not64 ws else mask_last lb (map not64 ws).

(** every index is at least [lo], larger than the one before it, and at
    most [MaxInt32 - 64] *)
Fixpoint ascending_from (lo : Z) (l : list Z) : bool :=
  match l with
  | [] => true
  | i :: l' =>
      (lo <=? i) && (i <=? MaxInt32 - 64) && ascending_from (i + 1) l'
  end.

(** indices that successive [Set] calls accept: non-negative, strictly
    ascending, and no larger than [MaxInt32 - 64] *)
Definition ascending (l : list Z) : bool := ascending_from 0 l.

(** a bound on the buffer that [Set] keeps *)
Definition Small (a : abs) (junk : list Z) : Prop :=
  total_len a junk <= 2 ^ 27 + 6.

(** the segments of the bitmap that [New] returns *)
Definition empty_abs : abs := mkAbs [] (mkSeg false 0 []) 0.

(** ** Further views of the states, for the properties beyond [Not] *)

(** the segments after [Set] on each index of [l], in order *)
Definition abs_setEach (l : list Z) (a : abs) : abs :=
  fold_left (fun a i => abs_Set i a) l a.

(** [j] is one of the indices of [l] *)
Definition mem (j : Z) (l : list Z) : bool := existsb (Z.eqb j) l.

(** the last segment after [Not], where [lb] is [sizeInBits mod 64] *)
Definition not_last (lb : Z) (s : seg) : seg :=
  if lb =? 0 then flip_seg s
  else mkSeg (negb (rbit s)) (rlen s) (mask_last lb (map not64 (lits s))).

(** [data[start : start+n]] *)
Definition chunk (data : list Z) (start n : Z) : list Z :=
  take (Z.to_nat n) (drop (Z.to_nat start) data).

(** the rest of the buffer once [n] words have been pushed after [m]
    words in use: [n] slots less, or what is left of the fresh zeros of
    the reallocation when the buffer was full *)
Definition regrown (m : nat) (n : Z) (junk : list Z) : list Z :=
  match junk with
  | [] => drop (Z.to_nat n)
               (replicate (Z.to_nat (newCap (Z.of_nat m + n)) - m) 0)
  | _ :: _ => drop (Z.to_nat n) junk
  end.

(** the segments [a] hold exactly the indices of [l] *)
Definition Holds (a : abs) (l : list Z) : Prop :=
  Inv a
  /\ a_sib a = List.last (map Z.succ l) 0
  /\ (forall j, 0 <= j -> bitw (words (all_segs a)) j = mem j l)
  /\ sum_popcount (words (all_segs a)) = Z.of_nat (length l)
  /\ (forall j, mem j l = true -> 0 <= j < a_sib a).

(** what a user reads from [b] is the list [l]: [Size()] is one more than
    its last index, [Cardinality()] is its length, and [Get j] says
    whether [j] is in it, for every [j] except [Size()] when that is a
    multiple of 64; [Cardinality] and [Get] leave [b] as it is *)
Definition reads_as (b : Ewah) (l : list Z) : Prop :=
  sizeInBits b = List.last (map Z.succ l) 0
  /\ Cardinality b = Ok (Z.of_nat (length l), b)
  /\ forall j, j <> sizeInBits b \/ sizeInBits b mod 64 <> 0 ->
               Get j b = Ok (mem j l, b).

(** the segments fit their markers and hold 64-bit words *)
Definition segs_ok (ss : list seg) : Prop :=
  Forall seg_ok ss /\ Forall wf_mark ss /\ 64 * total ss < 2 ^ 62.

(** the indices [lo], [lo + 1], ..., [lo + n - 1] *)
Definition zrange (lo : Z) (n : nat) : list Z :=
  map (fun k => lo + Z.of_nat k) (seq 0 n).

(** the segments after [addStreamOfEmptyWords v n] *)
Definition abs_addStream (v : bool) (n : Z) (a : abs) : abs :=
  if n =? 0 then a else abs_stream v n (with_sib (a_sib a + 64 * n) a).

(** the rounds of the first loop: up to the end of the current word, or
    up to [size] *)
Definition rounds1 (s0 size : Z) : nat :=
  if s0 mod 64 =? 0 then 0%nat
  else Z.to_nat (Z.min size (64 * (s0 / 64 + 1)) - s0).

(** ** The words in use and the buffer

    [populated]: the words of the buffer that [actualSizeInWords] counts.
    [sized]: there are that many words in the buffer, which is the
    invariant [len(buffer) >= actualSizeInWords]; the bound on the length
    is the range of the [int32] in which [pushBackMultiple] and [reserve]
    compute it. *)
Definition populated (e : Ewah) : list Z :=
  take (Z.to_nat (actualSizeInWords e)) (buffer e).

Definition sized (e : Ewah) : Prop :=
  0 <= actualSizeInWords e <= Z.of_nat (length (buffer e))
  /\ Z.of_nat (length (buffer e)) <= MaxInt32.

(** A call of a method on one bitmap: the exported methods that have
    one, then the append primitives that the exported methods invoke
    ([Set], [Not], [Clone] and the sink of the Boolean operations),
    taken as calls of their own; the argument of [reserve] is an
    [int32]. [Equal] and [PrintStats] assign nothing. *)
Inductive call : Type :=
| call_Set (i : Z)
| call_Get (i : Z)
| call_Not
| call_Reset
| call_Clear
| call_Copy_itself
| call_Cardinality
| call_Size
| call_SizeInBytes
| call_SizeInWords
| call_add (newdata : Z)
| call_addSignificantBits (newdata bitsthatmatter : Z)
| call_addEmptyWord (v : bool)
| call_addLiteralWord (newdata : Z)
| call_addStreamOfEmptyWords (v : bool) (number : Z)
| call_fastAddStreamOfEmptyWords (v : bool) (number : Z)
| call_setSizeInBits (size : Z)
| call_pushBack (data : Z)
| call_reserve (size : Z).

Definition run (c : call) : Ewah -> outcome Ewah :=
  match c with
  | call_Set i => exec (Set_ i)
  | call_Get i => exec (Get i)
  | call_Not => exec Not
  | call_Reset => exec Reset
  | call_Clear => exec Clear
  | call_Copy_itself => exec (Copy This)
  | call_Cardinality => exec Cardinality
  | call_Size => exec Size
  | call_SizeInBytes => exec SizeInBytes
  | call_SizeInWords => exec SizeInWords
  | call_add newdata => exec (add newdata)
  | call_addSignificantBits newdata bitsthatmatter =>
      exec (addSignificantBits newdata bitsthatmatter)
  | call_addEmptyWord v => exec (addEmptyWord v)
  | call_addLiteralWord newdata => exec (addLiteralWord newdata)
  | call_addStreamOfEmptyWords v number =>
      exec (addStreamOfEmptyWords v number)
  | call_fastAddStreamOfEmptyWords v number =>
      exec (fastAddStreamOfEmptyWords v number)
  | call_setSizeInBits size => exec (setSizeInBits size)
  | call_pushBack data => exec (pushBack data)
  | call_reserve size => exec (reserve (i32 size))
  end.

(** The states of the bitmaps that a program obtains from [New] by calls
    that return. A method with two bitmaps takes any two that the
    program has; when they are the same object, [Swap] and the Boolean
    operations get the same state twice and [Copy] is [call_Copy_itself]. *)
Inductive reachable : Ewah -> Prop :=
| reach_New e : New = Ok e -> reachable e
| reach_call c e e' : reachable e -> run c e = Ok e' -> reachable e'
| reach_Clone e c : reachable e -> Clone e = Ok c -> reachable c
| reach_Copy this other e' :
    reachable this -> reachable other ->
    exec (Copy (Other other)) this = Ok e' -> reachable e'
| reach_Swap_this this other :
    reachable this -> reachable other -> reachable (fst (Swap this other))
| reach_Swap_other this other :
    reachable this -> reachable other -> reachable (snd (Swap this other))
| reach_And this a c :
    reachable this -> reachable a -> And this a = Ok c -> reachable c
| reach_AndNot this a c :
    reachable this -> reachable a -> AndNot this a = Ok c -> reachable c
| reach_Or this a c :
    reachable this -> reachable a -> Or this a = Ok c -> reachable c
| reach_Xor this a c :
    reachable this -> reachable a -> Xor this a = Ok c -> reachable c.

(** [keeps J m]: when [m] returns from a state in [J], it returns a
    state in [J]. *)
Definition keeps {S A : Type} (J : S -> Prop) (m : St S A) : Prop :=
  forall e a e', J e -> m e = Ok (a, e') -> J e'.

(** * Properties *)

Lemma New_fresh : New = Ok fresh.
Proof. reflexivity. Qed.

(** A conjunction of closed facts, each settled by evaluation; the facts
    are taken in order, since a later one may mention an object that an
    earlier one determines. *)
Ltac by_evaluation :=
  repeat (split; [vm_compute; reflexivity|]); vm_compute; reflexivity.

(** ** Refused [Set] *)

(** C7. [Set(i)] with [i < 0], [i > MaxInt32 - 64] or [i < sizeInBits]
    returns nil, and the bitmap after the call is the bitmap before it,
    field for field; every observation of it ([Size], [SizeInWords],
    [Cardinality], [Get]) is then unchanged. *)
Theorem Set_refused (b : Ewah) (i : Z) :
  i < 0 \/ i > MaxInt32 - 64 \/ i < sizeInBits b ->
  Set_ i b = Ok (false, b).
Proof.
  intros Hi. unfold Set_, wordInBits.
  destruct ((i >? MaxInt32 - 64) || (i <? 0)) eqn:Hguard; [reflexivity|].
  apply orb_false_elim in Hguard as [Hhi Hlo].
  rewrite Z.gtb_ltb in Hhi. apply Z.ltb_ge in Hhi. apply Z.ltb_ge in Hlo.
  assert (Hsz : i < sizeInBits b) by lia.
  unfold bind at 1, gets at 1.
  apply Z.ltb_lt in Hsz. rewrite Hsz. reflexivity.
Qed.

Lemma Set_refused_witness :
  Set_ 7 {| actualSizeInWords := 2; sizeInBits := 11;
            buffer := [8589934592; 1024; 0; 0]; rlw := 0;
            adjustContainerSizeWhenAggregating := true |}
  = Ok (false, {| actualSizeInWords := 2; sizeInBits := 11;
                  buffer := [8589934592; 1024; 0; 0]; rlw := 0;
                  adjustContainerSizeWhenAggregating := true |}).
Proof. apply Set_refused. right; right. simpl. lia. Defined.

(** ** Inputs on which the code leaves its specification *)

(** C8. [Get] lets the index [i = sizeInBits] pass its range check
    ([i > sizeInBits] where [i >= sizeInBits] is meant). On a bitmap that
    [New] has just returned, [Get(0)] walks over the words of the buffer
    that are not populated and then indexes the buffer past its end: it
    panics instead of returning false. *)
Theorem Get_at_size_of_fresh :
  sizeInBits fresh = 0 /\ eval (Get 0) fresh = Panic.
Proof. by_evaluation. Qed.

(** C1. After [Set(63)] on a new bitmap, [Get(63)] is true, and [Get(64)],
    an index that was not set, does not return false: 64 is the size of
    the bitmap, which the range check of [Get] lets pass, and the walk
    over the segments leaves the buffer. *)
Theorem Get_after_Set_63 :
  exists b, fromList [63] = Ok b
            /\ Get 63 b = Ok (true, b)
            /\ eval (Get 64) b = Panic.
Proof. eexists. by_evaluation. Qed.

(** C10. [add] compares the word with [^1], the word whose bits are all
    set but bit 0, where the all-ones word [^0] is meant. So [add(^1)]
    appends a running word of ones, whose bit 0 reads true, and the word
    appended differs from the word given; and [add(^0)] stores a literal
    word instead of a run. *)
Theorem add_folds_the_wrong_word :
  Z.testbit (not64 1) 0 = false
  /\ exec (add (not64 1)) fresh = Ok (mkEwah 1 64 [3; 0; 0; 0] 0 true)
  /\ eval (Get 0) (mkEwah 1 64 [3; 0; 0; 0] 0 true) = Ok true
  /\ exec (add allOnes) fresh
     = Ok (mkEwah 2 64 [8589934592; allOnes; 0; 0] 0 true).
Proof. by_evaluation. Qed.

(** C6. [addStreamOfEmptyWords] bounds what the current segment absorbs
    by [LargestLiteralCount - rl], not by [LargestRunningLengthCount - rl].
    A stream of [2^31] zero words on a new bitmap fits in one segment
    ([2^31 <= LargestRunningLengthCount]), and yet the code leaves the
    running length of the current segment at [LargestLiteralCount] and
    opens a second segment for the last word. *)
Theorem stream_absorbs_up_to_LargestLiteralCount :
  2 ^ 31 <= LargestRunningLengthCount - RLW.runningLength 0
  /\ exists m0 m1,
      exec (addStreamOfEmptyWords false (2 ^ 31)) fresh
      = Ok (mkEwah 2 (64 * 2 ^ 31) [m0; m1; 0; 0] 1 true)
      /\ RLW.runningLength m0 = LargestLiteralCount
      /\ RLW.runningLength m1 = 1.
Proof.
  split; [vm_compute; discriminate|].
  do 2 eexists. by_evaluation.
Qed.

(** C2. For [a = b = {1, ..., 63}] the literal word of [a AND b] and of
    [a OR b] is [^1], which [add] folds into a run of 64 ones: both
    results have cardinality 64, and 64 + 64 is not 63 + 63. *)
Theorem and_or_cardinality_of_oneTo63 :
  exists a c d,
    fromList oneTo63 = Ok a
    /\ And a a = Ok c /\ Or a a = Ok d
    /\ eval Cardinality a = Ok 63
    /\ eval Cardinality c = Ok 64
    /\ eval Cardinality d = Ok 64.
Proof. do 3 eexists. by_evaluation. Qed.

(** C3. For [a = {1, ..., 63}] and [b = {0}], bit 0 of [a.AndNot(b)] is
    set, although bit 0 of [a] is not: the literal [a &^ b] is [^1],
    which [add] folds into a run of ones. The index 0 is below
    [max(a.Size(), b.Size()) = 64]. *)
Theorem andNot_of_oneTo63 :
  exists a b c,
    fromList oneTo63 = Ok a /\ fromList [0] = Ok b
    /\ AndNot a b = Ok c
    /\ Z.max (sizeInBits a) (sizeInBits b) = 64
    /\ eval (Get 0) a = Ok false
    /\ eval (Get 0) b = Ok true
    /\ eval (Get 0) c = Ok true.
Proof. do 3 eexists. by_evaluation. Qed.

(** C4. [{10}.And({100})] is a run of two zero words with 101 significant
    bits. [Not] on it takes the branch of a last segment without literal
    words, which writes [-1] to the number of literal words (where the
    running length is to be decremented) and appends the literal [0]
    (where the low bits of the flipped word are meant). The second [Not]
    then follows the corrupt count of literal words out of the buffer and
    panics. *)
Theorem not_not_of_and :
  exists a b c c',
    fromList [10] = Ok a /\ fromList [100] = Ok b
    /\ And a b = Ok c
    /\ c = mkEwah 1 101 [4; 0; 0; 0] 0 true
    /\ exec Not c = Ok c'
    /\ RLW.numberOfLiteralWords (nth 0 (buffer c') 0) = LargestLiteralCount
    /\ exec Not c' = Panic.
Proof. do 4 eexists. by_evaluation. Qed.

(** * Properties of the bitmaps built by [New] and [Set]

    [Set] refines [abs_Set] on the segments; [Get], [Cardinality] and
    [Not] are computed on the segments of a state; the invariant [Inv]
    links the segments to [sizeInBits]. *)

(** ** Bits of marker words *)

Lemma shiftl_bit a n m :
  Z.testbit (Z.shiftl a n) m = (0 <=? m) && Z.testbit a (m - n).
Proof.
  destruct (Z.leb_spec 0 m); simpl.
  - apply Z.shiftl_spec; lia.
  - apply Z.testbit_neg_r; lia.
Qed.

Lemma shiftr_bit a n m :
  Z.testbit (Z.shiftr a n) m = (0 <=? m) && Z.testbit a (m + n).
Proof.
  destruct (Z.leb_spec 0 m); simpl.
  - apply Z.shiftr_spec; lia.
  - apply Z.testbit_neg_r; lia.
Qed.

Lemma ones_bit n i : 0 <= n -> Z.testbit (Z.ones n) i = (0 <=? i) && (i <? n).
Proof.
  intros Hn. destruct (Z.leb_spec 0 i), (Z.ltb_spec i n); simpl.
  - apply Z.ones_spec_low; lia.
  - apply Z.ones_spec_high; lia.
  - apply Z.testbit_neg_r; lia.
  - apply Z.testbit_neg_r; lia.
Qed.

Lemma b2z_bit b i : Z.testbit (Z.b2z b) i = (i =? 0) && b.
Proof.
  destruct (Z.eqb_spec i 0) as [->|Hi]; simpl.
  - apply Z.b2z_bit0.
  - destruct b; simpl; [|apply Z.testbit_0_l].
    destruct i; try lia; reflexivity.
Qed.

Lemma one_bit i : Z.testbit 1 i = (i =? 0).
Proof. change 1 with (Z.b2z true). rewrite b2z_bit. apply andb_true_r. Qed.

Lemma high_bit x k i : 0 <= x < 2 ^ k -> k <= i -> Z.testbit x i = false.
Proof.
  intros Hx Hi. destruct (Z.eq_dec x 0) as [->|Hx0]; [apply Z.testbit_0_l|].
  apply Z.bits_above_log2; [lia|].
  assert (0 <= k) by (destruct (Z.le_gt_cases 0 k); [lia|rewrite Z.pow_neg_r in Hx; lia]).
  apply Z.lt_le_trans with k; [|lia]. apply Z.log2_lt_pow2; lia.
Qed.

Ltac bits_step :=
  first [ rewrite Z.lor_spec | rewrite Z.land_spec | rewrite Z.lxor_spec
        | rewrite shiftl_bit | rewrite shiftr_bit
        | rewrite ones_bit by lia | rewrite b2z_bit | rewrite one_bit
        | rewrite Z.testbit_0_l ].

Ltac bits_cases :=
  repeat match goal with
    | |- context [?a <? ?b] => destruct (Z.ltb_spec a b)
    | |- context [?a <=? ?b] => destruct (Z.leb_spec a b)
    | |- context [?a =? ?b] => destruct (Z.eqb_spec a b)
    end.

Ltac bits_index :=
  repeat match goal with
    | |- context [Z.testbit ?x ?e] =>
        first [ rewrite (Z.testbit_neg_r x e) by lia
              | match goal with
                | H : 0 <= x < 2 ^ ?k |- _ => rewrite (high_bit x k e H) by lia
                end ]
    end;
  repeat match goal with
    | i : Z |- context [Z.testbit ?x ?e] =>
        lazymatch e with
        | i => fail
        | _ => replace e with i by lia
        end
    end.

Ltac bitblast :=
  apply Z.bits_inj'; let i := fresh "i" in let Hi := fresh "Hi" in
  intros i Hi; repeat bits_step; bits_cases; try lia; bits_index;
  simpl; try reflexivity; try btauto.

Lemma runningLength_mk rb rl nl :
  0 <= rl < 2 ^ 32 -> 0 <= nl < 2 ^ 31 -> RLW.runningLength (mk rb rl nl) = rl.
Proof.
  intros Hrl Hnl. unfold RLW.runningLength, mk.
  change LargestRunningLengthCount with (Z.ones 32).
  bitblast.
Qed.

Lemma runningBit_mk rb rl nl : RLW.runningBit (mk rb rl nl) = rb.
Proof.
  unfold RLW.runningBit, mk. repeat bits_step. simpl.
  destruct rb; reflexivity.
Qed.

Lemma numberOfLiteralWords_mk rb rl nl :
  0 <= rl < 2 ^ 32 -> 0 <= nl < 2 ^ 31 -> RLW.numberOfLiteralWords (mk rb rl nl) = nl.
Proof.
  intros Hrl Hnl. unfold RLW.numberOfLiteralWords, mk.
  change LargestLiteralCount with (Z.ones 31).
  bitblast.
Qed.

Lemma withRunningBit_mk rb rl nl v :
  0 <= rl < 2 ^ 32 -> 0 <= nl < 2 ^ 31 ->
  RLW.withRunningBit (mk rb rl nl) v = mk v rl nl.
Proof.
  intros Hrl Hnl. unfold RLW.withRunningBit, mk, not64.
  change allOnes with (Z.ones 64).
  destruct v; bitblast.
Qed.

Lemma withRunningLength_mk rb rl nl n :
  0 <= rl < 2 ^ 32 -> 0 <= nl < 2 ^ 31 -> 0 <= n < 2 ^ 32 ->
  RLW.withRunningLength (mk rb rl nl) n = mk rb n nl.
Proof.
  intros Hrl Hnl Hn. unfold RLW.withRunningLength, mk, not64.
  change allOnes with (Z.ones 64).
  change LargestRunningLengthCount with (Z.ones 32).
  bitblast.
Qed.

Lemma withNumberOfLiteralWords_mk rb rl nl n :
  0 <= rl < 2 ^ 32 -> 0 <= nl < 2 ^ 31 -> 0 <= n < 2 ^ 31 ->
  RLW.withNumberOfLiteralWords (mk rb rl nl) n = mk rb rl n.
Proof.
  intros Hrl Hnl Hn. unfold RLW.withNumberOfLiteralWords, mk, not64.
  change allOnes with (Z.ones 64).
  change LargestLiteralCount with (Z.ones 31).
  bitblast.
Qed.

(** ** The buffer under [pushBack] *)

Lemma i32_small z : - 2 ^ 31 <= z < 2 ^ 31 -> i32 z = z.
Proof. intros. unfold i32. rewrite Z.mod_small; lia. Qed.

Lemma i64_small z : - 2 ^ 63 <= z < 2 ^ 63 -> i64 z = z.
Proof. intros. unfold i64. rewrite Z.mod_small; lia. Qed.

Lemma bind_ok {S A B} (m : St S A) (k : A -> St S B) e a e' :
  m e = Ok (a, e') -> bind m k e = k a e'.
Proof. unfold bind. intros ->. reflexivity. Qed.

Lemma rd_st pop junk sib p adj q w :
  0 <= q -> pop !! Z.to_nat q = Some w ->
  rd q (st pop junk sib p adj) = Ok (w, st pop junk sib p adj).
Proof.
  intros Hq Hw. unfold rd, bind, gets, lift, rd_buf. cbn.
  destruct (Z.ltb_spec q 0); [lia|].
  rewrite lookup_app_l by (eapply lookup_lt_Some; eauto).
  rewrite Hw. reflexivity.
Qed.

Lemma wr_st pop junk sib p adj q w w0 :
  0 <= q -> pop !! Z.to_nat q = Some w0 ->
  wr q w (st pop junk sib p adj)
  = Ok (tt, st (<[Z.to_nat q := w]> pop) junk sib p adj).
Proof.
  intros Hq Hw. unfold wr, bind, gets, lift, rd_buf, modify. cbn.
  destruct (Z.ltb_spec q 0); [lia|].
  pose proof (lookup_lt_Some _ _ _ Hw) as Hlt.
  rewrite lookup_app_l by assumption.
  rewrite Hw. unfold st, set_buffer. cbn.
  rewrite length_insert, insert_app_l by assumption. reflexivity.
Qed.

Ltac zlia := Z.to_euclidean_division_equations; lia.

Lemma newCap_bounds n : 1 <= n < 2 ^ 29 -> n < newCap n <= 2 * n.
Proof.
  intros Hn. unfold newCap. destruct (Z.ltb_spec n 32768); zlia.
Qed.

Lemma go_copy_grow (l : list Z) (c : nat) :
  (length l <= c)%nat ->
  go_copy (replicate c 0) l = l ++ replicate (c - length l) 0.
Proof.
  intros Hc. unfold go_copy. rewrite length_replicate, take_ge by lia.
  rewrite drop_replicate. reflexivity.
Qed.

Lemma go_slice_drop (l : list Z) (n : nat) :
  (n <= length l)%nat ->
  go_slice l (Z.of_nat n) (Z.of_nat (length l)) = Some (drop n l).
Proof.
  intros Hn. unfold go_slice.
  destruct (Z.leb_spec 0 (Z.of_nat n)); [|lia].
  destruct (Z.leb_spec (Z.of_nat n) (Z.of_nat (length l))); [|lia].
  rewrite Z.leb_refl. cbn [andb]. rewrite Nat2Z.id.
  rewrite take_ge; [reflexivity|]. rewrite length_drop. lia.
Qed.

(** the second half of [pushBackMultiple] for one word, when there is
    room for it *)
Lemma place_ok e pop x junk' w :
  buffer e = pop ++ x :: junk' ->
  (buf <- gets buffer ;;
   dst <- lift (go_slice buf (Z.of_nat (length pop)) (Z.of_nat (length buf))) ;;
   src <- lift (go_slice [w] 0 (i32 (0 + 1))) ;;
   modify (set_buffer (take (Z.to_nat (Z.of_nat (length pop))) buf
                       ++ go_copy dst src)) ;;;
   modify (set_actualSizeInWords (Z.of_nat (length pop) + 1))) e
  = Ok (tt, st (pop ++ [w]) junk' (sizeInBits e) (rlw e)
              (adjustContainerSizeWhenAggregating e)).
Proof.
  intros He. unfold bind at 1, gets at 1. rewrite He.
  rewrite go_slice_drop by (rewrite length_app; simpl; lia).
  rewrite drop_app_length. unfold lift at 1, bind at 1.
  change (go_slice [w] 0 (i32 (0 + 1))) with (Some [w]).
  unfold lift at 1, bind at 1. unfold bind, modify, go_copy.
  rewrite Nat2Z.id, take_app_length. cbn.
  unfold st. f_equal. f_equal.
  rewrite length_app. cbn.
  rewrite take_nil, drop_0, <- app_assoc. cbn.
  unfold set_actualSizeInWords, set_buffer. cbn. f_equal. lia.
Qed.

Lemma pushBack_st pop junk sib p adj w :
  (Z.of_nat (length pop + length junk) < 2 ^ 29 - 1) ->
  pushBack w (st pop junk sib p adj)
  = Ok (tt, st (pop ++ [w]) (grown (length pop) junk) sib p adj).
Proof.
  intros Hlen. unfold pushBack, pushBackMultiple.
  unfold bind at 1, gets at 1. unfold bind at 1, gets at 1.
  cbn [buffer actualSizeInWords st].
  rewrite length_app, i32_small by lia.
  destruct junk as [|x junk'].
  - rewrite Nat.add_0_r, Z.eqb_refl.
    set (n := Z.of_nat (length pop)).
    assert (Hn : 0 <= n < 2 ^ 29 - 1) by (simpl in Hlen; lia).
    rewrite (i32_small (n + 1)) by lia.
    assert (Hnew : (if n + 1 <? 32768 then i32 ((n + 1) * 2)
                    else if Z.quot (i32 ((n + 1) * 3)) 2 <? n + 1 then MaxInt32
                         else Z.quot (i32 ((n + 1) * 3)) 2) = newCap (n + 1)).
    { unfold newCap. rewrite !i32_small by lia.
      destruct (Z.ltb_spec (n + 1) 32768); [reflexivity|].
      destruct (Z.ltb_spec (Z.quot ((n + 1) * 3) 2) (n + 1)); [zlia|reflexivity]. }
    rewrite Hnew. clear Hnew.
    pose proof (newCap_bounds (n + 1) ltac:(lia)) as Hb.
    set (c := newCap (n + 1)) in *.
    erewrite bind_ok; cycle 1.
    { unfold go_make. destruct (Z.ltb_spec c 0); [lia|].
      unfold bind at 1, ret at 1, modify.
      rewrite app_nil_r, go_copy_grow by lia.
      replace (Z.to_nat c - length pop)%nat
        with (S (Z.to_nat c - length pop - 1)) by lia.
      cbn [replicate set_buffer st actualSizeInWords sizeInBits rlw
           adjustContainerSizeWhenAggregating].
      reflexivity. }
    cbv beta. unfold n. erewrite place_ok by reflexivity. reflexivity.
  - destruct (Z.eqb_spec (Z.of_nat (length pop))
                (Z.of_nat (length pop + length (x :: junk'))));
      [simpl in *; lia|].
    erewrite bind_ok; [|reflexivity]. cbv beta.
    erewrite place_ok by reflexivity. reflexivity.
Qed.

Lemma grown_length n junk :
  Z.of_nat (n + length junk) < 2 ^ 29 - 1 ->
  Z.of_nat (n + 1 + length (grown n junk))
  <= Z.max (Z.of_nat (n + length junk)) (2 * (Z.of_nat n + 1)).
Proof.
  intros Hlen. destruct junk as [|x junk']; cbn [grown length].
  - rewrite length_replicate.
    pose proof (newCap_bounds (Z.of_nat n + 1) ltac:(simpl in Hlen; lia)).
    lia.
  - lia.
Qed.

(** ** The current marker *)

Lemma rd_marker pre m lits junk sib adj :
  rd (Z.of_nat (length pre)) (seg_st pre m lits junk sib adj)
  = Ok (m, seg_st pre m lits junk sib adj).
Proof.
  apply rd_st; [lia|]. rewrite Nat2Z.id. apply list_lookup_middle. reflexivity.
Qed.

Lemma wr_marker pre m lits junk sib adj m' :
  wr (Z.of_nat (length pre)) m' (seg_st pre m lits junk sib adj)
  = Ok (tt, seg_st pre m' lits junk sib adj).
Proof.
  unfold seg_st. erewrite wr_st; [|lia|rewrite Nat2Z.id; apply list_lookup_middle; reflexivity].
  rewrite Nat2Z.id.
  replace (length pre) with (length pre + 0)%nat at 1 by lia.
  rewrite insert_app_r. reflexivity.
Qed.

Section SegOps.

Variables (pre : list Z) (m : Z) (lits junk : list Z) (sib : Z) (adj : bool).

Let e := seg_st pre m lits junk sib adj.

Lemma getRunningBit_seg :
  this_rlw RLW.getRunningBit e = Ok (RLW.runningBit m, e).
Proof.
  unfold this_rlw, RLW.getRunningBit. unfold bind at 1, gets at 1.
  cbn [rlw e seg_st st]. erewrite bind_ok by apply rd_marker. reflexivity.
Qed.

Lemma getRunningLength_seg :
  this_rlw RLW.getRunningLength e = Ok (RLW.runningLength m, e).
Proof.
  unfold this_rlw, RLW.getRunningLength. unfold bind at 1, gets at 1.
  cbn [rlw e seg_st st]. erewrite bind_ok by apply rd_marker. reflexivity.
Qed.

Lemma getNumberOfLiteralWords_seg :
  this_rlw RLW.getNumberOfLiteralWords e = Ok (RLW.numberOfLiteralWords m, e).
Proof.
  unfold this_rlw, RLW.getNumberOfLiteralWords. unfold bind at 1, gets at 1.
  cbn [rlw e seg_st st]. erewrite bind_ok by apply rd_marker. reflexivity.
Qed.

Lemma size_seg :
  this_rlw RLW.size e
  = Ok (RLW.runningLength m + RLW.numberOfLiteralWords m, e).
Proof.
  unfold this_rlw, RLW.size. unfold bind at 1, gets at 1.
  cbn [rlw e seg_st st]. erewrite bind_ok by apply rd_marker. reflexivity.
Qed.

Lemma setRunningBit_seg v :
  this_rlw (fun p => RLW.setRunningBit p v) e
  = Ok (tt, seg_st pre (RLW.withRunningBit m v) lits junk sib adj).
Proof.
  unfold this_rlw, RLW.setRunningBit. unfold bind at 1, gets at 1.
  cbn [rlw e seg_st st]. erewrite bind_ok by apply rd_marker.
  apply wr_marker.
Qed.

Lemma setRunningLength_seg n :
  this_rlw (fun p => RLW.setRunningLength p n) e
  = Ok (tt, seg_st pre (RLW.withRunningLength m n) lits junk sib adj).
Proof.
  unfold this_rlw, RLW.setRunningLength. unfold bind at 1, gets at 1.
  cbn [rlw e seg_st st]. erewrite bind_ok by apply rd_marker.
  apply wr_marker.
Qed.

Lemma setNumberOfLiteralWords_seg n :
  this_rlw (fun p => RLW.setNumberOfLiteralWords p n) e
  = Ok (tt, seg_st pre (RLW.withNumberOfLiteralWords m n) lits junk sib adj).
Proof.
  unfold this_rlw, RLW.setNumberOfLiteralWords. unfold bind at 1, gets at 1.
  cbn [rlw e seg_st st]. erewrite bind_ok by apply rd_marker.
  apply wr_marker.
Qed.

Lemma pushBack_seg w :
  Z.of_nat (length pre + 1 + length lits + length junk) < 2 ^ 29 - 1 ->
  pushBack w e
  = Ok (tt, seg_st pre m (lits ++ [w]) (grown (length pre + 1 + length lits) junk) sib adj).
Proof.
  intros Hlen. unfold e, seg_st. rewrite pushBack_st.
  - rewrite <- app_assoc, length_app. cbn [length app].
    replace (length pre + S (length lits))%nat
      with (length pre + 1 + length lits)%nat by lia.
    reflexivity.
  - rewrite length_app. cbn [length]. lia.
Qed.

(** a new marker word at the end, which becomes the current one *)
Lemma newMarker_seg {A} (k : M A) :
  Z.of_nat (length pre + 1 + length lits + length junk) < 2 ^ 29 - 1 ->
  (pushBack 0 ;;; asw <- gets actualSizeInWords ;;
   modify (set_rlw (asw - 1)) ;;; k) e
  = k (seg_st (pre ++ m :: lits) 0 []
         (grown (length pre + 1 + length lits) junk) sib adj).
Proof.
  intros Hlen. erewrite bind_ok by (apply pushBack_seg; assumption).
  unfold bind, gets, modify, seg_st, st, set_rlw.
  cbn [actualSizeInWords sizeInBits buffer rlw adjustContainerSizeWhenAggregating].
  replace (pre ++ m :: lits ++ [0]) with ((pre ++ m :: lits) ++ [0])
    by (rewrite <- app_assoc; reflexivity).
  f_equal. f_equal. f_equal.
  rewrite (length_app _ [0]). cbn [length]. lia.
Qed.

End SegOps.

(** ** The current segment as running bit, running length and literals *)

Ltac step_with lem := erewrite bind_ok by (apply lem); cbv beta.

Ltac step_ret := erewrite bind_ok by reflexivity; cbv beta.

Section SstOps.

Variables (pre : list Z) (rb : bool) (rl : Z) (lits junk : list Z)
          (sib : Z) (adj : bool).

Hypothesis Hrl : 0 <= rl < 2 ^ 32.

Hypothesis Hnl : Z.of_nat (length lits) < 2 ^ 31 - 1.

Let Fits : Prop :=
  Z.of_nat (length pre + 1 + length lits + length junk) < 2 ^ 29 - 1.

Lemma addLiteralWord_sst w :
  Fits ->
  addLiteralWord w (sst pre rb rl lits junk sib adj)
  = Ok (tt, sst pre rb rl (lits ++ [w])
              (grown (length pre + 1 + length lits) junk) sib adj).
Proof.
  intros Hfit. unfold addLiteralWord, sst.
  step_with getNumberOfLiteralWords_seg.
  rewrite numberOfLiteralWords_mk by lia.
  destruct (Z.geb_spec (Z.of_nat (length lits)) LargestLiteralCount) as [Hge|_];
    [unfold LargestLiteralCount in Hge; lia|].
  step_ret.
  step_with setNumberOfLiteralWords_seg.
  rewrite withNumberOfLiteralWords_mk by (rewrite ?i32_small; lia).
  rewrite pushBack_seg by assumption.
  rewrite i32_small by lia.
  rewrite length_app. cbn [length].
  replace (Z.of_nat (length lits + 1)) with (Z.of_nat (length lits) + 1) by lia.
  reflexivity.
Qed.

Lemma sst_setRunningBit v :
  this_rlw (fun p => RLW.setRunningBit p v) (sst pre rb rl lits junk sib adj)
  = Ok (tt, sst pre v rl lits junk sib adj).
Proof.
  unfold sst. rewrite setRunningBit_seg, withRunningBit_mk by lia. reflexivity.
Qed.

Lemma sst_setRunningLength n :
  0 <= n < 2 ^ 32 ->
  this_rlw (fun p => RLW.setRunningLength p n) (sst pre rb rl lits junk sib adj)
  = Ok (tt, sst pre rb n lits junk sib adj).
Proof.
  intros Hn. unfold sst.
  rewrite setRunningLength_seg, withRunningLength_mk by lia. reflexivity.
Qed.

Lemma sst_getRunningBit :
  this_rlw RLW.getRunningBit (sst pre rb rl lits junk sib adj)
  = Ok (rb, sst pre rb rl lits junk sib adj).
Proof. unfold sst. rewrite getRunningBit_seg, runningBit_mk. reflexivity. Qed.

Lemma sst_getRunningLength :
  this_rlw RLW.getRunningLength (sst pre rb rl lits junk sib adj)
  = Ok (rl, sst pre rb rl lits junk sib adj).
Proof.
  unfold sst. rewrite getRunningLength_seg, runningLength_mk by lia.
  reflexivity.
Qed.

Lemma sst_getNumberOfLiteralWords :
  this_rlw RLW.getNumberOfLiteralWords (sst pre rb rl lits junk sib adj)
  = Ok (Z.of_nat (length lits), sst pre rb rl lits junk sib adj).
Proof.
  unfold sst. rewrite getNumberOfLiteralWords_seg, numberOfLiteralWords_mk by lia.
  reflexivity.
Qed.

Lemma sst_size :
  this_rlw RLW.size (sst pre rb rl lits junk sib adj)
  = Ok (rl + Z.of_nat (length lits), sst pre rb rl lits junk sib adj).
Proof.
  unfold sst.
  rewrite size_seg, runningLength_mk, numberOfLiteralWords_mk by lia.
  reflexivity.
Qed.

(** a new marker, made the current segment with running bit [v] and
    running length [n] *)
Lemma sst_newMarker {A} (k : M A) :
  Fits ->
  (pushBack 0 ;;; asw <- gets actualSizeInWords ;;
   modify (set_rlw (asw - 1)) ;;; k)
    (sst pre rb rl lits junk sib adj)
  = k (sst (pre ++ mk rb rl (Z.of_nat (length lits)) :: lits) false 0 []
           (grown (length pre + 1 + length lits) junk) sib adj).
Proof.
  intros Hfit. unfold sst. rewrite newMarker_seg by assumption. reflexivity.
Qed.

End SstOps.

(** ** The last literal word of the current segment *)
Section LastLiteral.

Variables (pre : list Z) (m : Z) (lits0 junk : list Z) (sib : Z) (adj : bool).

Lemma asw_seg lits :
  actualSizeInWords (seg_st pre m lits junk sib adj)
  = Z.of_nat (length pre + 1 + length lits).
Proof.
  unfold seg_st, st. cbn [actualSizeInWords]. rewrite length_app.
  cbn [length]. lia.
Qed.

Lemma last_lookup w :
  (pre ++ m :: lits0 ++ [w]) !! (length pre + 1 + length lits0)%nat = Some w.
Proof.
  replace (pre ++ m :: lits0 ++ [w]) with ((pre ++ m :: lits0) ++ [w])
    by (rewrite <- app_assoc; reflexivity).
  apply list_lookup_middle. rewrite length_app. cbn [length]. lia.
Qed.

Lemma rd_last w :
  rd (Z.of_nat (length pre + 1 + length lits0))
     (seg_st pre m (lits0 ++ [w]) junk sib adj)
  = Ok (w, seg_st pre m (lits0 ++ [w]) junk sib adj).
Proof.
  apply rd_st; [lia|]. rewrite Nat2Z.id. apply last_lookup.
Qed.

Lemma wr_last w w' :
  wr (Z.of_nat (length pre + 1 + length lits0)) w'
     (seg_st pre m (lits0 ++ [w]) junk sib adj)
  = Ok (tt, seg_st pre m (lits0 ++ [w']) junk sib adj).
Proof.
  unfold seg_st.
  erewrite wr_st; [|lia|rewrite Nat2Z.id; apply last_lookup].
  rewrite Nat2Z.id. f_equal. f_equal. f_equal.
  replace (pre ++ m :: lits0 ++ [w]) with ((pre ++ m :: lits0) ++ [w])
    by (rewrite <- app_assoc; reflexivity).
  replace (length pre + 1 + length lits0)%nat
    with (length (pre ++ m :: lits0) + 0)%nat
    by (rewrite length_app; cbn [length]; lia).
  rewrite insert_app_r. cbn. rewrite <- app_assoc. reflexivity.
Qed.

(** [actualSizeInWords -= 1]: the last literal leaves the populated part *)
Lemma drop_last w :
  set_actualSizeInWords (Z.of_nat (length pre + 1 + length lits0))
    (seg_st pre m (lits0 ++ [w]) junk sib adj)
  = seg_st pre m lits0 (w :: junk) sib adj.
Proof.
  unfold seg_st, st, set_actualSizeInWords.
  cbn [actualSizeInWords sizeInBits buffer rlw
       adjustContainerSizeWhenAggregating].
  f_equal.
  - rewrite length_app. cbn [length]. lia.
  - rewrite <- !app_assoc. cbn. rewrite <- app_assoc. reflexivity.
Qed.

End LastLiteral.

(** ** The append primitives on segments *)

Lemma encode_app ss1 ss2 : encode (ss1 ++ ss2) = encode ss1 ++ encode ss2.
Proof.
  induction ss1 as [|s ss1 IH]; [reflexivity|].
  cbn [encode app]. rewrite IH, app_assoc. reflexivity.
Qed.

Lemma encode_snoc ss s : encode (ss ++ [s]) = encode ss ++ enc s.
Proof. rewrite encode_app. cbn [encode]. rewrite app_nil_r. reflexivity. Qed.

Lemma size_w_eq a :
  size_w a = Z.of_nat (length (encode (a_init a)) + 1 + length (lits (a_last a))).
Proof.
  unfold size_w, all_segs. rewrite encode_snoc, length_app. cbn [enc length].
  lia.
Qed.

Lemma conc_buffer a junk adj :
  conc a junk adj
  = st (encode (all_segs a)) junk (a_sib a)
       (Z.of_nat (length (encode (a_init a)))) adj.
Proof. unfold conc, sst, seg_st, all_segs. rewrite encode_snoc. reflexivity. Qed.

Ltac side := first [assumption | lia | (cbn [length]; lia)].

Ltac step lem := erewrite bind_ok by (apply lem; side); cbv beta.

Section Refine.

Variables (a : abs) (junk : list Z) (adj : bool).

Hypothesis Hwf : wf_seg (a_last a).

Let Hrl : 0 <= rlen (a_last a) < 2 ^ 31 - 1.
Proof. destruct Hwf as [? _]. lia. Qed.

Let Hnl : Z.of_nat (length (lits (a_last a))) < 2 ^ 31 - 1.
Proof. destruct Hwf as (_ & ? & _). assumption. Qed.

Lemma Fit_eq :
  Fit a junk ->
  Z.of_nat (length (encode (a_init a)) + 1
            + length (lits (a_last a)) + length junk) < 2 ^ 29 - 1.
Proof. unfold Fit, total_len. rewrite size_w_eq. lia. Qed.

Lemma addLiteralWord_runs w :
  Fit a junk ->
  runs_to (addLiteralWord w) a junk adj tt (abs_addLiteralWord w a).
Proof.
  intros Hfit. pose proof (Fit_eq Hfit) as Hfit'. eexists. split.
  - unfold conc. rewrite addLiteralWord_sst by side. reflexivity.
  - pose proof (grown_length (length (encode (a_init a)) + 1
                               + length (lits (a_last a))) junk Hfit') as Hg.
    unfold total_len. rewrite !size_w_eq in *.
    cbn [abs_addLiteralWord with_last a_init a_last lits].
    rewrite length_app. cbn [length]. unfold total_len in Hfit. lia.
Qed.

Lemma conc_newMarker v n junk' :
  sst (encode (a_init a) ++ mk (rbit (a_last a)) (rlen (a_last a))
                               (Z.of_nat (length (lits (a_last a))))
         :: lits (a_last a)) v n [] junk' (a_sib a) adj
  = conc (abs_newMarker v n a) junk' adj.
Proof.
  unfold conc, abs_newMarker. cbn [a_init a_last a_sib rbit rlen lits].
  rewrite encode_snoc. reflexivity.
Qed.

Lemma total_len_newMarker v n :
  Fit a junk ->
  total_len (abs_newMarker v n a)
            (grown (length (encode (a_init a)) + 1
                    + length (lits (a_last a))) junk)
  <= Z.max (total_len a junk) (2 * size_w (abs_newMarker v n a)).
Proof.
  intros Hfit. pose proof (Fit_eq Hfit) as Hfit'.
  pose proof (grown_length (length (encode (a_init a)) + 1
                            + length (lits (a_last a))) junk Hfit') as Hg.
  unfold total_len in *. rewrite !size_w_eq in *.
  cbn [abs_newMarker a_init a_last lits length].
  rewrite encode_snoc, length_app. cbn [enc length]. lia.
Qed.

Lemma addEmptyWord_runs v :
  Fit a junk ->
  runs_to (addEmptyWord v) a junk adj tt (abs_addEmptyWord v a).
Proof.
  intros Hfit. pose proof (Fit_eq Hfit) as Hfit'.
  unfold runs_to, addEmptyWord, abs_addEmptyWord, conc.
  step sst_getNumberOfLiteralWords. step sst_getRunningLength.
  fold (nlit (a_last a)).
  destruct ((nlit (a_last a) =? 0) && (rlen (a_last a) =? 0)) eqn:Hempty.
  - step sst_setRunningBit. step sst_getRunningBit.
    apply andb_prop in Hempty as [Hnl0 Hrl0]. rewrite Hnl0.
    rewrite Bool.eqb_reflx. cbn [andb].
    apply Z.eqb_eq in Hrl0. rewrite Hrl0.
    change (0 <? LargestRunningLengthCount) with true. cbv iota.
    eexists. split.
    + rewrite sst_setRunningLength by side. reflexivity.
    + unfold total_len. rewrite !size_w_eq. cbn. lia.
  - step_ret. step sst_getRunningBit.
    destruct ((nlit (a_last a) =? 0) && Bool.eqb (rbit (a_last a)) v
              && (rlen (a_last a) <? LargestRunningLengthCount)) eqn:Hsame.
    + eexists. split.
      * rewrite sst_setRunningLength by side. reflexivity.
      * unfold total_len. rewrite !size_w_eq. cbn. lia.
    + eexists. split.
      * rewrite sst_newMarker by side.
        step sst_setRunningBit. rewrite sst_setRunningLength by side.
        rewrite conc_newMarker. reflexivity.
      * apply total_len_newMarker. assumption.
Qed.

Lemma stream_tail_ok v n :
  0 <= n -> rlen (a_last a) + n < 2 ^ 31 - 1 ->
  stream_tail v n (conc a junk adj)
  = Ok (tt, conc (with_last (mkSeg (rbit (a_last a)) (rlen (a_last a) + n)
                               (lits (a_last a))) a) junk adj).
Proof.
  intros Hn Hsum. unfold stream_tail, conc.
  step sst_getRunningLength.
  rewrite Z.min_l by (unfold LargestLiteralCount; lia).
  step sst_setRunningLength.
  replace (n - n) with 0 by lia.
  change (i64 0) with 0. change (0 / LargestRunningLengthCount) with 0.
  cbn [Z.to_nat iter].
  change (0 >=? LargestRunningLengthCount) with false. cbv iota.
  step_ret. change (0 >? 0) with false. reflexivity.
Qed.

End Refine.

Lemma wf_seg_new v n : 0 <= n < 2 ^ 31 - 1 -> wf_seg (mkSeg v n []).
Proof. intros Hn. repeat split; cbn; try lia. constructor. Qed.

Lemma wf_seg_run s v n :
  wf_seg s -> 0 <= n < 2 ^ 31 - 1 -> wf_seg (mkSeg v n (lits s)).
Proof. intros (Hr & Hl & Hw) Hn. repeat split; cbn; try lia; assumption. Qed.

Lemma stream_runs a junk adj v n :
  wf_seg (a_last a) -> Fit a junk ->
  0 <= n -> rlen (a_last a) + n < 2 ^ 31 - 1 ->
  runs_to (fastAddStreamOfEmptyWords v n) a junk adj tt (abs_stream v n a).
Proof.
  intros Hwf Hfit Hn Hsum.
  assert (Hrl : 0 <= rlen (a_last a) < 2 ^ 31 - 1) by (destruct Hwf; lia).
  assert (Hnl : Z.of_nat (length (lits (a_last a))) < 2 ^ 31 - 1)
    by (destruct Hwf as (_ & ? & _); assumption).
  assert (Hfit' : Z.of_nat (length (encode (a_init a)) + 1
                    + length (lits (a_last a)) + length junk) < 2 ^ 29 - 1).
  { unfold Fit, total_len in Hfit. rewrite size_w_eq in Hfit. lia. }
  unfold runs_to, fastAddStreamOfEmptyWords, streamOfEmptyWords_body.
  unfold abs_stream, abs_stream_head, conc.
  step sst_getRunningBit. step sst_size. fold (nlit (a_last a)).
  destruct (negb (Bool.eqb (rbit (a_last a)) v)
            && (rlen (a_last a) + nlit (a_last a) =? 0)) eqn:Hempty.
  - step sst_setRunningBit.
    eexists. split.
    + apply (stream_tail_ok (with_last (mkSeg v (rlen (a_last a))
                                          (lits (a_last a))) a) junk adj);
        cbn [a_last with_last rlen]; try lia.
      apply wf_seg_run; [assumption|lia].
    + unfold total_len. rewrite !size_w_eq. cbn. lia.
  - destruct (negb (nlit (a_last a) =? 0)
              || negb (Bool.eqb (rbit (a_last a)) v)) eqn:Hnew.
    + erewrite bind_ok; cycle 1.
      { step sst_getNumberOfLiteralWords. step sst_getRunningBit.
        fold (nlit (a_last a)). rewrite Hnew.
        rewrite sst_newMarker by side.
        instantiate (1 := conc (abs_newMarker v 0 a)
                            (grown (length (encode (a_init a)) + 1
                                    + length (lits (a_last a))) junk) adj).
        instantiate (1 := tt).
        destruct v.
        - rewrite sst_setRunningBit by side.
          rewrite conc_newMarker. reflexivity.
        - unfold ret. rewrite conc_newMarker. reflexivity. }
      cbv beta. eexists. split.
      * apply (stream_tail_ok (abs_newMarker v 0 a)); cbn; try lia.
        apply wf_seg_new. lia.
      * pose proof (total_len_newMarker a junk v 0 Hfit) as Hb.
        unfold total_len in *. rewrite !size_w_eq in *.
        cbn [with_last a_init a_last lits abs_newMarker] in *. lia.
    + erewrite bind_ok; cycle 1.
      { step sst_getNumberOfLiteralWords. step sst_getRunningBit.
        fold (nlit (a_last a)). rewrite Hnew. reflexivity. }
      cbv beta. eexists. split.
      * apply (stream_tail_ok a junk adj); assumption.
      * unfold total_len. rewrite !size_w_eq. cbn. lia.
Qed.

(** ** [Set] on segments *)

Lemma set_sib_conc a junk adj n :
  set_sizeInBits n (conc a junk adj) = conc (with_sib n a) junk adj.
Proof. reflexivity. Qed.

Lemma nlit_0 s : (nlit s =? 0) = true -> lits s = [].
Proof.
  unfold nlit. intros H. apply Z.eqb_eq in H.
  destruct (lits s); [reflexivity|cbn in H; lia].
Qed.

Lemma stream_last v n a :
  wf_seg (a_last a) -> 0 <= n -> rlen (a_last a) + n < 2 ^ 31 - 1 ->
  wf_seg (a_last (abs_stream v n a))
  /\ lits (a_last (abs_stream v n a)) = []
  /\ size_w a <= size_w (abs_stream v n a) <= size_w a + 1
  /\ a_sib (abs_stream v n a) = a_sib a.
Proof.
  intros (Hr & Hl & Hw) Hn Hsum. unfold abs_stream, abs_stream_head.
  destruct (negb (Bool.eqb (rbit (a_last a)) v)
            && (rlen (a_last a) + nlit (a_last a) =? 0)) eqn:Hempty.
  - apply andb_prop in Hempty as [_ He]. apply Z.eqb_eq in He.
    assert (Hnil : lits (a_last a) = []).
    { apply nlit_0. apply Z.eqb_eq. unfold nlit in *. lia. }
    cbn. rewrite Hnil. rewrite !size_w_eq. cbn. rewrite Hnil. cbn.
    repeat split; cbn; try lia. constructor.
  - destruct (negb (nlit (a_last a) =? 0)
              || negb (Bool.eqb (rbit (a_last a)) v)) eqn:Hnew.
    + cbn. rewrite !size_w_eq. cbn. rewrite encode_snoc, length_app. cbn.
      repeat split; cbn; try lia. constructor.
    + apply orb_false_elim in Hnew as [Hnl _].
      apply negb_false_iff, nlit_0 in Hnl.
      cbn. rewrite Hnl. rewrite !size_w_eq. cbn. rewrite Hnl. cbn.
      repeat split; cbn; try lia. constructor.
Qed.

Lemma Set_runs a junk adj i :
  wf_seg (a_last a) ->
  total_len a junk <= 2 ^ 28 - 8 ->
  0 <= a_sib a <= i -> i <= MaxInt32 - 64 ->
  rlen (a_last a) + Z.quot (i + 64) 64 < 2 ^ 31 - 1 ->
  (Z.rem (a_sib a) 64 <> 0 -> lits (a_last a) <> []) ->
  exists junk',
    Set_ i (conc a junk adj) = Ok (true, conc (abs_Set i a) junk' adj)
    /\ total_len (abs_Set i a) junk'
       <= Z.max (total_len a junk) (2 * (size_w a + 2)).
Proof.
  intros Hwf Hlen Hsib Hi Hrun Htail.
  assert (HM : MaxInt32 = 2147483647) by reflexivity.
  unfold Set_, abs_Set, wordInBits.
  destruct (Z.gtb_spec i (MaxInt32 - 64)); [lia|].
  destruct (Z.ltb_spec i 0); [lia|]. cbn [orb].
  erewrite bind_ok by reflexivity. cbv beta.
  change (sizeInBits (conc a junk adj)) with (a_sib a).
  destruct (Z.ltb_spec i (a_sib a)); [lia|].
  erewrite bind_ok by reflexivity. cbv beta. rewrite set_sib_conc.
  set (dist := Z.quot (i + 64) 64 - Z.quot (a_sib a + 64 - 1) 64).
  set (a0 := with_sib (i + 1) a).
  set (bit := shl64 1 (Z.rem i 64)).
  assert (Hdist : 0 <= dist <= Z.quot (i + 64) 64) by (unfold dist; zlia).
  assert (Hfit0 : Fit a0 junk)
    by (unfold Fit; change (total_len a0 junk) with (total_len a junk); lia).
  destruct (Z.gtb_spec dist 0) as [Hpos|Hzero].
  - (* a new literal word, after a run of zero words if need be *)
    destruct (Z.gtb_spec dist 1) as [Hfar|Hnear].
    + destruct (stream_runs a0 junk adj false (dist - 1)) as (junk1 & Hs & Hl1);
        [assumption|assumption|lia|cbn; lia|].
      erewrite bind_ok by exact Hs. cbv beta.
      set (a1 := abs_stream false (dist - 1) a0) in *.
      destruct (stream_last false (dist - 1) a0) as (Hwf1 & Hnil1 & Hsz1 & _);
        [assumption|lia|cbn; lia|]. fold a1 in Hwf1, Hnil1, Hsz1.
      change (size_w a0) with (size_w a) in Hsz1.
      change (total_len a0 junk) with (total_len a junk) in Hl1.
      destruct (addLiteralWord_runs a1 junk1 adj Hwf1 bit) as (junk2 & Ha & Hl2);
        [unfold Fit, total_len in *; lia|].
      exists junk2. split.
      * erewrite bind_ok by exact Ha. reflexivity.
      * assert (size_w (abs_addLiteralWord bit a1) = size_w a1 + 1).
        { rewrite !size_w_eq. cbn. rewrite length_app. cbn. lia. }
        unfold total_len in *. lia.
    + assert (dist = 1) by lia.
      erewrite bind_ok by reflexivity. cbv beta.
      destruct (addLiteralWord_runs a0 junk adj Hwf bit) as (junk2 & Ha & Hl2);
        [assumption|].
      exists junk2. split.
      * erewrite bind_ok by exact Ha. reflexivity.
      * assert (size_w (abs_addLiteralWord bit a0) = size_w a + 1).
        { rewrite !size_w_eq. cbn. rewrite length_app. cbn. lia. }
        change (total_len a0 junk) with (total_len a junk) in Hl2.
        unfold total_len in *. lia.
  - (* the bit goes into the last literal word *)
    assert (Hd0 : dist = 0) by lia.
    assert (Hrem : Z.rem (a_sib a) 64 <> 0) by (unfold dist in Hd0; zlia).
    specialize (Htail Hrem).
    destruct (exists_last Htail) as (lits0 & w & Hlits).
    destruct Hwf as (Hrl & Hnl & Hws). unfold nlit in Hnl.
    assert (Hlen0 : length (lits (a_last a)) = S (length lits0))
      by (rewrite Hlits, length_app; cbn; lia).
    unfold conc at 1.
    change (a_last a0) with (a_last a). change (a_init a0) with (a_init a).
    change (a_sib a0) with (i + 1).
    step sst_getNumberOfLiteralWords.
    destruct (Z.eqb_spec (Z.of_nat (length (lits (a_last a)))) 0); [lia|].
    erewrite bind_ok by reflexivity. cbv beta.
    unfold sst. rewrite asw_seg.
    replace (Z.of_nat (length (encode (a_init a)) + 1
                       + length (lits (a_last a))) - 1)
      with (Z.of_nat (length (encode (a_init a)) + 1 + length lits0)) by lia.
    set (q := Z.of_nat (length (encode (a_init a)) + 1 + length lits0)).
    set (m := mk (rbit (a_last a)) (rlen (a_last a))
                 (Z.of_nat (length (lits (a_last a))))).
    rewrite Hlits.
    erewrite bind_ok by apply rd_last. cbv beta.
    erewrite bind_ok by apply wr_last. cbv beta.
    erewrite bind_ok by apply rd_last. cbv beta.
    rewrite last_last, removelast_last.
    set (w' := Z.lor w bit).
    destruct (Z.eqb_spec w' allOnes) as [Hfull|Hpart].
    + (* the word is full: it becomes a running word of ones *)
      set (a1 := with_last (mkSeg (rbit (a_last a)) (rlen (a_last a)) lits0) a0).
      assert (Hwf1 : wf_seg (a_last a1)).
      { unfold wf_seg, nlit. cbn. repeat split; try lia.
        rewrite Hlits in Hws. apply Forall_app in Hws. tauto. }
      assert (Hst : forall (K : M unit),
                 (wr q 0 ;;;
                  modify (set_actualSizeInWords q) ;;;
                  nl <- this_rlw RLW.getNumberOfLiteralWords ;;
                  this_rlw (fun p => RLW.setNumberOfLiteralWords p (nl - 1)) ;;;
                  K)
                   (seg_st (encode (a_init a)) m (lits0 ++ [w']) junk
                           (i + 1) adj)
                 = K (conc a1 (0 :: junk) adj)).
      { intros K. erewrite bind_ok by apply wr_last. cbv beta.
        unfold modify at 1. unfold bind at 1. unfold q. rewrite drop_last.
        step getNumberOfLiteralWords_seg.
        erewrite bind_ok by apply setNumberOfLiteralWords_seg. cbv beta.
        unfold m.
        rewrite numberOfLiteralWords_mk by lia.
        rewrite withNumberOfLiteralWords_mk by lia.
        rewrite Hlen0.
        replace (Z.of_nat (S (length lits0)) - 1) with (Z.of_nat (length lits0))
          by lia.
        reflexivity. }
      destruct (addEmptyWord_runs a1 (0 :: junk) adj Hwf1 true)
        as (junk2 & He & Hl2).
      { unfold Fit, total_len in *. rewrite !size_w_eq in *. cbn in *.
        rewrite Hlen0 in *. lia. }
      exists junk2. split.
      * erewrite bind_ok; [reflexivity|]. rewrite Hst. exact He.
      * assert (Hsz : size_w (abs_addEmptyWord true a1) <= size_w a1 + 1).
        { unfold abs_addEmptyWord.
          destruct (_ && _ && _); rewrite !size_w_eq; cbn;
            rewrite ?encode_snoc, ?length_app; cbn; lia. }
        unfold total_len in *. rewrite !size_w_eq in *. cbn in *.
        rewrite Hlen0 in *. lia.
    + (* the word stays a literal *)
      exists junk. split.
      * erewrite bind_ok by reflexivity. cbv beta.
        unfold ret, conc, sst. cbn [a_init a_last a_sib with_last rbit rlen lits].
        unfold m. rewrite Hlen0, length_app. cbn [length].
        replace (length lits0 + 1)%nat with (S (length lits0)) by lia.
        reflexivity.
      * unfold total_len. rewrite !size_w_eq. cbn.
        rewrite Hlen0, length_app. cbn. lia.
Qed.

(** ** [Get] on segments *)

Lemma rd_mid pre x post junk sib p adj :
  rd (Z.of_nat (length pre)) (st (pre ++ x :: post) junk sib p adj)
  = Ok (x, st (pre ++ x :: post) junk sib p adj).
Proof.
  apply rd_st; [lia|]. rewrite Nat2Z.id. apply list_lookup_middle. reflexivity.
Qed.

Lemma rd_lit pre m ls post junk sib p adj k w :
  ls !! k = Some w ->
  rd (Z.of_nat (length pre) + Z.of_nat k + 1)
     (st (pre ++ m :: ls ++ post) junk sib p adj)
  = Ok (w, st (pre ++ m :: ls ++ post) junk sib p adj).
Proof.
  intros Hk. apply rd_st; [lia|].
  replace (Z.to_nat (Z.of_nat (length pre) + Z.of_nat k + 1))
    with (length pre + S k)%nat by lia.
  rewrite lookup_app_r by lia.
  replace (length pre + S k - length pre)%nat with (S k) by lia.
  change ((m :: ls ++ post) !! S k) with ((ls ++ post) !! k).
  rewrite lookup_app_l by (eapply lookup_lt_Some; eauto). assumption.
Qed.

Lemma testbit_land_shl w b :
  0 <= b < 64 -> negb (Z.land w (shl64 1 b) =? 0) = Z.testbit w b.
Proof.
  intros Hb. unfold shl64.
  destruct (Z.leb_spec 0 b); [|lia]. destruct (Z.ltb_spec b 64); [|lia].
  cbn [andb]. unfold u64. rewrite Z.shiftl_1_l.
  rewrite Z.mod_small by (split; [lia|apply Z.pow_lt_mono_r; lia]).
  destruct (Z.testbit w b) eqn:Hw.
  - destruct (Z.eqb_spec (Z.land w (2 ^ b)) 0) as [Hz|]; [|reflexivity].
    assert (Ht : Z.testbit (Z.land w (2 ^ b)) b = true)
      by (rewrite Z.land_spec, Hw, Z.pow2_bits_true by lia; reflexivity).
    rewrite Hz, Z.testbit_0_l in Ht. discriminate.
  - destruct (Z.eqb_spec (Z.land w (2 ^ b)) 0) as [|Hn0]; [reflexivity|].
    exfalso. apply Hn0. apply Z.bits_inj'. intros n Hn.
    rewrite Z.land_spec, Z.testbit_0_l.
    destruct (Z.eq_dec n b) as [->|Hne].
    + rewrite Hw. reflexivity.
    + rewrite Z.pow2_bits_false by lia. apply andb_false_r.
Qed.

Section GetLoop.

Variables (junk : list Z) (sib p : Z) (adj : bool) (wordi biti : Z).

Hypothesis Hbiti : 0 <= biti < 64.

Let step : Z * Z -> M (Z * Z + bool) :=
  fun '(wordChecked, marker) =>
    if wordChecked <=? wordi then
      numOfLiteralWords <- RLW.getNumberOfLiteralWords marker ;;
      rl <- RLW.getRunningLength marker ;;
      let wordChecked := wordChecked + rl in
      if wordi <? wordChecked then
        rb <- RLW.getRunningBit marker ;; ret (inr rb)
      else if wordi <? wordChecked + numOfLiteralWords then
        w <- rd (marker + (wordi - wordChecked) + 1) ;;
        ret (inr (negb (Z.land w (shl64 1 biti) =? 0)))
      else
        ret (inl (wordChecked + numOfLiteralWords,
                  marker + numOfLiteralWords + 1))
    else ret (inr false).

Lemma Get_loop (post : list seg) :
  forall (pre : list seg) (fuel : nat) (w : Z),
    Forall wf_mark post ->
    (length post <= fuel)%nat ->
    total pre <= wordi ->
    word_at post (wordi - total pre) = Some w ->
    iter fuel step (total pre, Z.of_nat (length (encode pre)))
         (st (encode pre ++ encode post) junk sib p adj)
    = Ok (Z.testbit w biti, st (encode pre ++ encode post) junk sib p adj).
Proof.
  induction post as [|s post IH]; intros pre fuel w Hwf Hfuel Hle Hw.
  - discriminate.
  - destruct fuel as [|fuel]; [cbn in Hfuel; lia|].
    apply Forall_cons in Hwf as [[Hrl Hnl] Hwf].
    cbn [iter encode].
    set (e := st _ _ _ _ _).
    set (marker := Z.of_nat (length (encode pre))).
    assert (Hm : rd marker e = Ok (mk (rbit s) (rlen s) (nlit s), e)).
    { unfold e, enc. cbn [app]. apply rd_mid. }
    assert (Hnl0 : 0 <= nlit s) by (unfold nlit; lia).
    assert (HNL : RLW.getNumberOfLiteralWords marker e = Ok (nlit s, e)).
    { unfold RLW.getNumberOfLiteralWords. erewrite bind_ok by exact Hm.
      rewrite numberOfLiteralWords_mk by lia. reflexivity. }
    assert (HRL : RLW.getRunningLength marker e = Ok (rlen s, e)).
    { unfold RLW.getRunningLength. erewrite bind_ok by exact Hm.
      rewrite runningLength_mk by lia. reflexivity. }
    assert (HRB : RLW.getRunningBit marker e = Ok (rbit s, e)).
    { unfold RLW.getRunningBit. erewrite bind_ok by exact Hm.
      rewrite runningBit_mk. reflexivity. }
    cbn [word_at] in Hw.
    destruct (Z.ltb_spec (wordi - total pre) (rlen s)) as [Hrun|Hnorun].
    + (* the word is in the run *)
      injection Hw as <-.
      erewrite bind_ok; cycle 1.
      { unfold step. destruct (Z.leb_spec (total pre) wordi); [|lia].
        erewrite bind_ok by exact HNL. cbv beta.
        erewrite bind_ok by exact HRL. cbv beta zeta.
        destruct (Z.ltb_spec wordi (total pre + rlen s)); [|lia].
        erewrite bind_ok by exact HRB. reflexivity. }
      cbv beta iota. unfold ret, run_word. f_equal. f_equal.
      destruct (rbit s).
      * change allOnes with (Z.ones 64). rewrite ones_bit by lia.
        destruct (Z.leb_spec 0 biti), (Z.ltb_spec biti 64); try lia;
          reflexivity.
      * rewrite Z.testbit_0_l. reflexivity.
    + destruct (Z.ltb_spec (wordi - total pre) (rlen s + nlit s)) as [Hlit|Hnext].
      * (* the word is a literal *)
        assert (Hrd : rd (marker + (wordi - (total pre + rlen s)) + 1) e
                      = Ok (w, e)).
        { unfold e, enc, marker. cbn [app].
          replace (wordi - (total pre + rlen s))
            with (Z.of_nat (Z.to_nat (wordi - total pre - rlen s))) by lia.
          apply rd_lit. assumption. }
        erewrite bind_ok; cycle 1.
        { unfold step. destruct (Z.leb_spec (total pre) wordi); [|lia].
          erewrite bind_ok by exact HNL. cbv beta.
          erewrite bind_ok by exact HRL. cbv beta zeta.
          destruct (Z.ltb_spec wordi (total pre + rlen s)); [lia|].
          destruct (Z.ltb_spec wordi (total pre + rlen s + nlit s)); [|lia].
          erewrite bind_ok by exact Hrd. reflexivity. }
        cbv beta iota. rewrite testbit_land_shl by assumption. reflexivity.
      * (* the word is in a later segment *)
        erewrite bind_ok; cycle 1.
        { unfold step. destruct (Z.leb_spec (total pre) wordi); [|lia].
          erewrite bind_ok by exact HNL. cbv beta.
          erewrite bind_ok by exact HRL. cbv beta zeta.
          destruct (Z.ltb_spec wordi (total pre + rlen s)); [lia|].
          destruct (Z.ltb_spec wordi (total pre + rlen s + nlit s)); [lia|].
          reflexivity. }
        cbv beta iota.
        specialize (IH (pre ++ [s]) fuel w Hwf).
        assert (Htot : total (pre ++ [s]) = total pre + rlen s + nlit s).
        { clear. induction pre as [|x pre IHp]; cbn [app total].
          - unfold seg_words. lia.
          - rewrite IHp. lia. }
        rewrite Htot, encode_snoc, <- app_assoc in IH.
        fold e in IH.
        replace (Z.of_nat (length (encode pre ++ enc s)))
          with (marker + nlit s + 1) in IH
          by (unfold marker; rewrite length_app; unfold enc, nlit;
              cbn [length]; lia).
        apply IH.
        -- cbn [length] in Hfuel. lia.
        -- lia.
        -- rewrite <- Hw. f_equal. lia.
Qed.

End GetLoop.

Lemma encode_length_ge ss : (length ss <= length (encode ss))%nat.
Proof.
  induction ss as [|s ss IH]; [cbn; lia|].
  cbn [encode length]. rewrite length_app. unfold enc. cbn [length]. lia.
Qed.

Lemma Get_ok ss junk sib p adj j w :
  Forall wf_mark ss -> 0 <= j <= sib ->
  word_at ss (j / 64) = Some w ->
  Get j (st (encode ss) junk sib p adj)
  = Ok (Z.testbit w (j mod 64), st (encode ss) junk sib p adj).
Proof.
  intros Hwf Hj Hw. unfold Get, wordInBits.
  erewrite bind_ok by reflexivity. cbv beta.
  change (sizeInBits (st (encode ss) junk sib p adj)) with sib.
  destruct (Z.ltb_spec j 0); [lia|]. destruct (Z.gtb_spec j sib); [lia|].
  cbn [orb]. erewrite bind_ok by reflexivity. cbv beta.
  rewrite Z.quot_div_nonneg, Z.rem_mod_nonneg by lia.
  pose proof (Get_loop junk sib p adj (j / 64) (j mod 64) ltac:(zlia)
                ss [] (S (length (buffer (st (encode ss) junk sib p adj)))) w
                Hwf) as HL.
  cbn [total encode app length] in HL. apply HL.
  - cbn [buffer st]. rewrite length_app. pose proof (encode_length_ge ss). lia.
  - zlia.
  - rewrite Z.sub_0_r. assumption.
Qed.

(** ** [Cardinality] on segments *)

Lemma popcount_upto_bounds n w : 0 <= popcount_upto n w <= Z.of_nat n.
Proof.
  induction n as [|n IH]; [cbn; lia|].
  cbn [popcount_upto]. destruct (Z.testbit w (Z.of_nat n)); cbn [Z.b2z]; lia.
Qed.

Lemma popcount_bounds w : 0 <= popcount_3 w <= 64.
Proof. apply (popcount_upto_bounds 64 w). Qed.

Lemma sum_popcount_bounds ls :
  0 <= sum_popcount ls <= 64 * Z.of_nat (length ls).
Proof.
  induction ls as [|w ls IH]; [cbn; lia|].
  cbn [sum_popcount fold_right length]. fold (sum_popcount ls).
  pose proof (popcount_bounds w). lia.
Qed.

Section CardLoop.

Variables (junk : list Z) (sib p : Z) (adj : bool).

Let inner (marker numOfLiteralWords : Z) : Z * Z -> M (Z * Z + Z) :=
  fun '(counter, j) =>
    if j <=? numOfLiteralWords then
      w <- rd (marker + j) ;;
      ret (inl (i64 (counter + popcount_3 w), j + 1))
    else ret (inr counter).

Lemma card_inner pre m post (todo : list Z) :
  forall (done : list Z) (fuel : nat) (c : Z),
    (length todo < fuel)%nat ->
    0 <= c -> c + 64 * Z.of_nat (length todo) < 2 ^ 62 ->
    iter fuel (inner (Z.of_nat (length pre))
                     (Z.of_nat (length (done ++ todo))))
         (c, Z.of_nat (length done) + 1)
         (st (pre ++ m :: (done ++ todo) ++ post) junk sib p adj)
    = Ok (c + sum_popcount todo,
          st (pre ++ m :: (done ++ todo) ++ post) junk sib p adj).
Proof.
  induction todo as [|w todo IH]; intros done fuel c Hfuel Hc Hb.
  - destruct fuel as [|fuel]; [cbn in Hfuel; lia|].
    cbn [iter]. unfold inner at 1. rewrite app_nil_r.
    destruct (Z.leb_spec (Z.of_nat (length done) + 1) (Z.of_nat (length done)));
      [lia|].
    erewrite bind_ok by reflexivity. cbv beta iota.
    cbn [sum_popcount fold_right]. rewrite Z.add_0_r. reflexivity.
  - destruct fuel as [|fuel]; [cbn in Hfuel; lia|].
    cbn [iter]. unfold inner at 1.
    destruct (Z.leb_spec (Z.of_nat (length done) + 1)
                (Z.of_nat (length (done ++ w :: todo))));
      [|rewrite length_app in *; cbn [length] in *; lia].
    pose proof (popcount_bounds w) as Hp.
    cbn [length] in Hb, Hfuel.
    erewrite bind_ok; cycle 1.
    { erewrite bind_ok; [reflexivity|].
      replace (Z.of_nat (length pre) + (Z.of_nat (length done) + 1))
        with (Z.of_nat (length pre) + Z.of_nat (length done) + 1) by lia.
      apply (rd_lit pre m (done ++ w :: todo) post).
      apply list_lookup_middle. reflexivity. }
    cbv beta iota. rewrite i64_small by lia.
    specialize (IH (done ++ [w]) fuel (c + popcount_3 w)).
    rewrite <- !app_assoc in IH. cbn [app] in IH.
    replace (Z.of_nat (length (done ++ [w])) + 1)
      with (Z.of_nat (length done) + 1 + 1) in IH
      by (rewrite length_app; cbn [length]; lia).
    rewrite <- !app_assoc in *. cbn [app] in *.
    rewrite IH by lia.
    cbn [sum_popcount fold_right]. fold (sum_popcount todo).
    f_equal. f_equal. lia.
Qed.

End CardLoop.

Lemma total_nonneg ss : Forall wf_mark ss -> 0 <= total ss.
Proof.
  induction 1 as [|s ss [Hrl Hnl] _ IH]; cbn [total]; [lia|].
  unfold seg_words, nlit. lia.
Qed.

Section CardOuter.

Variables (junk : list Z) (sib p : Z) (adj : bool) (ifuel : nat).

Let step : Z * Z -> M (Z * Z + Z) :=
  fun '(counter, marker) =>
    asw <- gets actualSizeInWords ;;
    if marker <? asw then
      rb <- RLW.getRunningBit marker ;;
      rl <- RLW.getRunningLength marker ;;
      let counter :=
        if rb then i64 (counter + i64 (wordInBits * rl)) else counter in
      numOfLiteralWords <- RLW.getNumberOfLiteralWords marker ;;
      counter <-
        iter (S ifuel)
          (fun '(counter, j) =>
             if j <=? numOfLiteralWords then
               w <- rd (marker + j) ;;
               ret (inl (i64 (counter + popcount_3 w), j + 1))
             else ret (inr counter))
          (counter, 1) ;;
      ret (inl (counter, marker + numOfLiteralWords + 1))
    else ret (inr counter).

Lemma card_outer (post : list seg) :
  forall (pre : list seg) (fuel : nat) (c : Z),
    Forall wf_mark post ->
    (length post < fuel)%nat ->
    (length (encode pre ++ encode post) <= ifuel)%nat ->
    0 <= c -> c + 64 * total post < 2 ^ 62 ->
    iter fuel step (c, Z.of_nat (length (encode pre)))
         (st (encode pre ++ encode post) junk sib p adj)
    = Ok (c + card post, st (encode pre ++ encode post) junk sib p adj).
Proof.
  induction post as [|s post IH]; intros pre fuel c Hwf Hfuel Hifuel Hc Hb.
  - destruct fuel as [|fuel]; [cbn in Hfuel; lia|].
    cbn [iter encode]. rewrite app_nil_r. erewrite bind_ok; cycle 1.
    { unfold step. erewrite bind_ok by reflexivity. cbv beta.
      cbn [actualSizeInWords st].
      rewrite Z.ltb_irrefl. reflexivity. }
    cbv beta iota. cbn [card]. rewrite Z.add_0_r. reflexivity.
  - destruct fuel as [|fuel]; [cbn in Hfuel; lia|].
    pose proof Hwf as Hwf'.
    apply Forall_cons in Hwf as [[Hrl Hnl] Hwf].
    pose proof (total_nonneg post Hwf) as Htp.
    cbn [iter encode total length] in *.
    set (e := st _ _ _ _ _).
    set (marker := Z.of_nat (length (encode pre))).
    assert (Hm : rd marker e = Ok (mk (rbit s) (rlen s) (nlit s), e)).
    { unfold e, enc. cbn [app]. apply rd_mid. }
    assert (Hnl0 : 0 <= nlit s) by (unfold nlit; lia).
    assert (HNL : RLW.getNumberOfLiteralWords marker e = Ok (nlit s, e)).
    { unfold RLW.getNumberOfLiteralWords. erewrite bind_ok by exact Hm.
      rewrite numberOfLiteralWords_mk by lia. reflexivity. }
    assert (HRL : RLW.getRunningLength marker e = Ok (rlen s, e)).
    { unfold RLW.getRunningLength. erewrite bind_ok by exact Hm.
      rewrite runningLength_mk by lia. reflexivity. }
    assert (HRB : RLW.getRunningBit marker e = Ok (rbit s, e)).
    { unfold RLW.getRunningBit. erewrite bind_ok by exact Hm.
      rewrite runningBit_mk. reflexivity. }
    unfold seg_words in Hb.
    pose proof (sum_popcount_bounds (lits s)) as Hsp. fold (nlit s) in Hsp.
    set (c1 := if rbit s then c + 64 * rlen s else c).
    assert (Hc1 : 0 <= c1 <= c + 64 * rlen s) by (unfold c1; destruct (rbit s); lia).
    erewrite bind_ok; cycle 1.
    { unfold step. erewrite bind_ok by reflexivity. cbv beta.
      replace (marker <? actualSizeInWords e) with true; cycle 1.
      { symmetry. apply Z.ltb_lt. unfold e, marker, enc.
        cbn [actualSizeInWords st]. rewrite !length_app. cbn [length]. lia. }
      erewrite bind_ok by exact HRB. cbv beta.
      erewrite bind_ok by exact HRL. cbv beta zeta.
      erewrite bind_ok by exact HNL. cbv beta.
      replace (if rbit s then i64 (c + i64 (wordInBits * rlen s)) else c)
        with c1
        by (unfold c1, wordInBits; destruct (rbit s);
            rewrite ?i64_small; rewrite ?i64_small; lia).
      erewrite bind_ok; [reflexivity|].
      pose proof (card_inner junk sib p adj (encode pre)
                    (mk (rbit s) (rlen s) (nlit s)) (encode post)
                    (lits s) [] (S ifuel) c1) as Hin.
      cbn [app length] in Hin. unfold e, enc, marker. cbn [app].
      unfold nlit at 2 3. apply Hin.
      - rewrite !length_app in Hifuel. unfold enc in Hifuel.
        cbn [length] in Hifuel. lia.
      - lia.
      - unfold nlit in *. lia. }
    cbv beta iota.
    specialize (IH (pre ++ [s]) fuel (c1 + sum_popcount (lits s)) Hwf).
    rewrite encode_snoc, <- app_assoc in IH. fold e in IH.
    replace (Z.of_nat (length (encode pre ++ enc s)))
      with (marker + nlit s + 1) in IH
      by (unfold marker; rewrite length_app; unfold enc, nlit;
          cbn [length]; lia).
    match goal with |- iter _ _ _ ?x = _ => change x with e end.
    rewrite IH; [|lia|assumption|lia|lia].
    f_equal. f_equal. cbn [card]. unfold card_seg, c1. destruct (rbit s); lia.
Qed.

End CardOuter.

Lemma Cardinality_ok ss junk sib p adj :
  Forall wf_mark ss -> 64 * total ss < 2 ^ 62 ->
  Cardinality (st (encode ss) junk sib p adj)
  = Ok (card ss, st (encode ss) junk sib p adj).
Proof.
  intros Hwf Hb. unfold Cardinality.
  erewrite bind_ok by reflexivity. cbv beta.
  erewrite bind_ok by reflexivity. cbv beta.
  pose proof (card_outer junk sib p adj
                (length (buffer (st (encode ss) junk sib p adj)))
                ss [] (S (Z.to_nat (actualSizeInWords
                                      (st (encode ss) junk sib p adj)))) 0
                Hwf) as HL.
  cbn [encode app length] in HL. rewrite Z.add_0_l in HL. apply HL.
  - cbn [actualSizeInWords st]. pose proof (encode_length_ge ss). lia.
  - cbn [buffer st]. rewrite length_app. lia.
  - lia.
  - lia.
Qed.

(** ** [Not] on segments *)

Lemma wr_mid pre x post junk sib p adj y :
  wr (Z.of_nat (length pre)) y (st (pre ++ x :: post) junk sib p adj)
  = Ok (tt, st (pre ++ y :: post) junk sib p adj).
Proof.
  erewrite wr_st; [|lia|rewrite Nat2Z.id; apply list_lookup_middle; reflexivity].
  rewrite Nat2Z.id.
  replace (length pre) with (length pre + 0)%nat at 1 by lia.
  rewrite insert_app_r. reflexivity.
Qed.

Lemma wr_lit pre m l1 w l2 post junk sib p adj w' :
  wr (Z.of_nat (length pre) + Z.of_nat (length l1) + 1) w'
     (st (pre ++ m :: (l1 ++ w :: l2) ++ post) junk sib p adj)
  = Ok (tt, st (pre ++ m :: (l1 ++ w' :: l2) ++ post) junk sib p adj).
Proof.
  replace (pre ++ m :: (l1 ++ w :: l2) ++ post)
    with ((pre ++ m :: l1) ++ w :: (l2 ++ post))
    by (rewrite <- !app_assoc; reflexivity).
  replace (pre ++ m :: (l1 ++ w' :: l2) ++ post)
    with ((pre ++ m :: l1) ++ w' :: (l2 ++ post))
    by (rewrite <- !app_assoc; reflexivity).
  replace (Z.of_nat (length pre) + Z.of_nat (length l1) + 1)
    with (Z.of_nat (length (pre ++ m :: l1)))
    by (rewrite length_app; cbn [length]; lia).
  apply wr_mid.
Qed.

Section NotLoop.

Variables (junk : list Z) (sib p : Z) (adj : bool).

Let inner (marker numOfLiteralWords : Z) : Z -> M (Z + unit) :=
  fun i =>
    if i <=? numOfLiteralWords then
      w <- rd (marker + i) ;;
      wr (marker + i) (not64 w) ;;;
      ret (inl (i + 1))
    else ret (inr tt).

Lemma not_inner pre m post (todo : list Z) :
  forall (done : list Z) (fuel : nat),
    (length todo < fuel)%nat ->
    iter fuel (inner (Z.of_nat (length pre))
                     (Z.of_nat (length (done ++ todo))))
         (Z.of_nat (length done) + 1)
         (st (pre ++ m :: (done ++ todo) ++ post) junk sib p adj)
    = Ok (tt, st (pre ++ m :: (done ++ map not64 todo) ++ post)
                 junk sib p adj).
Proof.
  induction todo as [|w todo IH]; intros done fuel Hfuel.
  - destruct fuel as [|fuel]; [cbn in Hfuel; lia|].
    cbn [iter]. unfold inner at 1. rewrite app_nil_r.
    destruct (Z.leb_spec (Z.of_nat (length done) + 1) (Z.of_nat (length done)));
      [lia|].
    erewrite bind_ok by reflexivity. cbv beta iota.
    cbn [map]. rewrite app_nil_r. reflexivity.
  - destruct fuel as [|fuel]; [cbn in Hfuel; lia|].
    cbn [iter]. unfold inner at 1.
    destruct (Z.leb_spec (Z.of_nat (length done) + 1)
                (Z.of_nat (length (done ++ w :: todo))));
      [|rewrite length_app in *; cbn [length] in *; lia].
    cbn [length] in Hfuel.
    replace (Z.of_nat (length pre) + (Z.of_nat (length done) + 1))
      with (Z.of_nat (length pre) + Z.of_nat (length done) + 1) by lia.
    erewrite bind_ok; cycle 1.
    { erewrite bind_ok; cycle 1.
      { apply (rd_lit pre m (done ++ w :: todo) post).
        apply list_lookup_middle. reflexivity. }
      cbv beta. erewrite bind_ok by apply wr_lit. reflexivity. }
    cbv beta iota.
    specialize (IH (done ++ [not64 w]) fuel).
    rewrite <- !app_assoc in IH. cbn [app] in IH.
    replace (Z.of_nat (length (done ++ [not64 w])) + 1)
      with (Z.of_nat (length done) + 1 + 1) in IH
      by (rewrite length_app; cbn [length]; lia).
    replace (Z.of_nat (length (done ++ not64 w :: todo)))
      with (Z.of_nat (length (done ++ w :: todo))) in IH
      by (rewrite !length_app; cbn [length]; lia).
    rewrite <- !app_assoc in *. cbn [app map] in *.
    rewrite IH by lia. reflexivity.
Qed.

End NotLoop.

Lemma shr64_allOnes lb :
  0 < lb < 64 -> shr64 allOnes (64 - lb) = Z.ones lb.
Proof.
  intros Hlb. unfold shr64.
  destruct (Z.leb_spec 0 (64 - lb)); [|lia].
  destruct (Z.ltb_spec (64 - lb) 64); [|lia]. cbn [andb].
  change allOnes with (Z.ones 64). apply Z.bits_inj'. intros n Hn.
  rewrite shiftr_bit, !ones_bit by lia.
  destruct (Z.leb_spec 0 n), (Z.leb_spec 0 (n + (64 - lb))),
    (Z.ltb_spec (n + (64 - lb)) 64), (Z.ltb_spec n lb); try lia; reflexivity.
Qed.

Lemma nlit_flip s : nlit (flip_seg s) = nlit s.
Proof. unfold nlit, flip_seg. cbn [lits]. rewrite length_map. reflexivity. Qed.

Lemma enc_flip s :
  enc (flip_seg s) = mk (negb (rbit s)) (rlen s) (nlit s) :: map not64 (lits s).
Proof. unfold enc. rewrite nlit_flip. reflexivity. Qed.

Section NotOuter.

Variables (junk : list Z) (sib p : Z) (adj : bool) (ifuel : nat).

Hypothesis Hsib : 0 <= sib.

Let lb : Z := sib mod 64.

Let step : Z -> M (Z + unit) :=
  fun marker =>
    asw <- gets actualSizeInWords ;;
    if marker <? asw then
      numOfLiteralWords <- RLW.getNumberOfLiteralWords marker ;;
      rb <- RLW.getRunningBit marker ;;
      RLW.setRunningBit marker (negb rb) ;;;
      iter (S ifuel)
        (fun i =>
           if i <=? numOfLiteralWords then
             w <- rd (marker + i) ;;
             wr (marker + i) (not64 w) ;;;
             ret (inl (i + 1))
           else ret (inr tt))
        1 ;;;
      if marker + numOfLiteralWords + 1 =? asw then
        sib <- gets sizeInBits ;;
        let lastBits := Z.rem sib wordInBits in
        if lastBits =? 0 then ret (inr tt)
        else
          nl <- RLW.getNumberOfLiteralWords marker ;;
          if nl =? 0 then
            rl <- RLW.getRunningLength marker ;;
            rb <- RLW.getRunningBit marker ;;
            (if (rl >? 0) && rb then
               nl <- RLW.getNumberOfLiteralWords marker ;;
               RLW.setNumberOfLiteralWords marker (nl - 1) ;;;
               addLiteralWord (shr64 0 (wordInBits - lastBits))
             else ret tt) ;;;
            ret (inr tt)
          else
            w <- rd (marker + numOfLiteralWords) ;;
            wr (marker + numOfLiteralWords)
               (Z.land w (shr64 allOnes (wordInBits - lastBits))) ;;;
            ret (inr tt)
      else ret (inl (marker + numOfLiteralWords + 1))
    else ret (inr tt).

(** one round of the loop up to the test for the last segment *)
Lemma not_round P s (rest : list seg) (K : Z -> M (Z + unit)) :
  wf_mark s -> (length (lits s) <= ifuel)%nat ->
  let e := st (P ++ enc s ++ encode rest) junk sib p adj in
  let marker := Z.of_nat (length P) in
  (numOfLiteralWords <- RLW.getNumberOfLiteralWords marker ;;
   rb <- RLW.getRunningBit marker ;;
   RLW.setRunningBit marker (negb rb) ;;;
   iter (S ifuel)
     (fun i =>
        if i <=? numOfLiteralWords then
          w <- rd (marker + i) ;;
          wr (marker + i) (not64 w) ;;;
          ret (inl (i + 1))
        else ret (inr tt))
     1 ;;;
   K numOfLiteralWords) e
  = K (nlit s) (st (P ++ enc (flip_seg s) ++ encode rest) junk sib p adj).
Proof.
  intros [Hrl Hnl] Hifuel e marker.
  assert (Hnl0 : 0 <= nlit s) by (unfold nlit; lia).
  assert (Hm : rd marker e = Ok (mk (rbit s) (rlen s) (nlit s), e)).
  { unfold e, enc. cbn [app]. apply rd_mid. }
  erewrite bind_ok; cycle 1.
  { unfold RLW.getNumberOfLiteralWords. erewrite bind_ok by exact Hm.
    rewrite numberOfLiteralWords_mk by lia. reflexivity. }
  cbv beta. erewrite bind_ok; cycle 1.
  { unfold RLW.getRunningBit. erewrite bind_ok by exact Hm.
    rewrite runningBit_mk. reflexivity. }
  cbv beta. erewrite bind_ok; cycle 1.
  { unfold RLW.setRunningBit. erewrite bind_ok by exact Hm. cbv beta.
    unfold e, enc, marker. cbn [app]. rewrite wr_mid.
    rewrite withRunningBit_mk by lia. reflexivity. }
  cbv beta. erewrite bind_ok; cycle 1.
  { pose proof (not_inner junk sib p adj P
                  (mk (negb (rbit s)) (rlen s) (nlit s)) (encode rest)
                  (lits s) [] (S ifuel)) as Hin.
    cbn [app length] in Hin. apply Hin. lia. }
  cbv beta. rewrite enc_flip. reflexivity.
Qed.

Lemma not_outer (post : list seg) :
  forall (P : list Z) (fuel : nat),
    post <> [] ->
    Forall wf_mark post ->
    (length post <= fuel)%nat ->
    (length (encode post) <= ifuel)%nat ->
    (lb <> 0 -> tail_has_literal post) ->
    iter fuel step (Z.of_nat (length P))
         (st (P ++ encode post) junk sib p adj)
    = Ok (tt, st (P ++ encode (not_segs lb post)) junk sib p adj).
Proof.
  induction post as [|s rest IH]; intros P fuel Hne Hwf Hfuel Hifuel Htail;
    [congruence|].
  destruct fuel as [|fuel]; [cbn in Hfuel; lia|].
  apply Forall_cons in Hwf as [Hwfs Hwf].
  assert (Hlits : (length (lits s) <= ifuel)%nat).
  { cbn [encode] in Hifuel. rewrite length_app in Hifuel. unfold enc in Hifuel.
    cbn [length] in Hifuel. lia. }
  assert (Hnl0 : 0 <= nlit s) by (unfold nlit; lia).
  assert (Hlt : forall tl,
             (Z.of_nat (length P)
              <? actualSizeInWords (st (P ++ enc s ++ tl) junk sib p adj))
             = true).
  { intros tl. apply Z.ltb_lt. cbn [actualSizeInWords st].
    rewrite !length_app. unfold enc. cbn [length]. lia. }
  destruct rest as [|s2 rest].
  - (* the last segment *)
    cbn [iter encode not_segs]. rewrite !app_nil_r.
    pose proof (not_round P s []) as Hround. cbn [encode] in Hround.
    rewrite !app_nil_r in Hround.
    assert (Hasw : (Z.of_nat (length P) + nlit s + 1
                    =? actualSizeInWords (st (P ++ enc s) junk sib p adj))
                   = true).
    { apply Z.eqb_eq. cbn [actualSizeInWords st]. rewrite length_app.
      unfold enc, nlit. cbn [length]. lia. }
    specialize (Hlt []). rewrite app_nil_r in Hlt.
    assert (Hhead : forall K : Z + unit -> M unit,
               (r <- step (Z.of_nat (length P)) ;; K r)
                 (st (P ++ enc s) junk sib p adj)
               = (r <- (sib <- gets sizeInBits ;;
                        let lastBits := Z.rem sib wordInBits in
                        if lastBits =? 0 then ret (inr tt)
                        else
                          nl <- RLW.getNumberOfLiteralWords
                                  (Z.of_nat (length P)) ;;
                          if nl =? 0 then
                            rl <- RLW.getRunningLength (Z.of_nat (length P)) ;;
                            rb <- RLW.getRunningBit (Z.of_nat (length P)) ;;
                            (if (rl >? 0) && rb then
                               nl <- RLW.getNumberOfLiteralWords
                                       (Z.of_nat (length P)) ;;
                               RLW.setNumberOfLiteralWords
                                 (Z.of_nat (length P)) (nl - 1) ;;;
                               addLiteralWord
                                 (shr64 0 (wordInBits - lastBits))
                             else ret tt) ;;;
                            ret (inr tt)
                          else
                            w <- rd (Z.of_nat (length P) + nlit s) ;;
                            wr (Z.of_nat (length P) + nlit s)
                               (Z.land w (shr64 allOnes
                                            (wordInBits - lastBits))) ;;;
                            ret (inr tt)) ;; K r)
                   (st (P ++ enc (flip_seg s)) junk sib p adj)).
    { intros K. unfold step, bind at 1, bind at 1, gets at 1.
      rewrite Hlt. rewrite Hround by assumption. rewrite Hasw.
      unfold bind at 5. reflexivity. }
    rewrite Hhead. clear Hhead.
    erewrite bind_ok; cycle 1.
    { erewrite bind_ok by reflexivity. cbv beta zeta.
      change (sizeInBits (st (P ++ enc (flip_seg s)) junk sib p adj)) with sib.
      unfold wordInBits. rewrite Z.rem_mod_nonneg by lia. fold lb.
      instantiate (1 := st (P ++ enc (if lb =? 0 then flip_seg s
                                      else mkSeg (negb (rbit s)) (rlen s)
                                             (mask_last lb (map not64 (lits s)))))
                           junk sib p adj).
      instantiate (1 := inr tt).
      destruct (Z.eqb_spec lb 0) as [Hlb0|Hlb].
      - reflexivity.
      - cbn [tail_has_literal] in Htail. specialize (Htail Hlb).
        destruct (exists_last Htail) as (l0 & x & Hl).
        assert (Hlb' : 0 < lb < 64) by (unfold lb in *; zlia).
        destruct Hwfs as [Hrl Hnl].
        rewrite enc_flip.
        erewrite bind_ok; cycle 1.
        { unfold RLW.getNumberOfLiteralWords.
          erewrite bind_ok by apply rd_mid.
          rewrite numberOfLiteralWords_mk by lia. reflexivity. }
        cbv beta.
        destruct (Z.eqb_spec (nlit s) 0) as [Hz|_].
        { unfold nlit in Hz. rewrite Hl, length_app in Hz. cbn in Hz. lia. }
        assert (Hnlit : nlit s = Z.of_nat (length (map not64 l0)) + 1)
          by (unfold nlit; rewrite Hl, length_app, length_map; cbn [length]; lia).
        rewrite Hl, map_app. cbn [map].
        replace (Z.of_nat (length P) + nlit s)
          with (Z.of_nat (length P) + Z.of_nat (length (map not64 l0)) + 1)
          by lia.
        pose proof (rd_lit P (mk (negb (rbit s)) (rlen s) (nlit s))
                      (map not64 l0 ++ [not64 x]) [] junk sib p adj
                      (length (map not64 l0)) (not64 x)) as Hrd.
        rewrite !app_nil_r in Hrd.
        erewrite bind_ok by (apply Hrd; apply list_lookup_middle; reflexivity).
        cbv beta.
        pose proof (wr_lit P (mk (negb (rbit s)) (rlen s) (nlit s))
                      (map not64 l0) (not64 x) [] [] junk sib p adj) as Hwr.
        rewrite !app_nil_r in Hwr.
        erewrite bind_ok by apply Hwr. cbv beta.
        unfold ret. f_equal. f_equal. f_equal. f_equal.
        unfold enc, mask_last, nlit. cbn [rbit rlen lits].
        rewrite removelast_last, last_last, shr64_allOnes by lia.
        rewrite !length_app, length_map. cbn [length].
        rewrite Hl, length_app, app_nil_r. cbn [length]. reflexivity. }
    cbv beta iota. reflexivity.
  - (* a segment before the last *)
    cbn [iter]. set (rest' := s2 :: rest) in *.
    assert (Hasw : (Z.of_nat (length P) + nlit s + 1
                    =? actualSizeInWords
                         (st (P ++ encode (s :: rest')) junk sib p adj))
                   = false).
    { apply Z.eqb_neq. cbn [actualSizeInWords st encode].
      rewrite !length_app. unfold rest'. cbn [encode]. rewrite length_app.
      unfold enc, nlit. cbn [length]. lia. }
    erewrite bind_ok; cycle 1.
    { unfold step, bind at 1, gets at 1. cbn [encode].
      rewrite Hlt. rewrite (not_round P s rest') by assumption.
      cbn [encode] in Hasw. rewrite Hasw. reflexivity. }
    cbv beta iota.
    specialize (IH (P ++ enc (flip_seg s)) fuel).
    rewrite <- !app_assoc in IH.
    replace (Z.of_nat (length (P ++ enc (flip_seg s))))
      with (Z.of_nat (length P) + nlit s + 1) in IH
      by (rewrite length_app, enc_flip; unfold nlit; cbn [length];
          rewrite length_map; lia).
    rewrite IH.
    + unfold rest'. reflexivity.
    + unfold rest'. discriminate.
    + assumption.
    + cbn [length] in Hfuel. lia.
    + cbn [encode] in Hifuel. rewrite length_app in Hifuel. lia.
    + intros Hlb. apply Htail. assumption.
Qed.

End NotOuter.

Lemma Not_ok ss junk sib p adj :
  ss <> [] -> Forall wf_mark ss -> 0 <= sib ->
  (sib mod 64 <> 0 -> tail_has_literal ss) ->
  Not (st (encode ss) junk sib p adj)
  = Ok (tt, st (encode (not_segs (sib mod 64) ss)) junk sib p adj).
Proof.
  intros Hne Hwf Hsib Htail. unfold Not.
  erewrite bind_ok by reflexivity. cbv beta.
  erewrite bind_ok by reflexivity. cbv beta.
  pose proof (not_outer junk sib p adj
                (length (buffer (st (encode ss) junk sib p adj))) Hsib
                ss [] (S (Z.to_nat (actualSizeInWords
                                      (st (encode ss) junk sib p adj))))
                Hne Hwf) as HL.
  cbn [app length] in HL. apply HL.
  - cbn [actualSizeInWords st]. pose proof (encode_length_ge ss). lia.
  - cbn [buffer st]. rewrite length_app. lia.
  - assumption.
Qed.

(** ** The logical words *)

Lemma words_app ss1 ss2 : words (ss1 ++ ss2) = words ss1 ++ words ss2.
Proof.
  induction ss1 as [|s ss1 IH]; [reflexivity|].
  cbn [words app]. rewrite IH, app_assoc. reflexivity.
Qed.

Lemma words_snoc ss s : words (ss ++ [s]) = words ss ++ words_seg s.
Proof. rewrite words_app. cbn [words]. rewrite app_nil_r. reflexivity. Qed.

Lemma words_seg_length s :
  0 <= rlen s -> Z.of_nat (length (words_seg s)) = seg_words s.
Proof.
  intros Hrl. unfold words_seg, seg_words, nlit.
  rewrite length_app, length_replicate. lia.
Qed.

Lemma total_words ss :
  Forall seg_ok ss -> total ss = Z.of_nat (length (words ss)).
Proof.
  induction 1 as [|s ss [Hrl _] _ IH]; [reflexivity|].
  cbn [total words]. rewrite length_app, IH, <- words_seg_length by lia. lia.
Qed.

Lemma word_at_words ss :
  Forall seg_ok ss -> forall k, 0 <= k ->
  word_at ss k = words ss !! Z.to_nat k.
Proof.
  induction 1 as [|s ss [Hrl _] _ IH]; intros k Hk; [reflexivity|].
  cbn [word_at words]. unfold words_seg.
  destruct (Z.ltb_spec k (rlen s)) as [Hrun|Hnorun].
  - rewrite <- app_assoc, lookup_app_l by (rewrite length_replicate; lia).
    symmetry. apply lookup_replicate_2. lia.
  - rewrite <- app_assoc, lookup_app_r by (rewrite length_replicate; lia).
    rewrite length_replicate.
    replace (Z.to_nat k - Z.to_nat (rlen s))%nat
      with (Z.to_nat (k - rlen s)) by lia.
    destruct (Z.ltb_spec k (rlen s + nlit s)) as [Hlit|Hnext].
    + rewrite lookup_app_l by (unfold nlit in Hlit; lia). reflexivity.
    + rewrite lookup_app_r by (unfold nlit in Hnext; lia).
      rewrite IH by lia. f_equal. unfold nlit. lia.
Qed.

Lemma sum_popcount_app l1 l2 :
  sum_popcount (l1 ++ l2) = sum_popcount l1 + sum_popcount l2.
Proof.
  unfold sum_popcount.
  induction l1 as [|w l1 IH]; cbn [fold_right app]; [lia|].
  rewrite IH. lia.
Qed.

Lemma sum_popcount_replicate n rb :
  sum_popcount (replicate n (run_word rb))
  = if rb then 64 * Z.of_nat n else 0.
Proof.
  unfold sum_popcount.
  induction n as [|n IH]; [destruct rb; reflexivity|].
  cbn [replicate fold_right]. rewrite IH.
  destruct rb.
  - change (popcount_3 (run_word true)) with 64. lia.
  - change (popcount_3 (run_word false)) with 0. lia.
Qed.

Lemma card_words ss :
  Forall seg_ok ss -> card ss = sum_popcount (words ss).
Proof.
  induction 1 as [|s ss [Hrl _] _ IH]; [reflexivity|].
  cbn [card words]. unfold card_seg, words_seg.
  rewrite !sum_popcount_app, sum_popcount_replicate, IH.
  destruct (rbit s); lia.
Qed.

(** ** The logical words under the append operations *)

Lemma words_all a :
  words (all_segs a) = words (a_init a) ++ words_seg (a_last a).
Proof. apply words_snoc. Qed.

Lemma words_addLiteralWord w a :
  words (all_segs (abs_addLiteralWord w a)) = words (all_segs a) ++ [w].
Proof.
  rewrite !words_all. unfold abs_addLiteralWord, words_seg.
  cbn [a_init a_last with_last rbit rlen lits].
  rewrite <- !app_assoc. reflexivity.
Qed.

Lemma words_newMarker v n a :
  words (all_segs (abs_newMarker v n a))
  = words (all_segs a) ++ replicate (Z.to_nat n) (run_word v).
Proof.
  rewrite (words_all (abs_newMarker v n a)). unfold abs_newMarker, words_seg.
  cbn [a_init a_last rbit rlen lits]. rewrite app_nil_r. reflexivity.
Qed.

Lemma replicate_add {A} (n m : Z) (x : A) :
  0 <= n -> 0 <= m ->
  replicate (Z.to_nat (n + m)) x
  = replicate (Z.to_nat n) x ++ replicate (Z.to_nat m) x.
Proof.
  intros Hn Hm. rewrite Z2Nat.inj_add by lia. apply replicate_add.
Qed.

Lemma words_stream v n a :
  0 <= rlen (a_last a) -> 0 <= n ->
  words (all_segs (abs_stream v n a))
  = words (all_segs a) ++ replicate (Z.to_nat n) (run_word v).
Proof.
  intros Hrl Hn. unfold abs_stream, abs_stream_head.
  destruct (negb (Bool.eqb (rbit (a_last a)) v)
            && (rlen (a_last a) + nlit (a_last a) =? 0)) eqn:Hempty.
  - apply andb_prop in Hempty as [_ He]. apply Z.eqb_eq in He.
    assert (Hnil : lits (a_last a) = []).
    { apply nlit_0. apply Z.eqb_eq. unfold nlit in *. lia. }
    assert (Hrl0 : rlen (a_last a) = 0) by (unfold nlit in *; lia).
    rewrite !words_all. unfold words_seg.
    cbn [a_init a_last with_last rbit rlen lits].
    rewrite Hnil, Hrl0, !app_nil_r. cbn [Z.to_nat replicate].
    rewrite ?app_nil_r. reflexivity.
  - destruct (negb (nlit (a_last a) =? 0)
              || negb (Bool.eqb (rbit (a_last a)) v)) eqn:Hnew.
    + change (with_last {| rbit := rbit (a_last (abs_newMarker v 0 a));
                           rlen := rlen (a_last (abs_newMarker v 0 a)) + n;
                           lits := lits (a_last (abs_newMarker v 0 a)) |}
                        (abs_newMarker v 0 a))
        with (abs_newMarker v (0 + n) a).
      rewrite words_newMarker. reflexivity.
    + apply orb_false_elim in Hnew as [Hnl Hrb].
      apply negb_false_iff, nlit_0 in Hnl.
      apply negb_false_iff, Bool.eqb_prop in Hrb.
      rewrite !words_all. unfold words_seg.
      cbn [a_init a_last with_last rbit rlen lits].
      rewrite Hnl, Hrb, !app_nil_r, replicate_add, app_assoc by lia.
      reflexivity.
Qed.

Lemma replicate_succ (n : Z) (x : Z) :
  0 <= n -> replicate (Z.to_nat (n + 1)) x = replicate (Z.to_nat n) x ++ [x].
Proof. intros Hn. rewrite replicate_add by lia. reflexivity. Qed.

Lemma words_addEmptyWord v a :
  0 <= rlen (a_last a) ->
  words (all_segs (abs_addEmptyWord v a)) = words (all_segs a) ++ [run_word v].
Proof.
  intros Hrl. unfold abs_addEmptyWord.
  destruct (nlit (a_last a) =? 0) eqn:Hnl; cbn [andb].
  - apply nlit_0 in Hnl.
    destruct (Z.eqb_spec (rlen (a_last a)) 0) as [Hrl0|Hrlpos].
    + rewrite Bool.eqb_reflx, Hrl0. cbn [andb].
      change (0 <? LargestRunningLengthCount) with true. cbv iota.
      rewrite !words_all. unfold words_seg.
      cbn [a_init a_last with_last rbit rlen lits].
      rewrite Hnl, Hrl0, !app_nil_r. cbn. rewrite ?app_nil_r. reflexivity.
    + destruct (Bool.eqb (rbit (a_last a)) v
                && (rlen (a_last a) <? LargestRunningLengthCount)) eqn:Hsame.
      * apply andb_prop in Hsame as [Hrb _]. apply Bool.eqb_prop in Hrb.
        rewrite !words_all. unfold words_seg.
        cbn [a_init a_last with_last rbit rlen lits].
        rewrite Hnl, Hrb, !app_nil_r, replicate_succ, app_assoc by lia.
        reflexivity.
      * rewrite words_newMarker. reflexivity.
  - rewrite words_newMarker. reflexivity.
Qed.

Lemma lor_bound a b n :
  0 <= n -> 0 <= a < 2 ^ n -> 0 <= b < 2 ^ n -> 0 <= Z.lor a b < 2 ^ n.
Proof.
  intros Hn Ha Hb.
  assert (H0 : 0 <= Z.lor a b) by (apply Z.lor_nonneg; lia).
  split; [assumption|].
  destruct (Z.eq_dec (Z.lor a b) 0) as [->|Hne]; [lia|].
  apply Z.log2_lt_pow2; [lia|]. rewrite Z.log2_lor by lia.
  destruct (Z.eq_dec a 0) as [->|Ha0], (Z.eq_dec b 0) as [->|Hb0].
  - rewrite Z.lor_0_l in Hne. congruence.
  - cbn [Z.log2]. rewrite Z.max_r by apply Z.log2_nonneg.
    apply Z.log2_lt_pow2; lia.
  - cbn [Z.log2]. rewrite Z.max_l by apply Z.log2_nonneg.
    apply Z.log2_lt_pow2; lia.
  - apply Z.max_lub_lt; apply Z.log2_lt_pow2; lia.
Qed.

Lemma shl64_1 r : 0 <= r < 64 -> shl64 1 r = 2 ^ r.
Proof.
  intros Hr. unfold shl64, u64.
  destruct (Z.leb_spec 0 r); [|lia]. destruct (Z.ltb_spec r 64); [|lia].
  cbn [andb]. rewrite Z.shiftl_1_l. apply Z.mod_small.
  split; [lia|]. apply Z.pow_lt_mono_r; lia.
Qed.

(** ** Well-formed segments under the append operations *)

Lemma ok_all a :
  Forall seg_ok (all_segs a) <-> Forall seg_ok (a_init a) /\ seg_ok (a_last a).
Proof.
  unfold all_segs. rewrite Forall_app, Forall_singleton. reflexivity.
Qed.

Lemma ok_with_last s a :
  Forall seg_ok (all_segs a) -> seg_ok s ->
  Forall seg_ok (all_segs (with_last s a)).
Proof. rewrite !ok_all. cbn. tauto. Qed.

Lemma ok_newMarker v n a :
  Forall seg_ok (all_segs a) -> 0 <= n ->
  Forall seg_ok (all_segs (abs_newMarker v n a)).
Proof.
  intros Hok Hn. apply ok_all. cbn [abs_newMarker a_init a_last].
  split; [exact Hok|]. split; cbn; [lia|constructor].
Qed.

Lemma ok_addLiteralWord w a :
  Forall seg_ok (all_segs a) -> word_ok w ->
  Forall seg_ok (all_segs (abs_addLiteralWord w a)).
Proof.
  intros Hok Hw. apply ok_with_last; [assumption|].
  apply ok_all in Hok as [_ [Hrl Hl]]. split; cbn; [assumption|].
  apply Forall_app. split; [assumption|]. constructor; [assumption|constructor].
Qed.

Lemma ok_stream v n a :
  Forall seg_ok (all_segs a) -> 0 <= n ->
  Forall seg_ok (all_segs (abs_stream v n a)).
Proof.
  intros Hok Hn. pose proof Hok as Hok'.
  apply ok_all in Hok' as [_ [Hrl Hl]].
  unfold abs_stream, abs_stream_head.
  destruct (negb (Bool.eqb (rbit (a_last a)) v) && _).
  - apply ok_with_last; [apply ok_with_last|]; try assumption;
      split; cbn; try lia; assumption.
  - destruct (negb (nlit (a_last a) =? 0) || _).
    + apply ok_with_last; [apply ok_newMarker; [assumption|lia]|].
      split; cbn; [lia|constructor].
    + apply ok_with_last; [assumption|]. split; cbn; [lia|assumption].
Qed.

Lemma ok_addEmptyWord v a :
  Forall seg_ok (all_segs a) ->
  Forall seg_ok (all_segs (abs_addEmptyWord v a)).
Proof.
  intros Hok. pose proof Hok as Hok'.
  apply ok_all in Hok' as [_ [Hrl Hl]].
  unfold abs_addEmptyWord. destruct (_ && _ && _).
  - apply ok_with_last; [assumption|]. split; cbn; [lia|assumption].
  - apply ok_newMarker; [assumption|lia].
Qed.

Lemma size_w_addEmptyWord v a :
  size_w (abs_addEmptyWord v a) <= size_w a + 1.
Proof.
  unfold abs_addEmptyWord.
  destruct (_ && _ && _); rewrite !size_w_eq; cbn;
    rewrite ?encode_snoc, ?length_app; cbn; lia.
Qed.

Lemma size_w_addLiteralWord w a :
  size_w (abs_addLiteralWord w a) = size_w a + 1.
Proof. rewrite !size_w_eq. cbn. rewrite length_app. cbn. lia. Qed.

(** ** The invariant of a bitmap built by [Set] *)

Lemma seg_words_le s ss :
  Forall seg_ok ss -> In s ss -> seg_words s <= total ss.
Proof.
  induction 1 as [|x ss [Hrl _] Hok IH]; intros Hin; [destruct Hin|].
  cbn [total]. assert (0 <= total ss).
  { clear IH Hin. induction Hok as [|y ss [Hy _] _ IHo]; cbn [total]; [lia|].
    unfold seg_words, nlit. lia. }
  assert (0 <= seg_words x) by (unfold seg_words, nlit; lia).
  destruct Hin as [->|Hin]; [lia|]. specialize (IH Hin). lia.
Qed.

Lemma Inv_bounds a :
  Inv a ->
  0 <= rlen (a_last a) /\ rlen (a_last a) + nlit (a_last a) <= 2 ^ 25
  /\ Z.of_nat (length (words (all_segs a))) <= 2 ^ 25
  /\ Forall word_ok (lits (a_last a)).
Proof.
  intros (Hsib & Hok & Hlen & _ & _).
  assert (HM : MaxInt32 = 2147483647) by reflexivity.
  assert (Hlast : In (a_last a) (all_segs a))
    by (unfold all_segs; apply in_or_app; right; left; reflexivity).
  pose proof (seg_words_le _ _ Hok Hlast) as Hle.
  rewrite (total_words _ Hok), Hlen in Hle.
  apply ok_all in Hok as [_ [Hrl Hl]]. unfold seg_words in Hle.
  repeat split; try assumption; zlia.
Qed.

Lemma Inv_wf_seg a : Inv a -> wf_seg (a_last a).
Proof.
  intros HI. destruct (Inv_bounds a HI) as (Hrl & Hsum & _ & Hl).
  assert (0 <= nlit (a_last a)) by (unfold nlit; lia).
  repeat split; try lia. exact Hl.
Qed.

Lemma ok_wf_mark ss :
  Forall seg_ok ss -> total ss <= 2 ^ 25 -> Forall wf_mark ss.
Proof.
  intros Hok Htot. apply Forall_forall. intros s Hin.
  pose proof (seg_words_le s ss Hok (proj1 (list_elem_of_In _ _) Hin)) as Hle.
  rewrite Forall_forall in Hok. destruct (Hok s Hin) as [Hrl _].
  unfold wf_mark, seg_words, nlit in *. split; lia.
Qed.

Lemma pow2_mono a b : 0 <= a <= b -> 2 ^ a <= 2 ^ b.
Proof. intros. apply Z.pow_le_mono_r; lia. Qed.

Lemma word_ok_bit r : 0 <= r < 64 -> word_ok (2 ^ r).
Proof.
  intros Hr. split; [apply Z.pow_nonneg; lia|].
  apply Z.pow_lt_mono_r; lia.
Qed.

Section SetPure.

Variables (a : abs) (i : Z).

Hypothesis HI : Inv a.

Hypothesis Hi : a_sib a <= i <= MaxInt32 - 64.

Let dist := (i + 64) / 64 - (a_sib a + 63) / 64.

Lemma abs_Set_div :
  abs_Set i a =
  let a0 := with_sib (i + 1) a in
  let bit := 2 ^ (i mod 64) in
  if dist >? 0 then
    abs_addLiteralWord bit
      (if dist >? 1 then abs_stream false (dist - 1) a0 else a0)
  else
    let l := a_last a0 in
    let w := Z.lor (List.last (lits l) 0) bit in
    if w =? allOnes then
      abs_addEmptyWord true
        (with_last (mkSeg (rbit l) (rlen l) (removelast (lits l))) a0)
    else with_last (mkSeg (rbit l) (rlen l) (removelast (lits l) ++ [w])) a0.
Proof.
  destruct HI as (Hsib & _). unfold abs_Set, wordInBits, dist.
  rewrite !Z.quot_div_nonneg, Z.rem_mod_nonneg by lia.
  rewrite shl64_1 by zlia.
  replace (a_sib a + 64 - 1) with (a_sib a + 63) by lia. reflexivity.
Qed.

Lemma Set_far :
  0 < dist ->
  words (all_segs (abs_Set i a))
  = words (all_segs a) ++ replicate (Z.to_nat (dist - 1)) 0
      ++ [2 ^ (i mod 64)]
  /\ Inv (abs_Set i a)
  /\ a_sib (abs_Set i a) = i + 1.
Proof.
  intros Hd. rewrite abs_Set_div. cbv zeta.
  destruct (Inv_bounds a HI) as (Hrl & Hsum & Hlen25 & Hlits).
  pose proof (Inv_wf_seg a HI) as Hwf.
  destruct HI as (Hsib & Hok & Hlen & Htail & Hsz).
  assert (HM : MaxInt32 = 2147483647) by reflexivity.
  destruct (Z.gtb_spec dist 0); [|lia].
  set (a0 := with_sib (i + 1) a).
  set (a1 := if dist >? 1 then abs_stream false (dist - 1) a0 else a0).
  assert (Hbit : word_ok (2 ^ (i mod 64))) by (apply word_ok_bit; zlia).
  assert (Hok0 : Forall seg_ok (all_segs a0)) by exact Hok.
  assert (Hw1 : words (all_segs a1)
                = words (all_segs a) ++ replicate (Z.to_nat (dist - 1)) 0).
  { unfold a1. destruct (Z.gtb_spec dist 1).
    - rewrite words_stream by (cbn; lia). reflexivity.
    - replace (dist - 1) with 0 by lia. cbn. rewrite app_nil_r. reflexivity. }
  assert (Hok1 : Forall seg_ok (all_segs a1)).
  { unfold a1. destruct (Z.gtb_spec dist 1); [|assumption].
    apply ok_stream; [assumption|lia]. }
  assert (Hsz1 : size_w a1 <= size_w a + (if dist >? 1 then 1 else 0)).
  { unfold a1. destruct (Z.gtb_spec dist 1); [|change (size_w a0) with (size_w a); lia].
    destruct (stream_last false (dist - 1) a0) as (_ & _ & Hs & _).
    - exact Hwf.
    - lia.
    - change (rlen (a_last a0)) with (rlen (a_last a)).
      unfold nlit in Hsum. assert (dist <= 2 ^ 25) by (unfold dist; zlia).
      lia.
    - change (size_w a0) with (size_w a) in Hs. lia. }
  assert (Hsib1 : a_sib a1 = i + 1).
  { unfold a1. destruct (Z.gtb_spec dist 1); [|reflexivity].
    destruct (stream_last false (dist - 1) a0) as (_ & _ & _ & Hs).
    - exact Hwf.
    - lia.
    - change (rlen (a_last a0)) with (rlen (a_last a)).
      unfold nlit in Hsum. assert (dist <= 2 ^ 25) by (unfold dist; zlia).
      lia.
    - exact Hs. }
  split; [|split]; cycle 2.
  { cbn [abs_addLiteralWord with_last a_sib]. exact Hsib1. }
  - rewrite words_addLiteralWord, Hw1, <- app_assoc. reflexivity.
  - unfold Inv. rewrite words_addLiteralWord, Hw1, !length_app,
      length_replicate, size_w_addLiteralWord.
    cbn [length abs_addLiteralWord with_last a_sib a_last lits].
    rewrite Hsib1. repeat split.
    + lia.
    + lia.
    + apply ok_addLiteralWord; assumption.
    + unfold dist in *. zlia.
    + intros Hmod. exists (lits (a_last a1)), (2 ^ (i mod 64)).
      split; [reflexivity|]. apply Z.pow_lt_mono_r; zlia.
    + destruct (Z.gtb_spec dist 1); lia.
Qed.

Lemma Set_near :
  dist <= 0 ->
  exists ws0 w,
    words (all_segs a) = ws0 ++ [w]
    /\ words (all_segs (abs_Set i a)) = ws0 ++ [Z.lor w (2 ^ (i mod 64))]
    /\ Inv (abs_Set i a)
    /\ a_sib (abs_Set i a) = i + 1.
Proof.
  intros Hd. rewrite abs_Set_div. cbv zeta.
  destruct (Inv_bounds a HI) as (Hrl & Hsum & Hlen25 & Hlits).
  pose proof (Inv_wf_seg a HI) as Hwf.
  destruct HI as (Hsib & Hok & Hlen & Htail & Hsz).
  assert (HM : MaxInt32 = 2147483647) by reflexivity.
  destruct (Z.gtb_spec dist 0); [lia|].
  assert (Hmod : a_sib a mod 64 <> 0) by (unfold dist in *; zlia).
  destruct (Htail Hmod) as (l0 & w & Hl & Hw).
  rewrite Hl, Forall_app in Hlits. destruct Hlits as [Hl0 Hw0].
  apply Forall_inv in Hw0.
  set (bit := 2 ^ (i mod 64)).
  assert (Hbit : word_ok bit) by (apply word_ok_bit; zlia).
  assert (Hw' : 0 <= Z.lor w bit < 2 ^ (i mod 64 + 1)).
  { apply lor_bound; [zlia| |].
    - split; [apply Hw0|]. eapply Z.lt_le_trans; [exact Hw|].
      apply pow2_mono. unfold dist in *. zlia.
    - split; [apply Hbit|]. apply Z.pow_lt_mono_r; zlia. }
  assert (Hw64 : word_ok (Z.lor w bit)).
  { split; [lia|]. eapply Z.lt_le_trans; [apply Hw'|].
    apply pow2_mono. zlia. }
  cbn [a_last with_sib]. rewrite Hl, last_last, removelast_last.
  set (ws0 := words (a_init a)
              ++ replicate (Z.to_nat (rlen (a_last a)))
                           (run_word (rbit (a_last a))) ++ l0).
  assert (Hws : words (all_segs a) = ws0 ++ [w]).
  { rewrite words_all. unfold words_seg, ws0. rewrite Hl, <- !app_assoc.
    reflexivity. }
  exists ws0, w. split; [exact Hws|].
  rewrite Hws, length_app in Hlen, Hsz. cbn [length] in Hlen, Hsz.
  set (a1 := with_last (mkSeg (rbit (a_last a)) (rlen (a_last a)) l0)
                       (with_sib (i + 1) a)).
  assert (Hok1 : Forall seg_ok (all_segs a1)).
  { apply ok_with_last; [exact Hok|]. split; cbn; assumption. }
  assert (Hws1 : words (all_segs a1) = ws0).
  { rewrite words_all. unfold words_seg, ws0. reflexivity. }
  assert (Hsz1 : size_w a1 = size_w a - 1).
  { rewrite !size_w_eq. cbn. rewrite Hl, length_app. cbn. lia. }
  destruct (Z.eqb_spec (Z.lor w bit) allOnes) as [Hfull|Hpart].
  - (* the word is full *)
    assert (Hi63 : i mod 64 = 63).
    { destruct (Z.eq_dec (i mod 64) 63) as [|Hne]; [assumption|].
      exfalso. assert (2 ^ (i mod 64 + 1) <= 2 ^ 63)
        by (apply pow2_mono; zlia).
      rewrite Hfull in Hw'. unfold allOnes in Hw'. lia. }
    split; [|split]; cycle 2.
    { unfold abs_addEmptyWord. destruct (_ && _ && _); reflexivity. }
    + rewrite words_addEmptyWord by (cbn; lia). rewrite Hws1, Hfull.
      reflexivity.
    + unfold Inv. rewrite words_addEmptyWord by (cbn; lia).
      rewrite Hws1, length_app. cbn [length].
      pose proof (size_w_addEmptyWord true a1) as Hs.
      assert (Hsib' : a_sib (abs_addEmptyWord true a1) = i + 1).
      { unfold abs_addEmptyWord. destruct (_ && _ && _); reflexivity. }
      rewrite Hsib'. repeat split.
      * lia.
      * lia.
      * apply ok_addEmptyWord. assumption.
      * unfold dist in *. zlia.
      * intros Hm. exfalso. zlia.
      * lia.
  - (* the word stays a literal *)
    split; [|split]; cycle 2.
    { reflexivity. }
    + rewrite words_all. unfold words_seg, ws0.
      cbn [a_init a_last with_last with_sib rbit rlen lits].
      rewrite <- !app_assoc. reflexivity.
    + unfold Inv. rewrite words_all. unfold words_seg.
      cbn [a_init a_last a_sib with_last with_sib rbit rlen lits].
      repeat split.
      * lia.
      * lia.
      * apply ok_with_last; [exact Hok|]. split; cbn; [assumption|].
        apply Forall_app. split; [assumption|].
        constructor; [assumption|constructor].
      * rewrite !length_app, length_replicate in *. cbn [length].
        unfold ws0 in Hlen. rewrite !length_app, length_replicate in Hlen.
        unfold dist in *. zlia.
      * intros Hm. exists l0, (Z.lor w bit). split; [reflexivity|].
        replace ((i + 1) mod 64) with (i mod 64 + 1) by zlia. apply Hw'.
      * rewrite size_w_eq in *.
        cbn [a_init a_last with_last with_sib lits] in *.
        rewrite !length_app, length_replicate in *. cbn [length] in *.
        unfold ws0 in Hsz. rewrite !length_app, length_replicate in Hsz.
        rewrite Hl, length_app in Hsz. cbn [length] in Hsz. lia.
Qed.

End SetPure.

(** ** The logical words after [Not] *)

Lemma not64_bit w k : 0 <= k < 64 -> Z.testbit (not64 w) k = negb (Z.testbit w k).
Proof.
  intros Hk. unfold not64. rewrite Z.lxor_spec.
  change allOnes with (Z.ones 64). rewrite ones_bit by lia.
  destruct (Z.leb_spec 0 k), (Z.ltb_spec k 64); try lia.
  cbn [andb]. apply xorb_true_r.
Qed.

Lemma not64_run rb : not64 (run_word rb) = run_word (negb rb).
Proof. destruct rb; reflexivity. Qed.

Lemma not64_ok w : word_ok w -> word_ok (not64 w).
Proof.
  intros [H0 H1]. unfold not64, word_ok.
  assert (Ha : 0 <= allOnes < 2 ^ 64) by (unfold allOnes; lia).
  assert (Hx : 0 <= Z.lxor w allOnes) by (apply Z.lxor_nonneg; lia).
  split; [assumption|].
  destruct (Z.eq_dec (Z.lxor w allOnes) 0) as [->|Hne]; [lia|].
  apply Z.log2_lt_pow2; [lia|].
  eapply Z.le_lt_trans; [apply Z.log2_lxor; lia|].
  destruct (Z.eq_dec w 0) as [->|Hw0].
  - rewrite Z.max_r by (apply Z.log2_nonneg). reflexivity.
  - apply Z.max_lub_lt; [apply Z.log2_lt_pow2; lia|reflexivity].
Qed.

Lemma land_ones_ok w lb : word_ok w -> 0 <= lb -> word_ok (Z.land w (Z.ones lb)).
Proof.
  intros [H0 H1] Hlb. rewrite Z.land_ones by lia. unfold word_ok.
  pose proof (Z.mod_pos_bound w (2 ^ lb)).
  assert (0 < 2 ^ lb) by (apply Z.pow_pos_nonneg; lia).
  split; [lia|]. apply Z.le_lt_trans with w; [|lia].
  apply Z.mod_le; lia.
Qed.

Lemma words_seg_flip s :
  words_seg (flip_seg s) = map not64 (words_seg s).
Proof.
  unfold words_seg, flip_seg. cbn [rbit rlen lits].
  rewrite map_app. f_equal.
  induction (Z.to_nat (rlen s)) as [|n IH]; [reflexivity|].
  cbn [replicate map]. rewrite IH, not64_run. reflexivity.
Qed.

Lemma last_append (l1 l2 : list Z) d :
  l2 <> [] -> List.last (l1 ++ l2) d = List.last l2 d.
Proof.
  intros Hne. induction l1 as [|x l1 IH]; [reflexivity|].
  cbn [app]. change (List.last (x :: l1 ++ l2) d)
    with (match l1 ++ l2 with [] => x | _ :: _ => List.last (l1 ++ l2) d end).
  destruct (l1 ++ l2) eqn:He; [|exact IH].
  apply app_eq_nil in He. tauto.
Qed.

Lemma mask_last_app lb l1 l2 :
  l2 <> [] -> mask_last lb (l1 ++ l2) = l1 ++ mask_last lb l2.
Proof.
  intros Hne. unfold mask_last.
  rewrite removelast_app, last_append, <- app_assoc by assumption.
  reflexivity.
Qed.

Lemma mask_last_snoc lb l w :
  mask_last lb (l ++ [w]) = l ++ [Z.land w (Z.ones lb)].
Proof. unfold mask_last. rewrite removelast_last, last_last. reflexivity. Qed.

Lemma words_tail ss : ss <> [] -> tail_has_literal ss -> words ss <> [].
Proof.
  induction ss as [|s ss IH]; [congruence|]. intros _ Ht.
  cbn [words]. destruct ss as [|s' ss].
  - cbn [tail_has_literal] in Ht. unfold words_seg. cbn [words].
    rewrite app_nil_r. intros He. apply app_eq_nil in He. tauto.
  - intros He. apply app_eq_nil in He as [_ He].
    revert He. apply IH; [congruence|exact Ht].
Qed.

Lemma words_not_segs lb ss :
  ss <> [] -> (lb <> 0 -> tail_has_literal ss) ->
  words (not_segs lb ss) = not_words lb (words ss).
Proof.
  induction ss as [|s ss IH]; [congruence|]. intros _ Ht.
  destruct ss as [|s' ss].
  - cbn [not_segs words]. rewrite !app_nil_r. unfold not_words.
    destruct (Z.eqb_spec lb 0) as [Hlb|Hlb]; [apply words_seg_flip|].
    specialize (Ht Hlb). cbn [tail_has_literal] in Ht.
    unfold words_seg. cbn [rbit rlen lits].
    rewrite map_app, mask_last_app.
    + f_equal. induction (Z.to_nat (rlen s)) as [|n IHn]; [reflexivity|].
      cbn [replicate map]. rewrite <- IHn, not64_run. reflexivity.
    + destruct (lits s); [congruence|discriminate].
  - change (not_segs lb (s :: s' :: ss))
      with (flip_seg s :: not_segs lb (s' :: ss)).
    cbn [words]. change (words_seg s' ++ words ss) with (words (s' :: ss)).
    rewrite IH by (congruence || exact Ht). rewrite words_seg_flip.
    unfold not_words. destruct (Z.eqb_spec lb 0) as [Hlb|Hlb].
    + rewrite map_app. reflexivity.
    + rewrite map_app, mask_last_app; [reflexivity|].
      intros He. apply map_eq_nil in He. revert He.
      apply words_tail; [congruence|]. apply (Ht Hlb).
Qed.

(** ** Population counts of complemented words *)

Lemma popcount_upto_flip lb w f n :
  (n <= 64)%nat ->
  (forall k, 0 <= k < 64 ->
             Z.testbit f k = negb (Z.testbit w k) && (k <? lb)) ->
  (forall k, lb <= k < 64 -> Z.testbit w k = false) ->
  0 <= lb ->
  popcount_upto n f = Z.min (Z.of_nat n) lb - popcount_upto n w.
Proof.
  intros Hn Hf Hw Hlb. induction n as [|n IH]; [cbn; lia|].
  cbn [popcount_upto]. rewrite IH by lia. rewrite Hf by lia.
  destruct (Z.ltb_spec (Z.of_nat n) lb) as [Hlt|Hge].
  - rewrite andb_true_r. destruct (Z.testbit w (Z.of_nat n)); cbn [negb Z.b2z]; lia.
  - rewrite andb_false_r, Hw by lia. cbn [Z.b2z]. lia.
Qed.

Lemma popcount_not64 w : popcount_3 (not64 w) = 64 - popcount_3 w.
Proof.
  unfold popcount_3.
  rewrite (popcount_upto_flip 64 w (not64 w) 64); try lia.
  - intros k Hk. rewrite not64_bit by lia.
    destruct (Z.ltb_spec k 64); [|lia]. apply eq_sym, andb_true_r.
Qed.

Lemma popcount_masked w lb :
  0 <= lb < 64 -> 0 <= w < 2 ^ lb ->
  popcount_3 (Z.land (not64 w) (Z.ones lb)) = lb - popcount_3 w.
Proof.
  intros Hlb Hw. unfold popcount_3.
  rewrite (popcount_upto_flip lb w _ 64); try lia.
  - intros k Hk. rewrite Z.land_spec, not64_bit, ones_bit by lia.
    destruct (Z.leb_spec 0 k); [reflexivity|lia].
  - intros k Hk. apply (high_bit w lb); [exact Hw|lia].
Qed.

Lemma sum_popcount_not ws :
  sum_popcount (map not64 ws) = 64 * Z.of_nat (length ws) - sum_popcount ws.
Proof.
  unfold sum_popcount. induction ws as [|w ws IH]; [reflexivity|].
  cbn [map fold_right length]. rewrite IH, popcount_not64. lia.
Qed.

Lemma sum_popcount_snoc ws w :
  sum_popcount (ws ++ [w]) = sum_popcount ws + popcount_3 w.
Proof. rewrite sum_popcount_app. unfold sum_popcount. cbn. lia. Qed.

(** [Not] turns a population count [c] into [sib - c] *)
Lemma sum_popcount_not_words sib ws :
  0 <= sib ->
  Z.of_nat (length ws) = (sib + 63) / 64 ->
  (sib mod 64 <> 0 ->
   exists ws0 w, ws = ws0 ++ [w] /\ 0 <= w < 2 ^ (sib mod 64)) ->
  sum_popcount (not_words (sib mod 64) ws) = sib - sum_popcount ws.
Proof.
  intros Hsib Hlen Htail. unfold not_words.
  destruct (Z.eqb_spec (sib mod 64) 0) as [Hlb|Hlb].
  - rewrite sum_popcount_not. zlia.
  - destruct (Htail Hlb) as (ws0 & w & -> & Hw).
    rewrite map_app. cbn [map]. rewrite mask_last_snoc, !sum_popcount_snoc,
      sum_popcount_not, popcount_masked by (try assumption; zlia).
    rewrite length_app in Hlen. cbn [length] in Hlen. zlia.
Qed.

(** ** Bits of complemented words *)

Lemma not_words_length lb ws :
  (lb <> 0 -> ws <> []) -> length (not_words lb ws) = length ws.
Proof.
  intros Hne. unfold not_words. destruct (Z.eqb_spec lb 0) as [Hlb|Hlb].
  - apply length_map.
  - destruct (exists_last (Hne Hlb)) as (ws0 & w & ->).
    rewrite map_app. cbn [map].
    rewrite mask_last_snoc, !length_app, length_map. reflexivity.
Qed.

Lemma bitw_not_words lb ws j :
  0 <= j -> 0 <= lb -> (lb <> 0 -> ws <> []) ->
  bitw ws j = true -> bitw (not_words lb ws) j = false.
Proof.
  intros Hj Hlb Hne. unfold bitw, not_words.
  assert (Hr : 0 <= j mod 64 < 64) by zlia.
  destruct (ws !! Z.to_nat (j / 64)) as [w|] eqn:Hw; [|discriminate].
  intros Hbit. destruct (Z.eqb_spec lb 0) as [Hz|Hnz].
  - rewrite list_lookup_fmap, Hw. cbn. rewrite not64_bit, Hbit by lia.
    reflexivity.
  - destruct (exists_last (Hne Hnz)) as (ws0 & x & ->).
    rewrite map_app. cbn [map]. rewrite mask_last_snoc.
    apply lookup_app_Some in Hw as [Hw|[Hge Hw]].
    + rewrite lookup_app_l by (rewrite length_map; eapply lookup_lt_Some; exact Hw).
      rewrite list_lookup_fmap, Hw. cbn. rewrite not64_bit, Hbit by lia.
      reflexivity.
    + rewrite lookup_app_r by (rewrite length_map; lia).
      rewrite length_map.
      destruct (Z.to_nat (j / 64) - length ws0)%nat as [|n]; [|reflexivity].
      cbn in Hw. injection Hw as ->. cbn.
      rewrite Z.land_spec, not64_bit, Hbit by lia. reflexivity.
Qed.

(** ** Segments after [Not] *)

Lemma flip_seg_ok s : seg_ok s -> seg_ok (flip_seg s).
Proof.
  intros [Hrl Hl]. split; [exact Hrl|]. cbn [flip_seg lits].
  induction Hl as [|w ws Hw _ IH]; constructor; [apply not64_ok|]; assumption.
Qed.

Lemma mask_last_ok lb ls :
  0 <= lb -> Forall word_ok ls -> Forall word_ok (mask_last lb ls).
Proof.
  intros Hlb Hl. unfold mask_last. apply Forall_app. split.
  - destruct ls as [|x ls] using rev_ind; [constructor|].
    rewrite removelast_last. rewrite Forall_app in Hl. tauto.
  - constructor; [|constructor]. apply land_ones_ok; [|exact Hlb].
    destruct ls as [|x ls] using rev_ind; [cbn; unfold word_ok; lia|].
    rewrite last_last. rewrite Forall_app in Hl. destruct Hl as [_ Hx].
    apply Forall_inv in Hx. exact Hx.
Qed.

Lemma not_segs_ok lb ss :
  0 <= lb -> Forall seg_ok ss -> Forall seg_ok (not_segs lb ss).
Proof.
  intros Hlb. induction 1 as [|s ss Hs Hss IH]; [constructor|].
  destruct ss as [|s' ss].
  - cbn [not_segs]. constructor; [|constructor].
    destruct (lb =? 0); [apply flip_seg_ok; exact Hs|].
    destruct Hs as [Hrl Hl]. split; [exact Hrl|]. cbn [lits].
    apply mask_last_ok; [exact Hlb|].
    apply (flip_seg_ok s). split; assumption.
  - change (not_segs lb (s :: s' :: ss))
      with (flip_seg s :: not_segs lb (s' :: ss)).
    constructor; [apply flip_seg_ok; exact Hs|exact IH].
Qed.

Lemma not_segs_total lb ss :
  (lb <> 0 -> tail_has_literal ss) -> total (not_segs lb ss) = total ss.
Proof.
  induction ss as [|s ss IH]; [reflexivity|]. intros Ht.
  destruct ss as [|s' ss].
  - cbn [not_segs total]. destruct (Z.eqb_spec lb 0) as [Hz|Hnz].
    + unfold seg_words. rewrite nlit_flip. reflexivity.
    + specialize (Ht Hnz). cbn [tail_has_literal] in Ht.
      destruct (exists_last Ht) as (l0 & w & Hl).
      unfold seg_words, nlit. cbn [rlen lits]. rewrite Hl, map_app. cbn [map].
      rewrite mask_last_snoc, !length_app, length_map. reflexivity.
  - change (not_segs lb (s :: s' :: ss))
      with (flip_seg s :: not_segs lb (s' :: ss)).
    cbn [total]. rewrite IH by exact Ht.
    unfold seg_words. rewrite nlit_flip. reflexivity.
Qed.

(** ** Bits after [Set] *)

Lemma bitw_app_keep ws ws' j :
  bitw ws j = true -> bitw (ws ++ ws') j = true.
Proof.
  unfold bitw. destruct (ws !! Z.to_nat (j / 64)) as [w|] eqn:Hw; [|discriminate].
  rewrite (lookup_app_l_Some _ _ _ _ Hw). trivial.
Qed.

Lemma bitw_at ws w ws' j :
  0 <= j -> Z.of_nat (length ws) = j / 64 ->
  bitw (ws ++ w :: ws') j = Z.testbit w (j mod 64).
Proof.
  intros Hj Hlen. unfold bitw.
  replace (Z.to_nat (j / 64)) with (length ws) by lia.
  rewrite list_lookup_middle by reflexivity. reflexivity.
Qed.

Section SetBits.

Variables (a : abs) (i : Z).

Hypothesis HI : Inv a.

Hypothesis Hi : a_sib a <= i <= MaxInt32 - 64.

Lemma Set_pure :
  Inv (abs_Set i a) /\ a_sib (abs_Set i a) = i + 1
  /\ bitw (words (all_segs (abs_Set i a))) i = true
  /\ (forall j, 0 <= j -> bitw (words (all_segs a)) j = true ->
                bitw (words (all_segs (abs_Set i a))) j = true).
Proof.
  assert (HM : MaxInt32 = 2147483647) by reflexivity.
  pose proof HI as (Hsib & Hok & Hlen & Htail & Hsz).
  assert (Hr : 0 <= i mod 64 < 64) by zlia.
  destruct (Z.lt_ge_cases 0 ((i + 64) / 64 - (a_sib a + 63) / 64)) as [Hd|Hd].
  - destruct (Set_far a i HI Hi Hd) as (Hws & HI' & Hsib').
    split; [exact HI'|split; [exact Hsib'|split]].
    + rewrite Hws, app_assoc, bitw_at.
      * apply Z.pow2_bits_true. lia.
      * lia.
      * rewrite length_app, length_replicate. zlia.
    + intros j Hj Hb. rewrite Hws. apply bitw_app_keep. exact Hb.
  - destruct (Set_near a i HI Hi) as (ws0 & w & Hws & Hws' & HI' & Hsib');
      [lia|].
    assert (Hl0 : Z.of_nat (length ws0) = i / 64).
    { rewrite Hws, length_app in Hlen. cbn [length] in Hlen. zlia. }
    split; [exact HI'|split; [exact Hsib'|split]].
    + rewrite Hws', bitw_at, Z.lor_spec, Z.pow2_bits_true by lia.
      apply orb_true_r.
    + intros j Hj. rewrite Hws, Hws'. unfold bitw.
      destruct (Nat.lt_ge_cases (Z.to_nat (j / 64)) (length ws0)) as [Hlt|Hge].
      * rewrite !lookup_app_l by assumption. trivial.
      * rewrite !lookup_app_r by assumption.
        destruct (Z.to_nat (j / 64) - length ws0)%nat as [|n]; cbn.
        -- rewrite Z.lor_spec. intros ->. reflexivity.
        -- trivial.
Qed.

End SetBits.

(** ** A run of ascending [Set] calls *)

Lemma Set_step a junk adj i :
  Inv a -> Small a junk -> a_sib a <= i <= MaxInt32 - 64 ->
  exists junk',
    Set_ i (conc a junk adj) = Ok (true, conc (abs_Set i a) junk' adj)
    /\ Small (abs_Set i a) junk'.
Proof.
  intros HI Hsmall Hi.
  assert (HM : MaxInt32 = 2147483647) by reflexivity.
  destruct (Inv_bounds a HI) as (Hrl & Hsum & Hlen25 & Hlits).
  pose proof (Inv_wf_seg a HI) as Hwf.
  destruct HI as (Hsib & Hok & Hlen & Htail & Hsz).
  unfold Small in *.
  destruct (Set_runs a junk adj i) as (junk' & Hrun & Hlen'); try assumption.
  - lia.
  - lia.
  - lia.
  - rewrite Z.quot_div_nonneg by lia. unfold nlit in Hsum.
    assert ((i + 64) / 64 <= 2 ^ 25) by zlia. lia.
  - rewrite Z.rem_mod_nonneg by lia. intros Hm.
    destruct (Htail Hm) as (l0 & w & -> & _). destruct l0; discriminate.
  - exists junk'. split; [exact Hrun|]. lia.
Qed.

Lemma ascending_from_le lo l i :
  ascending_from lo l = true -> In i l -> lo <= i.
Proof.
  revert lo. induction l as [|x l IH]; intros lo Ha Hin; [destruct Hin|].
  cbn [ascending_from] in Ha.
  apply andb_prop in Ha as [Ha Hl]. apply andb_prop in Ha as [Hlo Hhi].
  apply Z.leb_le in Hlo. destruct Hin as [->|Hin]; [exact Hlo|].
  specialize (IH _ Hl Hin). lia.
Qed.

Lemma setEach_cons i l e :
  setEach (i :: l) e = andThen (exec (Set_ i) e) (setEach l).
Proof.
  unfold setEach. cbn [fold_left andThen].
  destruct (exec (Set_ i) e) as [e'| |]; cbn [andThen]; [reflexivity| |].
  - induction l as [|x l IH]; [reflexivity|exact IH].
  - induction l as [|x l IH]; [reflexivity|exact IH].
Qed.

Lemma setEach_runs adj l :
  forall a junk,
    Inv a -> Small a junk -> ascending_from (a_sib a) l = true ->
    exists a' junk',
      setEach l (conc a junk adj) = Ok (conc a' junk' adj)
      /\ Inv a' /\ Small a' junk' /\ a_sib a <= a_sib a'
      /\ (forall j, 0 <= j -> bitw (words (all_segs a)) j = true ->
                    bitw (words (all_segs a')) j = true)
      /\ (forall i, In i l ->
                    i < a_sib a' /\ bitw (words (all_segs a')) i = true).
Proof.
  induction l as [|i l IH]; intros a junk HI Hsmall Hasc.
  - exists a, junk.
    split; [reflexivity|split; [exact HI|split; [exact Hsmall|]]].
    split; [lia|split].
    + trivial.
    + intros i [].
  - cbn [ascending_from] in Hasc.
    apply andb_prop in Hasc as [Hasc Hl]. apply andb_prop in Hasc as [Hlo Hhi].
    apply Z.leb_le in Hlo, Hhi.
    destruct (Set_step a junk adj i HI Hsmall) as (junk1 & Hrun & Hsmall1);
      [lia|].
    destruct (Set_pure a i HI) as (HI1 & Hsib1 & Hbit & Hkeep); [lia|].
    rewrite <- Hsib1 in Hl.
    destruct (IH _ junk1 HI1 Hsmall1 Hl)
      as (a' & junk' & Hrun' & HI' & Hsmall' & Hle' & Hkeep' & Hset').
    exists a', junk'. rewrite setEach_cons. unfold exec at 1. rewrite Hrun.
    cbn [andThen].
    split; [exact Hrun'|split; [exact HI'|split; [exact Hsmall'|]]].
    split; [lia|split].
    + intros j Hj Hb. apply Hkeep'; [exact Hj|]. apply Hkeep; assumption.
    + intros k [<-|Hin]; [|apply (Hset' _ Hin)]. split; [lia|].
      destruct HI as (Hsib & _). apply Hkeep'; [lia|exact Hbit].
Qed.

(** ** Reading a built bitmap *)

Lemma Get_bitw ss junk sib p adj j :
  Forall seg_ok ss -> total ss <= 2 ^ 25 -> 0 <= j <= sib ->
  j / 64 < Z.of_nat (length (words ss)) ->
  Get j (st (encode ss) junk sib p adj)
  = Ok (bitw (words ss) j, st (encode ss) junk sib p adj).
Proof.
  intros Hok Htot Hj Hlt.
  destruct (lookup_lt_is_Some_2 (words ss) (Z.to_nat (j / 64))) as [w Hw];
    [zlia|].
  unfold bitw. rewrite Hw. apply Get_ok.
  - apply ok_wf_mark; assumption.
  - exact Hj.
  - rewrite word_at_words by (assumption || zlia). exact Hw.
Qed.

Lemma tail_has_literal_snoc ss s :
  tail_has_literal (ss ++ [s]) <-> lits s <> [].
Proof.
  induction ss as [|x ss IH]; [reflexivity|].
  cbn [app tail_has_literal]. destruct (ss ++ [s]) eqn:He; [|exact IH].
  apply app_eq_nil in He. destruct He as [_ He]. discriminate.
Qed.

Lemma fresh_conc : fresh = conc empty_abs [0; 0; 0] true.
Proof. reflexivity. Qed.

Lemma Inv_empty : Inv empty_abs.
Proof.
  assert (HM : MaxInt32 = 2147483647) by reflexivity.
  unfold Inv. split; [|split; [|split; [|split]]].
  - cbn [a_sib empty_abs]. lia.
  - constructor; [|constructor]. split; [cbn; lia|constructor].
  - reflexivity.
  - intros H. exfalso. apply H. reflexivity.
  - vm_compute. discriminate.
Qed.

Lemma Inv_tail a :
  Inv a -> a_sib a mod 64 <> 0 ->
  exists ws0 w, words (all_segs a) = ws0 ++ [w]
                /\ 0 <= w < 2 ^ (a_sib a mod 64).
Proof.
  intros HI Hm. destruct (Inv_bounds a HI) as (_ & _ & _ & Hlits).
  destruct HI as (_ & _ & _ & Htail & _).
  destruct (Htail Hm) as (l0 & w & Hl & Hw).
  rewrite Hl, Forall_app in Hlits. destruct Hlits as [_ Hw0].
  apply Forall_inv in Hw0.
  exists (words (a_init a)
          ++ replicate (Z.to_nat (rlen (a_last a)))
                       (run_word (rbit (a_last a))) ++ l0), w.
  split; [|split; [apply Hw0|exact Hw]].
  rewrite words_all. unfold words_seg. rewrite Hl, <- !app_assoc. reflexivity.
Qed.

(** ** [Not] on a bitmap that satisfies the invariant *)

Section NotBuilt.

Variables (a : abs) (junk : list Z) (adj : bool).

Hypothesis HI : Inv a.

Let ss := all_segs a.

Let sib := a_sib a.

Let p := Z.of_nat (length (encode (a_init a))).

Let b := conc a junk adj.

Let b' := st (encode (not_segs (sib mod 64) ss)) junk sib p adj.

Lemma built_total : total ss <= 2 ^ 25.
Proof.
  destruct (Inv_bounds a HI) as (_ & _ & Hlen & _).
  destruct HI as (_ & Hok & _). unfold ss. rewrite total_words; assumption.
Qed.

Lemma built_tail : sib mod 64 <> 0 -> tail_has_literal ss.
Proof.
  intros Hm. apply tail_has_literal_snoc.
  destruct HI as (_ & _ & _ & Htail & _).
  destruct (Htail Hm) as (l0 & w & -> & _). destruct l0; discriminate.
Qed.

Lemma built_Cardinality : Cardinality b = Ok (card ss, b).
Proof.
  unfold b. rewrite conc_buffer. apply Cardinality_ok.
  - apply ok_wf_mark; [apply HI|apply built_total].
  - pose proof built_total. fold ss. lia.
Qed.

Lemma built_Not : Not b = Ok (tt, b').
Proof.
  unfold b. rewrite conc_buffer. apply Not_ok.
  - unfold all_segs. destruct (a_init a); discriminate.
  - apply ok_wf_mark; [apply HI|apply built_total].
  - apply HI.
  - apply built_tail.
Qed.

Lemma not_segs_seg_ok : Forall seg_ok (not_segs (sib mod 64) ss).
Proof. apply not_segs_ok; [zlia|apply HI]. Qed.

Lemma not_segs_words :
  words (not_segs (sib mod 64) ss) = not_words (sib mod 64) (words ss).
Proof.
  apply words_not_segs; [|apply built_tail].
  unfold ss, all_segs. destruct (a_init a); discriminate.
Qed.

Lemma built_Cardinality_Not : Cardinality b' = Ok (sib - card ss, b').
Proof.
  pose proof built_total as Htot. pose proof not_segs_seg_ok as Hok'.
  unfold b'. rewrite Cardinality_ok.
  - rewrite (card_words _ Hok'), not_segs_words.
    destruct HI as (Hsib & Hok & Hlen & _).
    rewrite sum_popcount_not_words, <- card_words; try assumption.
    + reflexivity.
    + apply Hsib.
    + apply Inv_tail. exact HI.
  - apply ok_wf_mark; [assumption|].
    rewrite not_segs_total by apply built_tail. exact Htot.
  - rewrite not_segs_total by apply built_tail. lia.
Qed.

Lemma built_Get j :
  0 <= j < sib -> Get j b = Ok (bitw (words ss) j, b).
Proof.
  intros Hj. pose proof built_total. destruct HI as (Hsib & Hok & Hlen & _).
  unfold b. rewrite conc_buffer. apply Get_bitw; try assumption.
  - unfold sib in Hj. lia.
  - rewrite Hlen. unfold sib in Hj. zlia.
Qed.

Lemma built_Get_Not j :
  0 <= j < sib -> bitw (words ss) j = true -> Get j b' = Ok (false, b').
Proof.
  intros Hj Hbit. pose proof built_total as Htot.
  pose proof not_segs_seg_ok as Hok'.
  destruct HI as (Hsib & Hok & Hlen & _).
  change (Z.of_nat (length (words ss)) = (sib + 63) / 64) in Hlen.
  change (0 <= sib <= MaxInt32 - 63) in Hsib.
  assert (Hne : sib mod 64 <> 0 -> words ss <> []).
  { intros Hm. apply words_tail; [|apply built_tail; exact Hm].
    unfold ss, all_segs. destruct (a_init a); discriminate. }
  unfold b'. rewrite Get_bitw.
  - rewrite not_segs_words, bitw_not_words; try assumption; try reflexivity.
    + lia.
    + zlia.
  - exact Hok'.
  - rewrite not_segs_total by apply built_tail. exact Htot.
  - lia.
  - rewrite not_segs_words, not_words_length, Hlen by exact Hne. zlia.
Qed.

End NotBuilt.

(** C5. [Not] after ascending [Set] calls.  For every list [l] of indices
    that successive [Set] calls accept (non-negative, strictly ascending,
    at most [MaxInt32 - 64]), [New] followed by [Set] on each index
    returns a bitmap [b]; on [b], [Cardinality] returns some [c], [Size]
    returns some [s] and [Not] returns; every index of [l] reads [true]
    before [Not] and [false] after it, and [Cardinality] after [Not]
    returns [s - c]. *)
Theorem Not_after_ascending_Sets (l : list Z) :
  ascending l = true ->
  exists b c s b',
    fromList l = Ok b
    /\ eval Cardinality b = Ok c
    /\ eval Size b = Ok s
    /\ exec Not b = Ok b'
    /\ (forall i, In i l ->
          eval (Get i) b = Ok true /\ eval (Get i) b' = Ok false)
    /\ eval Cardinality b' = Ok (s - c).
Proof.
  intros Hasc.
  destruct (setEach_runs true l empty_abs [0; 0; 0] Inv_empty)
    as (a & junk & Hrun & HI & _ & Hsib & _ & Hset).
  - vm_compute. discriminate.
  - exact Hasc.
  - exists (conc a junk true), (card (all_segs a)), (a_sib a).
    eexists. split; [|split; [|split; [|split; [|split]]]].
    + unfold fromList. rewrite New_fresh. cbn [andThen].
      rewrite fresh_conc. exact Hrun.
    + unfold eval. rewrite (built_Cardinality a junk true HI). reflexivity.
    + reflexivity.
    + unfold exec. rewrite (built_Not a junk true HI). reflexivity.
    + intros i Hin. destruct (Hset i Hin) as [Hlt Hbit].
      assert (Hi : 0 <= i < a_sib a).
      { split; [|exact Hlt].
        apply (ascending_from_le 0 l i Hasc Hin). }
      unfold eval.
      rewrite (built_Get a junk true HI i Hi), Hbit.
      rewrite (built_Get_Not a junk true HI i Hi Hbit). split; reflexivity.
    + unfold eval. rewrite (built_Cardinality_Not a junk true HI).
      reflexivity.
Qed.

Lemma Not_after_ascending_Sets_witness :
  exists b c s b',
    fromList [10; 100; 10000] = Ok b
    /\ eval Cardinality b = Ok c
    /\ eval Size b = Ok s
    /\ exec Not b = Ok b'
    /\ (forall i, In i [10; 100; 10000] ->
          eval (Get i) b = Ok true /\ eval (Get i) b' = Ok false)
    /\ eval Cardinality b' = Ok (s - c).
Proof. apply (Not_after_ascending_Sets [10; 100; 10000]). reflexivity. Defined.

(** * Further properties of the code *)

(** ** Exact bits and population count after [Set] *)

Lemma bitw_none ws j :
  0 <= j -> Z.of_nat (length ws) <= j / 64 -> bitw ws j = false.
Proof.
  intros Hj Hlen. unfold bitw. rewrite lookup_ge_None_2 by lia. reflexivity.
Qed.

Lemma same_word_eqb i j :
  0 <= i -> 0 <= j -> j / 64 = i / 64 -> (j mod 64 =? i mod 64) = (j =? i).
Proof.
  intros Hi Hj Hq.
  destruct (Z.eqb_spec (j mod 64) (i mod 64)), (Z.eqb_spec j i);
    try reflexivity; exfalso; zlia.
Qed.

Section SetExact.

Variables (a : abs) (i : Z).

Hypothesis HI : Inv a.

Hypothesis Hi : a_sib a <= i <= MaxInt32 - 64.

Lemma Set_bits j :
  0 <= j ->
  bitw (words (all_segs (abs_Set i a))) j
  = bitw (words (all_segs a)) j || (j =? i).
Proof.
  intros Hj.
  assert (HM : MaxInt32 = 2147483647) by reflexivity.
  pose proof HI as (Hsib & Hok & Hlen & Htail & Hsz).
  assert (Hr : 0 <= i mod 64 < 64) by zlia.
  assert (Hq : 0 <= j / 64) by zlia.
  assert (Hqi : 0 <= i / 64) by zlia.
  destruct (Z.lt_ge_cases 0 ((i + 64) / 64 - (a_sib a + 63) / 64)) as [Hd|Hd].
  - destruct (Set_far a i HI Hi Hd) as (Hws & _ & _). rewrite Hws.
    set (ws := words (all_segs a)) in *.
    set (n := Z.to_nat ((i + 64) / 64 - (a_sib a + 63) / 64 - 1)).
    assert (Hn : Z.of_nat (length ws) + Z.of_nat n = i / 64)
      by (unfold n; rewrite Z2Nat.id, Hlen by lia; clear; zlia).
    destruct (Z.lt_ge_cases (j / 64) (Z.of_nat (length ws))) as [Hlow|Hhigh].
    + assert (Hne : (j =? i) = false) by (apply Z.eqb_neq; zlia).
      rewrite Hne, orb_false_r. unfold bitw.
      rewrite lookup_app_l by lia. reflexivity.
    + rewrite (bitw_none ws j) by lia. cbn [orb].
      destruct (Z.lt_trichotomy (j / 64) (i / 64)) as [Hlt|[Heq|Hgt]].
      * assert (Hne : (j =? i) = false) by (apply Z.eqb_neq; zlia).
        rewrite Hne. unfold bitw.
        rewrite lookup_app_r, lookup_app_l by (rewrite ?length_replicate; lia).
        rewrite lookup_replicate_2 by lia. apply Z.testbit_0_l.
      * rewrite app_assoc, bitw_at
          by (rewrite ?length_app, ?length_replicate; lia).
        rewrite Z.pow2_bits_eqb by lia.
        rewrite Z.eqb_sym. apply same_word_eqb; lia.
      * assert (Hne : (j =? i) = false) by (apply Z.eqb_neq; zlia).
        rewrite Hne. apply bitw_none; [lia|].
        rewrite !length_app, length_replicate. cbn [length]. lia.
  - destruct (Set_near a i HI Hi) as (ws0 & w & Hws & Hws' & _ & _); [lia|].
    rewrite Hws, Hws'.
    assert (Hl0 : Z.of_nat (length ws0) = i / 64).
    { rewrite Hws, length_app in Hlen. cbn [length] in Hlen. zlia. }
    destruct (Z.lt_trichotomy (j / 64) (i / 64)) as [Hlt|[Heq|Hgt]].
    + assert (Hne : (j =? i) = false) by (apply Z.eqb_neq; zlia).
      rewrite Hne, orb_false_r. unfold bitw.
      rewrite !lookup_app_l by lia. reflexivity.
    + rewrite !bitw_at by lia. rewrite Z.lor_spec, Z.pow2_bits_eqb by lia.
      f_equal. rewrite Z.eqb_sym. apply same_word_eqb; lia.
    + assert (Hne : (j =? i) = false) by (apply Z.eqb_neq; zlia).
      rewrite Hne, orb_false_r.
      rewrite !bitw_none by (rewrite ?length_app; cbn [length]; lia).
      reflexivity.
Qed.

End SetExact.

Lemma popcount_upto_0 n : popcount_upto n 0 = 0.
Proof.
  induction n as [|n IH]; [reflexivity|].
  cbn [popcount_upto]. rewrite IH, Z.testbit_0_l. reflexivity.
Qed.

Lemma popcount_upto_lor n w r :
  0 <= r -> Z.testbit w r = false ->
  popcount_upto n (Z.lor w (2 ^ r))
  = popcount_upto n w + (if r <? Z.of_nat n then 1 else 0).
Proof.
  intros Hr Hw. induction n as [|n IH].
  - cbn [popcount_upto]. destruct (Z.ltb_spec r (Z.of_nat 0)); lia.
  - cbn [popcount_upto]. rewrite IH, Z.lor_spec, Z.pow2_bits_eqb by lia.
    destruct (Z.eqb_spec r (Z.of_nat n)) as [->|Hne].
    + rewrite Hw. cbn [orb Z.b2z].
      destruct (Z.ltb_spec (Z.of_nat n) (Z.of_nat n)),
               (Z.ltb_spec (Z.of_nat n) (Z.of_nat (S n))); lia.
    + rewrite orb_false_r.
      destruct (Z.ltb_spec r (Z.of_nat n)), (Z.ltb_spec r (Z.of_nat (S n)));
        lia.
Qed.

Lemma popcount_lor w r :
  0 <= r < 64 -> Z.testbit w r = false ->
  popcount_3 (Z.lor w (2 ^ r)) = popcount_3 w + 1.
Proof.
  intros Hr Hw. unfold popcount_3. rewrite popcount_upto_lor by (lia || exact Hw).
  destruct (Z.ltb_spec r (Z.of_nat 64)); lia.
Qed.

Lemma popcount_bit r : 0 <= r < 64 -> popcount_3 (2 ^ r) = 1.
Proof.
  intros Hr. rewrite <- (Z.lor_0_l (2 ^ r)).
  rewrite popcount_lor by (lia || apply Z.testbit_0_l).
  unfold popcount_3. rewrite popcount_upto_0. reflexivity.
Qed.

Lemma sum_popcount_zeros n : sum_popcount (replicate n 0) = 0.
Proof. exact (sum_popcount_replicate n false). Qed.

Lemma Set_count a i :
  Inv a -> a_sib a <= i <= MaxInt32 - 64 ->
  sum_popcount (words (all_segs (abs_Set i a)))
  = sum_popcount (words (all_segs a)) + 1.
Proof.
  intros HI Hi.
  assert (HM : MaxInt32 = 2147483647) by reflexivity.
  pose proof HI as (Hsib & Hok & Hlen & Htail & Hsz).
  assert (Hr : 0 <= i mod 64 < 64) by zlia.
  destruct (Z.lt_ge_cases 0 ((i + 64) / 64 - (a_sib a + 63) / 64)) as [Hd|Hd].
  - destruct (Set_far a i HI Hi Hd) as (Hws & _ & _). rewrite Hws.
    rewrite !sum_popcount_app, sum_popcount_zeros.
    unfold sum_popcount at 2. cbn [fold_right].
    rewrite popcount_bit by lia. lia.
  - destruct (Set_near a i HI Hi) as (ws0 & w & Hws & Hws' & _ & _); [lia|].
    assert (Hm : a_sib a mod 64 <> 0) by zlia.
    destruct (Inv_tail a HI Hm) as (ws1 & w1 & Hws1 & Hw1).
    rewrite Hws in Hws1. apply app_inj_tail in Hws1 as [_ <-].
    rewrite Hws, Hws', !sum_popcount_snoc, popcount_lor; [lia|lia|].
    apply (high_bit w (a_sib a mod 64)); [exact Hw1|zlia].
Qed.

(** ** A run of [Set] calls on segments *)

Lemma last_cons_default (x : Z) l d : List.last (x :: l) d = List.last l x.
Proof.
  revert x d. induction l as [|y l IH]; intros x d; [reflexivity|].
  change (List.last (x :: y :: l) d) with (List.last (y :: l) d).
  rewrite !IH. reflexivity.
Qed.

Lemma abs_setEach_spec l :
  forall a,
    Inv a -> ascending_from (a_sib a) l = true ->
    Inv (abs_setEach l a)
    /\ a_sib (abs_setEach l a) = List.last (map Z.succ l) (a_sib a)
    /\ a_sib a <= a_sib (abs_setEach l a)
    /\ (forall j, 0 <= j ->
          bitw (words (all_segs (abs_setEach l a))) j
          = bitw (words (all_segs a)) j || mem j l)
    /\ sum_popcount (words (all_segs (abs_setEach l a)))
       = sum_popcount (words (all_segs a)) + Z.of_nat (length l)
    /\ (forall j, mem j l = true -> a_sib a <= j < a_sib (abs_setEach l a)).
Proof.
  induction l as [|i l IH]; intros a HI Hasc.
  - cbn [abs_setEach fold_left map List.last length mem existsb].
    split; [exact HI|]. split; [reflexivity|]. split; [lia|].
    split; [intros; apply eq_sym, orb_false_r|]. split; [lia|].
    intros j Hj. discriminate.
  - cbn [ascending_from] in Hasc.
    apply andb_prop in Hasc as [Hasc Hl]. apply andb_prop in Hasc as [Hlo Hhi].
    apply Z.leb_le in Hlo, Hhi.
    destruct (Set_pure a i HI) as (HI1 & Hsib1 & _ & _); [lia|].
    rewrite <- Hsib1 in Hl.
    destruct (IH _ HI1 Hl) as (HI' & Hlast & Hle & Hbits & Hcount & Hmem).
    change (abs_setEach (i :: l) a) with (abs_setEach l (abs_Set i a)).
    split; [exact HI'|]. split.
    { rewrite Hlast, Hsib1. cbn [map]. rewrite last_cons_default.
      reflexivity. }
    split; [lia|]. split.
    { intros j Hj. rewrite Hbits, Set_bits by (assumption || lia).
      cbn [mem existsb]. rewrite orb_assoc. reflexivity. }
    split.
    { rewrite Hcount, Set_count by (assumption || lia).
      cbn [length]. lia. }
    intros j Hj. cbn [mem existsb] in Hj. apply orb_prop in Hj as [Hj|Hj].
    + apply Z.eqb_eq in Hj. subst j. lia.
    + specialize (Hmem j Hj). lia.
Qed.

Lemma setEach_abs adj l :
  forall a junk,
    Inv a -> Small a junk -> ascending_from (a_sib a) l = true ->
    exists junk',
      setEach l (conc a junk adj) = Ok (conc (abs_setEach l a) junk' adj)
      /\ Small (abs_setEach l a) junk'.
Proof.
  induction l as [|i l IH]; intros a junk HI Hsmall Hasc.
  - exists junk. split; [reflexivity|exact Hsmall].
  - cbn [ascending_from] in Hasc.
    apply andb_prop in Hasc as [Hasc Hl]. apply andb_prop in Hasc as [Hlo Hhi].
    apply Z.leb_le in Hlo, Hhi.
    destruct (Set_step a junk adj i HI Hsmall) as (junk1 & Hrun & Hsmall1);
      [lia|].
    destruct (Set_pure a i HI) as (HI1 & Hsib1 & _ & _); [lia|].
    rewrite <- Hsib1 in Hl.
    destruct (IH _ junk1 HI1 Hsmall1 Hl) as (junk' & Hrun' & Hsmall').
    exists junk'. rewrite setEach_cons. unfold exec at 1. rewrite Hrun.
    cbn [andThen]. split; [exact Hrun'|exact Hsmall'].
Qed.

(** ** Bitmaps built by [Set] calls, read back *)

Lemma fromList_conc l :
  ascending l = true ->
  exists junk,
    fromList l = Ok (conc (abs_setEach l empty_abs) junk true)
    /\ Small (abs_setEach l empty_abs) junk.
Proof.
  intros Hasc.
  destruct (setEach_abs true l empty_abs [0; 0; 0] Inv_empty)
    as (junk & Hrun & Hsmall).
  - vm_compute. discriminate.
  - exact Hasc.
  - exists junk. split; [|exact Hsmall].
    unfold fromList. rewrite New_fresh. cbn [andThen].
    rewrite fresh_conc. exact Hrun.
Qed.

Lemma Get_outside j e :
  j < 0 \/ sizeInBits e < j -> Get j e = Ok (false, e).
Proof.
  intros Hj. unfold Get, bind, gets. cbn.
  destruct (Z.ltb_spec j 0) as [|Hge]; [reflexivity|].
  destruct (Z.gtb_spec j (sizeInBits e)); [reflexivity|lia].
Qed.

Lemma bitw_empty j : bitw (words (all_segs empty_abs)) j = false.
Proof.
  unfold bitw. change (words (all_segs empty_abs)) with (@nil Z).
  rewrite lookup_nil. reflexivity.
Qed.

Lemma mem_false j l : (forall k, mem k l = true -> k <> j) -> mem j l = false.
Proof.
  intros H. destruct (mem j l) eqn:Hm; [|reflexivity].
  exfalso. exact (H j Hm eq_refl).
Qed.

(** X1. Reading back.  For indices that successive [Set] calls accept,
    [New] and the [Set] calls return a bitmap on which [Get j] says
    whether [j] is one of the indices and leaves the bitmap as it is,
    for every [j] but one: [j = Size()] when [Size()] is a multiple of
    64. *)
Theorem Get_after_Sets (l : list Z) :
  ascending l = true ->
  exists b,
    fromList l = Ok b
    /\ forall j, j <> sizeInBits b \/ sizeInBits b mod 64 <> 0 ->
                 Get j b = Ok (mem j l, b).
Proof.
  intros Hasc. destruct (fromList_conc l Hasc) as (junk & Hb & _).
  destruct (abs_setEach_spec l empty_abs Inv_empty Hasc)
    as (HI & _ & _ & Hbits & _ & Hmem).
  set (a := abs_setEach l empty_abs) in *.
  exists (conc a junk true). split; [exact Hb|].
  change (sizeInBits (conc a junk true)) with (a_sib a).
  change (a_sib empty_abs) with 0 in Hmem.
  intros j Hj.
  destruct (Z.lt_ge_cases j 0) as [Hneg|Hpos].
  { rewrite Get_outside by (left; exact Hneg).
    rewrite mem_false; [reflexivity|]. intros k Hk. specialize (Hmem k Hk). lia. }
  destruct (Z.lt_trichotomy j (a_sib a)) as [Hlt|[Heq|Hgt]].
  - rewrite (built_Get a junk true HI j) by lia.
    rewrite Hbits, bitw_empty by lia. reflexivity.
  - assert (Hm : a_sib a mod 64 <> 0) by (destruct Hj; [lia|assumption]).
    pose proof (built_total a HI) as Htot.
    pose proof HI as (Hsib & Hok & Hlen & _).
    rewrite conc_buffer, Get_bitw; try assumption.
    + rewrite Hbits, bitw_empty by lia. reflexivity.
    + lia.
    + rewrite Hlen. subst j. zlia.
  - change (a_sib a) with (sizeInBits (conc a junk true)) in Hgt.
    rewrite Get_outside by (right; exact Hgt).
    rewrite mem_false; [reflexivity|]. intros k Hk. specialize (Hmem k Hk).
    change (sizeInBits (conc a junk true)) with (a_sib a) in Hgt. lia.
Qed.

Lemma Get_after_Sets_witness :
  exists b,
    fromList [10; 100; 10000] = Ok b
    /\ forall j, j <> sizeInBits b \/ sizeInBits b mod 64 <> 0 ->
                 Get j b = Ok (mem j [10; 100; 10000], b).
Proof. apply (Get_after_Sets [10; 100; 10000]). reflexivity. Defined.

(** X2. Counting.  On the bitmap that [New] and accepted [Set] calls
    build, [Cardinality] returns the number of calls and leaves the
    bitmap as it is. *)
Theorem Cardinality_after_Sets (l : list Z) :
  ascending l = true ->
  exists b,
    fromList l = Ok b
    /\ Cardinality b = Ok (Z.of_nat (length l), b).
Proof.
  intros Hasc. destruct (fromList_conc l Hasc) as (junk & Hb & _).
  destruct (abs_setEach_spec l empty_abs Inv_empty Hasc)
    as (HI & _ & _ & _ & Hcount & _).
  exists (conc (abs_setEach l empty_abs) junk true). split; [exact Hb|].
  rewrite (built_Cardinality _ junk true HI).
  rewrite card_words by apply HI. rewrite Hcount. reflexivity.
Qed.

Lemma Cardinality_after_Sets_witness :
  exists b,
    fromList [10; 100; 10000] = Ok b
    /\ Cardinality b = Ok (Z.of_nat (length [10; 100; 10000]), b).
Proof. apply (Cardinality_after_Sets [10; 100; 10000]). reflexivity. Defined.

(** X3. Sizes.  On the bitmap that [New] and accepted [Set] calls build,
    [Size()] is one more than the last index (0 when there is none), and
    the words in use are at least one, at most twice the 64-bit words
    that [Size()] bits need plus one, and never more than the buffer
    holds. *)
Theorem Size_after_Sets (l : list Z) :
  ascending l = true ->
  exists b,
    fromList l = Ok b
    /\ sizeInBits b = List.last (map Z.succ l) 0
    /\ 1 <= actualSizeInWords b <= 2 * ((sizeInBits b + 63) / 64) + 1
    /\ actualSizeInWords b <= Z.of_nat (length (buffer b)).
Proof.
  intros Hasc. destruct (fromList_conc l Hasc) as (junk & Hb & _).
  destruct (abs_setEach_spec l empty_abs Inv_empty Hasc)
    as (HI & Hlast & _).
  set (a := abs_setEach l empty_abs) in *.
  exists (conc a junk true). split; [exact Hb|].
  split; [exact Hlast|].
  destruct HI as (_ & _ & Hlen & _ & Hsz).
  assert (H1 : 1 <= size_w a).
  { rewrite size_w_eq. cbn [length]. lia. }
  rewrite conc_buffer. cbn [st actualSizeInWords sizeInBits buffer].
  rewrite length_app. unfold size_w in *. lia.
Qed.

Lemma Size_after_Sets_witness :
  exists b,
    fromList [10; 100; 10000] = Ok b
    /\ sizeInBits b = List.last (map Z.succ [10; 100; 10000]) 0
    /\ 1 <= actualSizeInWords b <= 2 * ((sizeInBits b + 63) / 64) + 1
    /\ actualSizeInWords b <= Z.of_nat (length (buffer b)).
Proof. apply (Size_after_Sets [10; 100; 10000]). reflexivity. Defined.

(** ** [Not] twice *)

Lemma not_segs_cons lb s ss :
  ss <> [] -> not_segs lb (s :: ss) = flip_seg s :: not_segs lb ss.
Proof. destruct ss; [congruence|reflexivity]. Qed.

Lemma not_segs_snoc lb init s :
  not_segs lb (init ++ [s]) = map flip_seg init ++ [not_last lb s].
Proof.
  induction init as [|x init IH]; [reflexivity|].
  cbn [app map]. rewrite not_segs_cons, IH; [reflexivity|].
  destruct init; discriminate.
Qed.

Lemma not64_not64 w : not64 (not64 w) = w.
Proof.
  unfold not64. rewrite Z.lxor_assoc, Z.lxor_nilpotent. apply Z.lxor_0_r.
Qed.

Lemma map_not64_not64 ls : map not64 (map not64 ls) = ls.
Proof.
  induction ls as [|w ls IH]; [reflexivity|].
  cbn [map]. rewrite not64_not64, IH. reflexivity.
Qed.

Lemma flip_seg_flip_seg s : flip_seg (flip_seg s) = s.
Proof.
  destruct s as [rb rl ls]. unfold flip_seg. cbn [rbit rlen lits].
  rewrite negb_involutive, map_not64_not64. reflexivity.
Qed.

Lemma mask_not_mask w lb :
  0 < lb < 64 -> 0 <= w < 2 ^ lb ->
  Z.land (not64 (Z.land (not64 w) (Z.ones lb))) (Z.ones lb) = w.
Proof.
  intros Hlb Hw. apply Z.bits_inj'. intros k Hk.
  rewrite Z.land_spec, ones_bit by lia.
  destruct (Z.leb_spec 0 k); [|lia]. cbn [andb].
  destruct (Z.ltb_spec k lb) as [Hlow|Hhigh].
  - rewrite andb_true_r, not64_bit, Z.land_spec, not64_bit, ones_bit by lia.
    destruct (Z.leb_spec 0 k); [|lia]. destruct (Z.ltb_spec k lb); [|lia].
    cbn [andb]. rewrite andb_true_r. apply negb_involutive.
  - rewrite andb_false_r. apply eq_sym, (high_bit w lb); assumption.
Qed.

Lemma not_last_not_last lb s :
  0 <= lb < 64 ->
  (lb <> 0 -> exists l0 w, lits s = l0 ++ [w] /\ 0 <= w < 2 ^ lb) ->
  not_last lb (not_last lb s) = s.
Proof.
  intros Hlb Htail. unfold not_last.
  destruct (Z.eqb_spec lb 0) as [Hz|Hnz]; [apply flip_seg_flip_seg|].
  destruct (Htail Hnz) as (l0 & w & Hl & Hw).
  destruct s as [rb rl ls]. cbn [rbit rlen lits] in *. subst ls.
  rewrite negb_involutive. f_equal.
  rewrite map_app. cbn [map]. rewrite mask_last_snoc.
  rewrite map_app. cbn [map]. rewrite mask_last_snoc.
  rewrite map_not64_not64, mask_not_mask by lia. reflexivity.
Qed.

Lemma map_flip_flip ss : map flip_seg (map flip_seg ss) = ss.
Proof.
  induction ss as [|s ss IH]; [reflexivity|].
  cbn [map]. rewrite flip_seg_flip_seg, IH. reflexivity.
Qed.

Lemma not_segs_twice a :
  Inv a ->
  not_segs (a_sib a mod 64) (not_segs (a_sib a mod 64) (all_segs a))
  = all_segs a.
Proof.
  intros HI. unfold all_segs. rewrite !not_segs_snoc.
  rewrite map_flip_flip, not_last_not_last; [reflexivity|zlia|].
  intros Hm. destruct (Inv_bounds a HI) as (_ & _ & _ & Hlits).
  destruct HI as (_ & _ & _ & Htail & _).
  destruct (Htail Hm) as (l0 & w & Hl & Hw). exists l0, w.
  split; [exact Hl|]. split; [|exact Hw].
  rewrite Hl, Forall_app in Hlits. destruct Hlits as [_ Hw0].
  apply Forall_inv in Hw0. apply Hw0.
Qed.

Lemma not_segs_tail a :
  a_sib a mod 64 <> 0 ->
  tail_has_literal (not_segs (a_sib a mod 64) (all_segs a)).
Proof.
  intros Hm. unfold all_segs. rewrite not_segs_snoc.
  apply tail_has_literal_snoc. unfold not_last.
  destruct (Z.eqb_spec (a_sib a mod 64) 0) as [Hz|_]; [contradiction|].
  cbn [lits]. unfold mask_last. intros He. apply app_eq_nil in He.
  destruct He as [_ He]. discriminate.
Qed.

Lemma Not_Not_built a junk adj :
  Inv a ->
  exists e,
    Not (conc a junk adj) = Ok (tt, e)
    /\ Not e = Ok (tt, conc a junk adj)
    /\ sizeInBits e = a_sib a
    /\ actualSizeInWords e = actualSizeInWords (conc a junk adj).
Proof.
  intros HI. pose proof (built_total a HI) as Htot.
  pose proof (built_tail a HI) as Htail.
  pose proof (not_segs_seg_ok a HI) as Hok'.
  eexists. split; [apply (built_Not a junk adj HI)|]. split.
  - rewrite Not_ok.
    + rewrite not_segs_twice, <- conc_buffer by exact HI. reflexivity.
    + unfold all_segs. rewrite not_segs_snoc.
      destruct (map flip_seg (a_init a)); discriminate.
    + apply ok_wf_mark; [exact Hok'|].
      rewrite not_segs_total by exact Htail. exact Htot.
    + apply HI.
    + apply not_segs_tail.
  - split; [reflexivity|]. rewrite conc_buffer.
    cbn [st actualSizeInWords].
    f_equal. unfold all_segs. rewrite not_segs_snoc, !encode_snoc.
    rewrite !length_app. f_equal.
    + induction (a_init a) as [|s ss IH]; [reflexivity|].
      cbn [map encode]. rewrite !length_app, IH. f_equal.
      unfold enc. cbn [length flip_seg lits]. rewrite length_map. reflexivity.
    + unfold enc, not_last. cbn [length].
      destruct (Z.eqb_spec (a_sib a mod 64) 0) as [Hz|Hnz].
      * cbn [flip_seg lits]. rewrite length_map. reflexivity.
      * cbn [lits]. destruct HI as (_ & _ & _ & Ht & _).
        destruct (Ht Hnz) as (l0 & w & -> & _).
        rewrite map_app. cbn [map]. rewrite mask_last_snoc, !length_app, length_map.
        reflexivity.
Qed.

(** X4. [Not] twice.  On the bitmap that [New] and accepted [Set] calls
    build, [Not] returns, [Size()] and the number of words in use stay
    as they are, and a second [Not] gives back the bitmap, word for
    word. *)
Theorem Not_Not_after_Sets (l : list Z) :
  ascending l = true ->
  exists b b',
    fromList l = Ok b
    /\ exec Not b = Ok b'
    /\ exec Not b' = Ok b
    /\ sizeInBits b' = sizeInBits b
    /\ actualSizeInWords b' = actualSizeInWords b.
Proof.
  intros Hasc. destruct (fromList_conc l Hasc) as (junk & Hb & _).
  destruct (abs_setEach_spec l empty_abs Inv_empty Hasc) as (HI & _).
  destruct (Not_Not_built _ junk true HI) as (e & H1 & H2 & H3 & H4).
  exists (conc (abs_setEach l empty_abs) junk true), e.
  split; [exact Hb|]. unfold exec. rewrite H1, H2.
  split; [reflexivity|]. split; [reflexivity|]. split; assumption.
Qed.

Lemma Not_Not_after_Sets_witness :
  exists b b',
    fromList [10; 100; 10000] = Ok b
    /\ exec Not b = Ok b'
    /\ exec Not b' = Ok b
    /\ sizeInBits b' = sizeInBits b
    /\ actualSizeInWords b' = actualSizeInWords b.
Proof. apply (Not_Not_after_Sets [10; 100; 10000]). reflexivity. Defined.

(** ** Reading after [Not] *)

Lemma bitw_not_words_below sib ws j :
  0 <= j < sib ->
  Z.of_nat (length ws) = (sib + 63) / 64 ->
  bitw (not_words (sib mod 64) ws) j = negb (bitw ws j).
Proof.
  intros Hj Hlen. unfold bitw, not_words.
  assert (Hr : 0 <= j mod 64 < 64) by zlia.
  assert (Hq : (Z.to_nat (j / 64) < length ws)%nat) by zlia.
  destruct (lookup_lt_is_Some_2 ws _ Hq) as [w Hw]. rewrite Hw.
  destruct (Z.eqb_spec (sib mod 64) 0) as [Hz|Hnz].
  - rewrite list_lookup_fmap, Hw. cbn. apply not64_bit. lia.
  - destruct ws as [|x ws0] using rev_ind; [cbn in Hq; lia|]. clear IHws0.
    rewrite length_app in Hlen, Hq. cbn [length] in Hlen, Hq.
    rewrite map_app. cbn [map]. rewrite mask_last_snoc.
    apply lookup_app_Some in Hw as [Hw|[Hge Hw]].
    + rewrite lookup_app_l by (rewrite length_map; eapply lookup_lt_Some; exact Hw).
      rewrite list_lookup_fmap, Hw. cbn. apply not64_bit. lia.
    + rewrite lookup_app_r by (rewrite length_map; lia).
      rewrite length_map.
      replace (Z.to_nat (j / 64) - length ws0)%nat with 0%nat in * by lia.
      cbn in Hw. injection Hw as ->. cbn.
      rewrite Z.land_spec, not64_bit, ones_bit by zlia.
      destruct (Z.leb_spec 0 (j mod 64)); [|lia].
      destruct (Z.ltb_spec (j mod 64) (sib mod 64)); [|zlia].
      cbn [andb]. apply andb_true_r.
Qed.

(** X5. Reading after [Not].  On the bitmap that [New] and accepted [Set]
    calls build, after [Not] every index below [Size()] reads the
    opposite of what it read before: [true] exactly when it was not
    set. *)
Theorem Get_after_Not (l : list Z) :
  ascending l = true ->
  exists b b',
    fromList l = Ok b
    /\ exec Not b = Ok b'
    /\ forall j, 0 <= j < sizeInBits b ->
                 Get j b' = Ok (negb (mem j l), b').
Proof.
  intros Hasc. destruct (fromList_conc l Hasc) as (junk & Hb & _).
  destruct (abs_setEach_spec l empty_abs Inv_empty Hasc)
    as (HI & _ & _ & Hbits & _).
  set (a := abs_setEach l empty_abs) in *.
  exists (conc a junk true). eexists. split; [exact Hb|].
  unfold exec. rewrite (built_Not a junk true HI). split; [reflexivity|].
  change (sizeInBits (conc a junk true)) with (a_sib a). intros j Hj.
  pose proof (built_total a HI) as Htot.
  pose proof (built_tail a HI) as Htail.
  pose proof (not_segs_seg_ok a HI) as Hok'.
  pose proof HI as (Hsib & Hok & Hlen & _).
  rewrite Get_bitw.
  - rewrite (not_segs_words a junk true HI), bitw_not_words_below by assumption.
    rewrite Hbits, bitw_empty by lia. reflexivity.
  - exact Hok'.
  - rewrite not_segs_total by exact Htail. exact Htot.
  - lia.
  - rewrite (not_segs_words a junk true HI), not_words_length, Hlen; [zlia|].
    intros Hm. apply words_tail; [|apply Htail; exact Hm].
    unfold all_segs. destruct (a_init a); discriminate.
Qed.

Lemma Get_after_Not_witness :
  exists b b',
    fromList [10; 100; 10000] = Ok b
    /\ exec Not b = Ok b'
    /\ forall j, 0 <= j < sizeInBits b ->
                 Get j b' = Ok (negb (mem j [10; 100; 10000]), b').
Proof. apply (Get_after_Not [10; 100; 10000]). reflexivity. Defined.

(** ** [pushBackMultiple] on a buffer that is full or has room *)

Lemma chunk_length data start n :
  0 <= start -> 0 <= n -> start + n <= Z.of_nat (length data) ->
  length (chunk data start n) = Z.to_nat n.
Proof.
  intros Hs Hn Hlen. unfold chunk. rewrite length_take, length_drop. lia.
Qed.

Lemma go_slice_chunk data start n :
  0 <= start -> 0 <= n -> start + n <= Z.of_nat (length data) ->
  Z.of_nat (length data) < 2 ^ 31 ->
  go_slice data start (i32 (start + n)) = Some (chunk data start n).
Proof.
  intros Hs Hn Hlen Hd. rewrite i32_small by lia. unfold go_slice, chunk.
  destruct (Z.leb_spec 0 start); [|lia].
  destruct (Z.leb_spec start (start + n)); [|lia].
  destruct (Z.leb_spec (start + n) (Z.of_nat (length data))); [|lia].
  cbn [andb]. replace (start + n - start) with n by lia. reflexivity.
Qed.

(** the second half of [pushBackMultiple], when there is room *)
Lemma place_chunk e pop rest data start n :
  buffer e = pop ++ rest ->
  0 <= start -> 0 <= n -> start + n <= Z.of_nat (length data) ->
  Z.of_nat (length data) < 2 ^ 31 ->
  n <= Z.of_nat (length rest) ->
  (buf <- gets buffer ;;
   dst <- lift (go_slice buf (Z.of_nat (length pop)) (Z.of_nat (length buf))) ;;
   src <- lift (go_slice data start (i32 (start + n))) ;;
   modify (set_buffer (take (Z.to_nat (Z.of_nat (length pop))) buf
                       ++ go_copy dst src)) ;;;
   modify (set_actualSizeInWords (Z.of_nat (length pop) + n))) e
  = Ok (tt, st (pop ++ chunk data start n) (drop (Z.to_nat n) rest)
              (sizeInBits e) (rlw e) (adjustContainerSizeWhenAggregating e)).
Proof.
  intros He Hs Hn Hlen Hd Hroom. unfold bind at 1, gets at 1. rewrite He.
  rewrite go_slice_drop by (rewrite length_app; lia).
  rewrite drop_app_length. unfold lift at 1, bind at 1.
  rewrite go_slice_chunk by assumption.
  unfold lift at 1, bind at 1. unfold bind, modify, go_copy.
  rewrite Nat2Z.id, take_app_length.
  pose proof (chunk_length data start n Hs Hn Hlen) as Hc.
  rewrite take_ge by lia. rewrite Hc.
  unfold st, set_actualSizeInWords, set_buffer. cbn.
  rewrite length_app, Hc, <- app_assoc.
  replace (Z.of_nat (length pop + Z.to_nat n)) with (Z.of_nat (length pop) + n)
    by lia.
  reflexivity.
Qed.

Lemma pushBackMultiple_st pop junk sib p adj data start n :
  0 <= start -> 0 <= n -> start + n <= Z.of_nat (length data) ->
  Z.of_nat (length data) < 2 ^ 31 ->
  Z.of_nat (length pop + length junk) + n < 2 ^ 29 ->
  junk = [] \/ n <= Z.of_nat (length junk) ->
  pushBackMultiple data start n (st pop junk sib p adj)
  = Ok (tt, st (pop ++ chunk data start n) (regrown (length pop) n junk)
              sib p adj).
Proof.
  intros Hs Hn Hlen Hd Hsmall Hroom. unfold pushBackMultiple.
  unfold bind at 1, gets at 1. unfold bind at 1, gets at 1.
  cbn [buffer actualSizeInWords st].
  rewrite length_app, i32_small by lia.
  destruct junk as [|x junk'].
  - rewrite Nat.add_0_r, Z.eqb_refl.
    set (m := Z.of_nat (length pop)).
    assert (Hm : 0 <= m /\ m + n < 2 ^ 29) by (cbn in Hsmall; lia).
    rewrite (i32_small (m + n)) by lia.
    assert (Hnew : (if m + n <? 32768 then i32 ((m + n) * 2)
                    else if Z.quot (i32 ((m + n) * 3)) 2 <? m + n then MaxInt32
                         else Z.quot (i32 ((m + n) * 3)) 2) = newCap (m + n)).
    { unfold newCap. rewrite !i32_small by lia.
      destruct (Z.ltb_spec (m + n) 32768); [reflexivity|].
      destruct (Z.ltb_spec (Z.quot ((m + n) * 3) 2) (m + n)); [zlia|reflexivity]. }
    rewrite Hnew. clear Hnew.
    assert (Hc : m + n <= newCap (m + n)).
    { unfold newCap. destruct (Z.ltb_spec (m + n) 32768); zlia. }
    set (c := newCap (m + n)) in *.
    erewrite bind_ok; cycle 1.
    { unfold go_make. destruct (Z.ltb_spec c 0); [lia|].
      unfold bind at 1, ret at 1, modify.
      rewrite app_nil_r, go_copy_grow by lia. reflexivity. }
    cbv beta. subst c m.
    erewrite place_chunk; [reflexivity|reflexivity|try assumption..].
    rewrite length_replicate. lia.
  - destruct Hroom as [|Hroom]; [discriminate|].
    destruct (Z.eqb_spec (Z.of_nat (length pop))
                (Z.of_nat (length pop + length (x :: junk'))));
      [cbn in *; lia|].
    erewrite bind_ok; [|reflexivity]. cbv beta.
    erewrite place_chunk; [reflexivity|reflexivity|assumption..].
Qed.

(** X6. [pushBackMultiple] appends [data[start : start+n]] after the words
    in use, and the buffer holds all of them, whenever the buffer is
    full or has room for the [n] words; it reallocates only in the first
    case. *)
Theorem pushBackMultiple_appends pop junk sib p adj data start n :
  0 <= start -> 0 <= n -> start + n <= Z.of_nat (length data) ->
  Z.of_nat (length data) < 2 ^ 31 ->
  Z.of_nat (length pop + length junk) + n < 2 ^ 29 ->
  junk = [] \/ n <= Z.of_nat (length junk) ->
  exists junk',
    pushBackMultiple data start n (st pop junk sib p adj)
    = Ok (tt, st (pop ++ chunk data start n) junk' sib p adj)
    /\ (junk <> [] -> junk' = drop (Z.to_nat n) junk).
Proof.
  intros Hs Hn Hlen Hd Hsmall Hroom.
  exists (regrown (length pop) n junk).
  split; [apply pushBackMultiple_st; assumption|].
  intros Hne. destruct junk; [congruence|reflexivity].
Qed.

Lemma pushBackMultiple_appends_witness :
  exists junk',
    pushBackMultiple [7; 8; 9] 1 2 (st [0] [0; 0; 0] 0 0 true)
    = Ok (tt, st ([0] ++ chunk [7; 8; 9] 1 2) junk' 0 0 true)
    /\ ([0; 0; 0] <> [] -> junk' = drop (Z.to_nat 2) [0; 0; 0]).
Proof.
  apply (pushBackMultiple_appends [0] [0; 0; 0] 0 0 true [7; 8; 9] 1 2);
    cbn; try lia.
Defined.

(** ** [Clone], [Copy] and [Reset] *)

Lemma go_copy_over (dst l k : list Z) :
  (length l <= length dst)%nat ->
  exists rest,
    go_copy dst (l ++ k) = l ++ rest
    /\ length (l ++ rest) = length dst.
Proof.
  intros Hl. unfold go_copy.
  rewrite take_app_ge by exact Hl.
  exists (take (length dst - length l) k ++ drop (length (l ++ k)) dst).
  rewrite <- app_assoc. split; [reflexivity|].
  rewrite !length_app, length_take, length_drop. lia.
Qed.

(** [Clone] returns a bitmap with the words in use, the size in bits and
    the position of the current marker of [this]; its buffer has 4
    words, or as many as are in use if these are more. *)
Lemma Clone_st pop junk sib p adj :
  Z.of_nat (length pop) < 2 ^ 31 ->
  exists junk',
    Clone (st pop junk sib p adj) = Ok (st pop junk' sib p true)
    /\ length (pop ++ junk') = Nat.max 4 (length pop).
Proof.
  intros Hlen. unfold Clone. rewrite New_fresh. unfold exec.
  cbn [actualSizeInWords st]. rewrite i32_small by lia.
  unfold reserve. unfold bind at 1. unfold bind at 1, gets at 1.
  cbn [buffer fresh length]. change (i32 (Z.of_nat 4)) with 4.
  destruct (Z.gtb_spec (Z.of_nat (length pop)) 4) as [Hbig|Hsmall].
  - unfold go_make. destruct (Z.ltb_spec (Z.of_nat (length pop)) 0); [lia|].
    unfold bind at 1, ret at 1. unfold bind at 1, modify at 1.
    unfold modify at 1. cbn [set_buffer set_rlw fresh buffer].
    rewrite Nat2Z.id.
    destruct (go_copy_over (go_copy (replicate (length pop) 0) [0; 0; 0; 0])
                pop junk) as (rest & Hcopy & Hrest).
    { unfold go_copy. rewrite !length_app, length_take, length_drop,
        length_replicate. cbn [length]. lia. }
    exists rest. unfold bind, gets, modify.
    cbn [buffer set_buffer set_actualSizeInWords set_sizeInBits set_rlw
         actualSizeInWords sizeInBits rlw adjustContainerSizeWhenAggregating
         st].
    rewrite Hcopy. split.
    + unfold st. reflexivity.
    + rewrite Hrest. unfold go_copy.
      rewrite !length_app, length_take, length_drop, length_replicate.
      cbn [length]. lia.
  - unfold ret at 1.
    destruct (go_copy_over [0; 0; 0; 0] pop junk) as (rest & Hcopy & Hrest).
    { cbn [length]. lia. }
    exists rest. unfold bind, gets, modify.
    cbn [buffer set_buffer set_actualSizeInWords set_sizeInBits set_rlw
         actualSizeInWords sizeInBits rlw adjustContainerSizeWhenAggregating
         st fresh].
    rewrite Hcopy. split.
    + unfold st. reflexivity.
    + rewrite Hrest. cbn [length]. lia.
Qed.

(** [this.Copy(o)] gives [this] the words in use, the size in bits and
    the position of the current marker of [o], in a buffer with no word
    to spare; [this] keeps its own [adjustContainerSizeWhenAggregating]. *)
Lemma Copy_st pop junk sib p adj (this : Ewah) :
  Copy (Other (st pop junk sib p adj)) this
  = Ok (tt, st pop [] sib p (adjustContainerSizeWhenAggregating this)).
Proof.
  unfold Copy, field. unfold bind at 1, ret at 1.
  unfold go_make. cbn [actualSizeInWords st].
  destruct (Z.ltb_spec (Z.of_nat (length pop)) 0); [lia|].
  unfold bind, ret, modify, gets, go_copy.
  cbn [buffer set_buffer set_actualSizeInWords set_sizeInBits set_rlw
       actualSizeInWords sizeInBits rlw adjustContainerSizeWhenAggregating st].
  rewrite Nat2Z.id, length_replicate, take_app_length.
  rewrite drop_ge by (rewrite length_replicate, length_app; lia).
  reflexivity.
Qed.

(** ** Bitmaps that hold a given list of indices *)

Lemma Holds_empty : Holds empty_abs [].
Proof.
  split; [exact Inv_empty|]. split; [reflexivity|].
  split; [intros; apply bitw_empty|]. split; [reflexivity|].
  intros j Hj. discriminate.
Qed.

Lemma last_app_default (l1 l2 : list Z) d :
  List.last (l1 ++ l2) d = List.last l2 (List.last l1 d).
Proof.
  revert d. induction l1 as [|x l1 IH]; intros d; [reflexivity|].
  cbn [app]. rewrite !last_cons_default. apply IH.
Qed.

Lemma mem_app j l1 l2 : mem j (l1 ++ l2) = mem j l1 || mem j l2.
Proof. apply existsb_app. Qed.

Lemma Holds_setEach a l l' :
  Holds a l -> ascending_from (a_sib a) l' = true ->
  Holds (abs_setEach l' a) (l ++ l').
Proof.
  intros (HI & Hsib & Hbits & Hcount & Hmem) Hasc.
  destruct (abs_setEach_spec l' a HI Hasc)
    as (HI' & Hlast & Hle & Hbits' & Hcount' & Hmem').
  split; [exact HI'|]. split.
  { rewrite Hlast, Hsib, map_app, last_app_default. reflexivity. }
  split.
  { intros j Hj. rewrite Hbits', Hbits, mem_app by lia. reflexivity. }
  split.
  { rewrite Hcount', Hcount, length_app. lia. }
  intros j Hj. rewrite mem_app in Hj. apply orb_prop in Hj as [Hj|Hj].
  - specialize (Hmem j Hj). lia.
  - specialize (Hmem' j Hj). destruct HI as ((? & _) & _). lia.
Qed.

Lemma Holds_reads a junk adj l :
  Holds a l -> reads_as (conc a junk adj) l.
Proof.
  intros (HI & Hsib & Hbits & Hcount & Hmem).
  split; [exact Hsib|]. split.
  { rewrite (built_Cardinality a junk adj HI), card_words by apply HI.
    rewrite Hcount. reflexivity. }
  change (sizeInBits (conc a junk adj)) with (a_sib a). intros j Hj.
  destruct (Z.lt_ge_cases j 0) as [Hneg|Hpos].
  { rewrite Get_outside by (left; exact Hneg).
    rewrite mem_false; [reflexivity|]. intros k Hk. specialize (Hmem k Hk). lia. }
  destruct (Z.lt_trichotomy j (a_sib a)) as [Hlt|[Heq|Hgt]].
  - rewrite (built_Get a junk adj HI j) by lia. rewrite Hbits by lia.
    reflexivity.
  - assert (Hm : a_sib a mod 64 <> 0) by (destruct Hj; [lia|assumption]).
    pose proof (built_total a HI) as Htot.
    pose proof HI as (Hs & Hok & Hlen & _).
    rewrite conc_buffer, Get_bitw; try assumption.
    + rewrite Hbits by lia. reflexivity.
    + lia.
    + rewrite Hlen. subst j. zlia.
  - rewrite Get_outside by (right; exact Hgt).
    rewrite mem_false; [reflexivity|]. intros k Hk. specialize (Hmem k Hk). lia.
Qed.

Lemma ascending_from_app lo l l' :
  ascending_from lo (l ++ l') = true ->
  ascending_from lo l = true
  /\ ascending_from (List.last (map Z.succ l) lo) l' = true.
Proof.
  revert lo. induction l as [|i l IH]; intros lo Hasc; [split; [reflexivity|exact Hasc]|].
  cbn [app ascending_from] in *.
  apply andb_prop in Hasc as [Hhd Htl]. rewrite Hhd. cbn [andb].
  destruct (IH _ Htl) as [H1 H2]. split; [exact H1|].
  cbn [map]. rewrite last_cons_default. exact H2.
Qed.

Lemma Small_Inv a junk :
  Inv a -> Z.of_nat (length junk) <= 2 ^ 26 -> Small a junk.
Proof.
  intros HI Hj. destruct (Inv_bounds a HI) as (_ & _ & Hlen & _).
  destruct HI as (_ & _ & _ & _ & Hsz). unfold Small, total_len. lia.
Qed.

(** a bitmap that holds [l], extended by accepted [Set] calls *)
Lemma extend_reads a junk adj l l' :
  Holds a l -> Small a junk -> ascending_from (a_sib a) l' = true ->
  exists b', setEach l' (conc a junk adj) = Ok b' /\ reads_as b' (l ++ l').
Proof.
  intros HH Hsmall Hasc.
  destruct (setEach_abs adj l' a junk) as (junk' & Hrun & _);
    [apply HH|exact Hsmall|exact Hasc|].
  eexists. split; [exact Hrun|].
  apply Holds_reads, Holds_setEach; assumption.
Qed.

Lemma fromList_Holds l :
  ascending l = true ->
  exists a junk,
    fromList l = Ok (conc a junk true) /\ Holds a l /\ Small a junk.
Proof.
  intros Hasc. destruct (fromList_conc l Hasc) as (junk & Hb & Hsmall).
  exists (abs_setEach l empty_abs), junk. split; [exact Hb|].
  split; [|exact Hsmall].
  apply (Holds_setEach empty_abs [] l Holds_empty Hasc).
Qed.

(** X7. A clone reads like the original and can be extended.  For index
    lists [l] and [l'] whose concatenation successive [Set] calls
    accept: the clone of the bitmap built from [l] reads as [l], and
    after [Set] on each index of [l'] it reads as [l ++ l']. *)
Theorem Clone_then_Sets (l l' : list Z) :
  ascending (l ++ l') = true ->
  exists b c c',
    fromList l = Ok b
    /\ Clone b = Ok c /\ reads_as c l
    /\ setEach l' c = Ok c' /\ reads_as c' (l ++ l').
Proof.
  intros Hasc. destruct (ascending_from_app 0 l l' Hasc) as [Hl Hl'].
  destruct (fromList_Holds l Hl) as (a & junk & Hb & HH & Hsmall).
  pose proof HH as (HI & Hsib & _).
  pose proof (Inv_bounds a HI) as (_ & _ & Hlen & _).
  pose proof HI as (_ & _ & _ & _ & Hsz).
  destruct (Clone_st (encode (all_segs a)) junk (a_sib a)
              (Z.of_nat (length (encode (a_init a)))) true)
    as (junk' & Hclone & Hcap).
  { fold (size_w a). lia. }
  rewrite <- !conc_buffer in Hclone.
  assert (Hsmall' : Small a junk').
  { apply Small_Inv; [exact HI|]. rewrite length_app in Hcap. lia. }
  rewrite <- Hsib in Hl'.
  destruct (extend_reads a junk' true l l' HH Hsmall' Hl') as (c' & Hrun & Hr).
  exists (conc a junk true), (conc a junk' true), c'.
  split; [exact Hb|]. split; [exact Hclone|].
  split; [apply Holds_reads; exact HH|]. split; assumption.
Qed.

Lemma Clone_then_Sets_witness :
  exists b c c',
    fromList [10; 100] = Ok b
    /\ Clone b = Ok c /\ reads_as c [10; 100]
    /\ setEach [10000] c = Ok c' /\ reads_as c' ([10; 100] ++ [10000]).
Proof. apply (Clone_then_Sets [10; 100] [10000]). reflexivity. Defined.

(** X8. [this.Copy(b)], for a receiver [this] that is another object
    than [b], in whatever state its earlier calls have left it, gives a
    bitmap that reads like [b] and can be extended: its buffer has no
    word to spare, and the first word that [Set] appends reallocates
    it. *)
Theorem Copy_then_Sets (l l' : list Z) (this : Ewah) :
  ascending (l ++ l') = true ->
  exists b c c',
    fromList l = Ok b
    /\ exec (Copy (Other b)) this = Ok c /\ reads_as c l
    /\ Z.of_nat (length (buffer c)) = actualSizeInWords c
    /\ setEach l' c = Ok c' /\ reads_as c' (l ++ l').
Proof.
  intros Hasc. destruct (ascending_from_app 0 l l' Hasc) as [Hl Hl'].
  destruct (fromList_Holds l Hl) as (a & junk & Hb & HH & Hsmall).
  pose proof HH as (HI & Hsib & _).
  set (adj := adjustContainerSizeWhenAggregating this).
  assert (Hcopy : Copy (Other (conc a junk true)) this
                  = Ok (tt, conc a [] adj)).
  { rewrite !conc_buffer. apply Copy_st. }
  assert (Hsmall' : Small a []).
  { apply Small_Inv; [exact HI|]. cbn. lia. }
  rewrite <- Hsib in Hl'.
  destruct (extend_reads a [] adj l l' HH Hsmall' Hl') as (c' & Hrun & Hr).
  exists (conc a junk true), (conc a [] adj), c'.
  split; [exact Hb|]. unfold exec. rewrite Hcopy.
  split; [reflexivity|]. split; [apply Holds_reads; exact HH|].
  split; [|split; assumption].
  rewrite conc_buffer. cbn [st buffer actualSizeInWords].
  rewrite app_nil_r. reflexivity.
Qed.

Lemma Copy_then_Sets_witness :
  exists b c c',
    fromList [10; 100] = Ok b
    /\ exec (Copy (Other b)) fresh = Ok c /\ reads_as c [10; 100]
    /\ Z.of_nat (length (buffer c)) = actualSizeInWords c
    /\ setEach [10000] c = Ok c' /\ reads_as c' ([10; 100] ++ [10000]).
Proof. apply (Copy_then_Sets [10; 100] [10000] fresh). reflexivity. Defined.

Lemma Reset_conc e x rest :
  buffer e = x :: rest -> Reset e = Ok (tt, conc empty_abs rest true).
Proof.
  intros He. unfold Reset, wr, rd_buf, bind, modify, gets, lift.
  cbn [set_actualSizeInWords set_sizeInBits set_rlw set_buffer buffer
       actualSizeInWords sizeInBits rlw].
  rewrite He. reflexivity.
Qed.

(** X9. [Reset] and reuse.  [Reset] panics on a bitmap whose buffer is
    empty; on any other it returns, and the bitmap that accepted [Set]
    calls then build reads as their indices, whatever the buffer held
    before. *)
Theorem Reset_then_Sets (e : Ewah) (l : list Z) :
  ascending l = true ->
  Z.of_nat (length (buffer e)) <= 2 ^ 26 ->
  (buffer e = [] -> Reset e = Panic)
  /\ (buffer e <> [] ->
      exists e0 b,
        exec Reset e = Ok e0 /\ setEach l e0 = Ok b /\ reads_as b l).
Proof.
  intros Hasc Hlen. split.
  - intros He. unfold Reset, wr, rd_buf, bind, modify, gets, lift.
    cbn [set_actualSizeInWords set_sizeInBits buffer]. rewrite He.
    reflexivity.
  - intros Hne. destruct (buffer e) as [|x rest] eqn:He; [congruence|].
    assert (Hsmall : Small empty_abs rest).
    { apply Small_Inv; [exact Inv_empty|]. cbn [length] in Hlen. lia. }
    destruct (extend_reads empty_abs rest true [] l Holds_empty Hsmall Hasc)
      as (b & Hrun & Hr).
    exists (conc empty_abs rest true), b. unfold exec.
    rewrite (Reset_conc e x rest He). split; [reflexivity|].
    split; assumption.
Qed.

Lemma Reset_then_Sets_witness :
  (buffer (mkEwah 3 70 [5; 6; 7; 8] 1 false) = [] ->
   Reset (mkEwah 3 70 [5; 6; 7; 8] 1 false) = Panic)
  /\ (buffer (mkEwah 3 70 [5; 6; 7; 8] 1 false) <> [] ->
      exists e0 b,
        exec Reset (mkEwah 3 70 [5; 6; 7; 8] 1 false) = Ok e0
        /\ setEach [10; 100; 10000] e0 = Ok b
        /\ reads_as b [10; 100; 10000]).
Proof.
  apply (Reset_then_Sets (mkEwah 3 70 [5; 6; 7; 8] 1 false) [10; 100; 10000]).
  - reflexivity.
  - cbn. lia.
Defined.

(** ** [Get], [Cardinality] and [Not] on any list of segments *)

(** X10. [Cardinality] on a buffer that holds the segments [ss] returns
    the number of one-bits of their logical words, 64 for each word of a
    run of ones, whatever [sizeInBits] is, and leaves the bitmap as it
    is. *)
Theorem Cardinality_counts ss junk sib p adj :
  segs_ok ss ->
  Cardinality (st (encode ss) junk sib p adj)
  = Ok (sum_popcount (words ss), st (encode ss) junk sib p adj).
Proof.
  intros (Hok & Hwf & Htot).
  rewrite Cardinality_ok by assumption. rewrite card_words by assumption.
  reflexivity.
Qed.

Lemma Cardinality_counts_witness :
  Cardinality (st (encode [mkSeg true 2 [5]; mkSeg false 1 [3; 1]])
                  [9; 9] 300 3 true)
  = Ok (sum_popcount (words [mkSeg true 2 [5]; mkSeg false 1 [3; 1]]),
        st (encode [mkSeg true 2 [5]; mkSeg false 1 [3; 1]])
           [9; 9] 300 3 true).
Proof.
  apply (Cardinality_counts [mkSeg true 2 [5]; mkSeg false 1 [3; 1]]).
  unfold segs_ok, seg_ok, wf_mark, word_ok.
  repeat (split || constructor); cbn; lia.
Defined.

(** X11. [Get j] on a buffer that holds the segments [ss]: [false] for
    [j < 0] and for [j > sizeInBits]; otherwise, when the segments have
    a logical word number [j / 64], bit [j mod 64] of that word, also
    for [j = sizeInBits]. The bitmap is left as it is. *)
Theorem Get_reads ss junk sib p adj j :
  segs_ok ss ->
  (j < 0 \/ sib < j ->
   Get j (st (encode ss) junk sib p adj)
   = Ok (false, st (encode ss) junk sib p adj))
  /\ (0 <= j <= sib -> j / 64 < Z.of_nat (length (words ss)) ->
      Get j (st (encode ss) junk sib p adj)
      = Ok (bitw (words ss) j, st (encode ss) junk sib p adj)).
Proof.
  intros (Hok & Hwf & Htot). split.
  - intros Hj. apply Get_outside. exact Hj.
  - intros Hj Hlen.
    destruct (lookup_lt_is_Some_2 (words ss) (Z.to_nat (j / 64))) as [w Hw];
      [zlia|].
    unfold bitw. rewrite Hw. apply Get_ok; [exact Hwf|exact Hj|].
    rewrite word_at_words by (assumption || zlia). exact Hw.
Qed.

Lemma Get_reads_witness :
  (130 < 0 \/ 300 < 130 ->
   Get 130 (st (encode [mkSeg true 2 [5]; mkSeg false 1 [3; 1]])
               [9; 9] 300 3 true)
   = Ok (false, st (encode [mkSeg true 2 [5]; mkSeg false 1 [3; 1]])
                   [9; 9] 300 3 true))
  /\ (0 <= 130 <= 300 ->
      130 / 64
      < Z.of_nat (length (words [mkSeg true 2 [5]; mkSeg false 1 [3; 1]])) ->
      Get 130 (st (encode [mkSeg true 2 [5]; mkSeg false 1 [3; 1]])
                  [9; 9] 300 3 true)
      = Ok (bitw (words [mkSeg true 2 [5]; mkSeg false 1 [3; 1]]) 130,
            st (encode [mkSeg true 2 [5]; mkSeg false 1 [3; 1]])
               [9; 9] 300 3 true)).
Proof.
  apply (Get_reads [mkSeg true 2 [5]; mkSeg false 1 [3; 1]]).
  unfold segs_ok, seg_ok, wf_mark, word_ok.
  repeat (split || constructor); cbn; lia.
Defined.

(** X12. [Not] on a buffer that holds the segments [ss], the last of
    which has a literal word unless [sizeInBits] is a multiple of 64:
    every logical word is complemented and the last one is cut to its
    [sizeInBits mod 64] low bits; the segments keep their shape, and
    [sizeInBits] and the words in use stay as they are. *)
Theorem Not_complements ss junk sib p adj :
  segs_ok ss -> ss <> [] -> 0 <= sib ->
  (sib mod 64 <> 0 -> tail_has_literal ss) ->
  exists ss',
    Not (st (encode ss) junk sib p adj)
    = Ok (tt, st (encode ss') junk sib p adj)
    /\ words ss' = not_words (sib mod 64) (words ss)
    /\ map rlen ss' = map rlen ss
    /\ map nlit ss' = map nlit ss.
Proof.
  intros (Hok & Hwf & Htot) Hne Hsib Htail.
  exists (not_segs (sib mod 64) ss).
  split; [apply Not_ok; assumption|].
  split; [apply words_not_segs; assumption|].
  clear Hok Hwf Htot Hne. induction ss as [|s ss IH]; [split; reflexivity|].
  destruct ss as [|s' ss].
  - cbn [not_segs map]. destruct (Z.eqb_spec (sib mod 64) 0) as [Hz|Hnz].
    + rewrite nlit_flip. split; reflexivity.
    + specialize (Htail Hnz). cbn [tail_has_literal] in Htail.
      destruct (exists_last Htail) as (l0 & w & Hl).
      unfold nlit. cbn [rlen lits]. rewrite Hl, map_app. cbn [map].
      rewrite mask_last_snoc, !length_app, length_map. split; reflexivity.
  - change (not_segs (sib mod 64) (s :: s' :: ss))
      with (flip_seg s :: not_segs (sib mod 64) (s' :: ss)).
    cbn [map]. destruct (IH Htail) as [H1 H2].
    cbn [map] in H1, H2. rewrite H1, H2, nlit_flip. split; reflexivity.
Qed.

Lemma Not_complements_witness :
  exists ss',
    Not (st (encode [mkSeg true 2 [5]; mkSeg false 1 [3; 1]])
            [9; 9] 300 3 true)
    = Ok (tt, st (encode ss') [9; 9] 300 3 true)
    /\ words ss'
       = not_words (300 mod 64)
                   (words [mkSeg true 2 [5]; mkSeg false 1 [3; 1]])
    /\ map rlen ss' = map rlen [mkSeg true 2 [5]; mkSeg false 1 [3; 1]]
    /\ map nlit ss' = map nlit [mkSeg true 2 [5]; mkSeg false 1 [3; 1]].
Proof.
  apply (Not_complements [mkSeg true 2 [5]; mkSeg false 1 [3; 1]]).
  - unfold segs_ok, seg_ok, wf_mark, word_ok.
    repeat (split || constructor); cbn; lia.
  - discriminate.
  - lia.
  - intros _. cbn. discriminate.
Defined.

(** ** The sink operations on segments *)

Lemma Fit_with_sib a junk n : Fit a junk -> Fit (with_sib n a) junk.
Proof. intros H. exact H. Qed.

Lemma sib_addEmptyWord v a : a_sib (abs_addEmptyWord v a) = a_sib a.
Proof. unfold abs_addEmptyWord. destruct (_ && _ && _); reflexivity. Qed.

(** X13. [add w] appends one logical word and adds 64 to [sizeInBits]; the
    word is [w] itself, folded into a run when it is 0, except for
    [w = ^1], where the word appended is [^0]. *)
Theorem add_appends a junk adj w :
  wf_seg (a_last a) -> Fit a junk -> word_ok w ->
  - 2 ^ 63 <= a_sib a + 64 < 2 ^ 63 ->
  exists a' junk',
    add w (conc a junk adj) = Ok (tt, conc a' junk' adj)
    /\ words (all_segs a')
       = words (all_segs a) ++ [if w =? allOnes - 1 then allOnes else w]
    /\ a_sib a' = a_sib a + 64.
Proof.
  intros Hwf Hfit Hw Hsib. unfold add, addSignificantBits, wordInBits.
  erewrite bind_ok by reflexivity. cbv beta.
  change (sizeInBits (conc a junk adj)) with (a_sib a).
  rewrite i64_small by lia.
  erewrite bind_ok by reflexivity. cbv beta. rewrite set_sib_conc.
  set (a0 := with_sib (a_sib a + 64) a).
  assert (Hwf0 : wf_seg (a_last a0)) by exact Hwf.
  assert (Hrl : 0 <= rlen (a_last a0)).
  { destruct Hwf as [? _]. change (0 <= rlen (a_last a)). lia. }
  change (not64 1) with (allOnes - 1).
  destruct (Z.eqb_spec w 0) as [->|Hw0].
  - destruct (addEmptyWord_runs a0 junk adj Hwf0 false Hfit)
      as (junk' & Hrun & _).
    exists (abs_addEmptyWord false a0), junk'. split; [exact Hrun|].
    rewrite words_addEmptyWord, sib_addEmptyWord by exact Hrl.
    split; reflexivity.
  - destruct (Z.eqb_spec w (allOnes - 1)) as [->|Hw1].
    + destruct (addEmptyWord_runs a0 junk adj Hwf0 true Hfit)
        as (junk' & Hrun & _).
      exists (abs_addEmptyWord true a0), junk'. split; [exact Hrun|].
      rewrite words_addEmptyWord, sib_addEmptyWord by exact Hrl.
      split; reflexivity.
    + destruct (addLiteralWord_runs a0 junk adj Hwf0 w Hfit)
        as (junk' & Hrun & _).
      exists (abs_addLiteralWord w a0), junk'. split; [exact Hrun|].
      rewrite words_addLiteralWord. split; reflexivity.
Qed.

Lemma add_appends_witness :
  exists a' junk',
    add 6 (conc empty_abs [0; 0; 0] true) = Ok (tt, conc a' junk' true)
    /\ words (all_segs a')
       = words (all_segs empty_abs)
         ++ [if 6 =? allOnes - 1 then allOnes else 6]
    /\ a_sib a' = a_sib empty_abs + 64.
Proof.
  apply (add_appends empty_abs [0; 0; 0] true 6).
  - unfold wf_seg, nlit. cbn. repeat split; try lia. constructor.
  - unfold Fit, total_len, size_w. cbn. lia.
  - unfold word_ok. lia.
  - cbn. lia.
Defined.

(** X14. [addStreamOfEmptyWords v n], for an [n] that the running length
    of the current segment can take: [n] words of bit [v] are appended
    and [sizeInBits] grows by [64 * n]; nothing changes for [n = 0]. *)
Theorem addStreamOfEmptyWords_appends a junk adj v n :
  wf_seg (a_last a) -> Fit a junk ->
  0 <= n -> rlen (a_last a) + n < 2 ^ 31 - 1 ->
  - 2 ^ 63 <= a_sib a -> a_sib a + 64 * n < 2 ^ 63 ->
  exists a' junk',
    addStreamOfEmptyWords v n (conc a junk adj) = Ok (tt, conc a' junk' adj)
    /\ words (all_segs a')
       = words (all_segs a) ++ replicate (Z.to_nat n) (run_word v)
    /\ a_sib a' = a_sib a + 64 * n
    /\ (n = 0 -> a' = a /\ junk' = junk).
Proof.
  intros Hwf Hfit Hn Hroom Hlo Hhi. unfold addStreamOfEmptyWords, wordInBits.
  pose proof Hwf as ((Hr0 & _) & _).
  destruct (Z.eqb_spec n 0) as [->|Hn0].
  - exists a, junk. split; [reflexivity|]. cbn [Z.to_nat replicate].
    rewrite app_nil_r. split; [reflexivity|]. split; [lia|]. split; reflexivity.
  - erewrite bind_ok by reflexivity. cbv beta.
    change (sizeInBits (conc a junk adj)) with (a_sib a).
    rewrite (i64_small (n * 64)), i64_small by lia.
    erewrite bind_ok by reflexivity. cbv beta. rewrite set_sib_conc.
    set (a0 := with_sib (a_sib a + n * 64) a).
    assert (Hrl : 0 <= rlen (a_last a0)).
    { destruct Hwf as [? _]. change (0 <= rlen (a_last a)). lia. }
    destruct (stream_runs a0 junk adj v n Hwf Hfit Hn Hroom)
      as (junk' & Hrun & _).
    destruct (stream_last v n a0 Hwf Hn Hroom) as (_ & _ & _ & Hsib).
    exists (abs_stream v n a0), junk'. split; [exact Hrun|].
    rewrite words_stream by assumption. split; [reflexivity|].
    split; [rewrite Hsib; cbn; lia|]. intros H0. contradiction.
Qed.

Lemma addStreamOfEmptyWords_appends_witness :
  exists a' junk',
    addStreamOfEmptyWords true 3 (conc empty_abs [0; 0; 0] true)
    = Ok (tt, conc a' junk' true)
    /\ words (all_segs a')
       = words (all_segs empty_abs) ++ replicate (Z.to_nat 3) (run_word true)
    /\ a_sib a' = a_sib empty_abs + 64 * 3
    /\ (3 = 0 -> a' = empty_abs /\ junk' = [0; 0; 0]).
Proof.
  apply (addStreamOfEmptyWords_appends empty_abs [0; 0; 0] true true 3).
  - unfold wf_seg, nlit. cbn. repeat split; try lia. constructor.
  - unfold Fit, total_len, size_w. cbn. lia.
  - lia.
  - cbn. lia.
  - cbn. lia.
  - cbn. lia.
Defined.

Lemma set_sizeInBits_st n pop junk sib p adj :
  set_sizeInBits n (st pop junk sib p adj) = st pop junk n p adj.
Proof. reflexivity. Qed.

(** X15. [addStreamOfLiteralWords data start n], when the marker of the
    current segment has room for [n] more literal words and the buffer
    is full or has room for them: the words [data[start : start+n]]
    become literal words of the current segment, in order, and
    [sizeInBits] grows by [64 * n]. *)
Theorem addStreamOfLiteralWords_appends a junk adj data start n :
  wf_seg (a_last a) ->
  0 <= start -> 0 <= n -> start + n <= Z.of_nat (length data) ->
  Z.of_nat (length data) < 2 ^ 31 ->
  nlit (a_last a) + n < 2 ^ 31 - 1 ->
  total_len a junk + n < 2 ^ 29 ->
  junk = [] \/ n <= Z.of_nat (length junk) ->
  - 2 ^ 63 <= a_sib a -> a_sib a + 64 * n < 2 ^ 63 ->
  exists junk',
    addStreamOfLiteralWords data start n (conc a junk adj)
    = Ok (tt, conc (mkAbs (a_init a)
                          (mkSeg (rbit (a_last a)) (rlen (a_last a))
                                 (lits (a_last a) ++ chunk data start n))
                          (a_sib a + 64 * n))
                   junk' adj).
Proof.
  intros Hwf Hs Hn Hlen Hd Hnl Hfit Hroom Hlo Hhi.
  destruct Hwf as (Hrl & Hnl0 & _). unfold nlit in *.
  unfold addStreamOfLiteralWords.
  destruct (Z.eq_dec n 0) as [->|Hn0].
  - exists junk. cbn [Z.to_nat Z.mul iter].
    unfold bind, ret. cbn [Z.gtb Z.compare].
    unfold conc, chunk. cbn [a_init a_last a_sib rbit rlen lits Z.to_nat take].
    rewrite app_nil_r, Z.add_0_r. reflexivity.
  - destruct (Z.to_nat (2 * n)) as [|fuel] eqn:Hfuel; [lia|].
    exists (regrown (length (encode (a_init a)) + 1 + length (lits (a_last a)))
                    n junk).
    cbn [iter]. destruct (Z.gtb_spec n 0); [|lia].
    unfold conc at 1, sst.
    erewrite bind_ok; cycle 1.
    { step_with getNumberOfLiteralWords_seg.
      rewrite numberOfLiteralWords_mk by lia.
      rewrite Z.min_l by (unfold LargestLiteralCount; lia).
      step_with setNumberOfLiteralWords_seg.
      rewrite (i32_small (_ + n)), withNumberOfLiteralWords_mk by lia.
      replace (i32 (n - n)) with 0 by (rewrite Z.sub_diag; reflexivity).
      unfold seg_st.
      erewrite bind_ok; cycle 1.
      { apply pushBackMultiple_st; try assumption.
        unfold total_len in Hfit. rewrite size_w_eq in Hfit.
        rewrite length_app. cbn [length]. lia. }
      cbv beta. step_ret. step_ret.
      cbn [Z.gtb Z.compare]. step_ret. reflexivity. }
    cbv beta iota. cbn [iter]. cbn [Z.gtb Z.compare]. unfold bind, ret.
    rewrite set_sizeInBits_st, length_app. cbn [length sizeInBits st].
    unfold wordInBits. rewrite i64_small by lia.
    unfold conc, sst, seg_st. cbn [a_init a_last a_sib rbit rlen lits].
    rewrite <- app_assoc. cbn [app].
    rewrite length_app, chunk_length, Nat2Z.inj_add, Z2Nat.id by lia.
    replace (length (encode (a_init a)) + S (length (lits (a_last a))))%nat
      with (length (encode (a_init a)) + 1 + length (lits (a_last a)))%nat
      by lia.
    replace (a_sib a + n * 64) with (a_sib a + 64 * n) by lia.
    reflexivity.
Qed.

Lemma addStreamOfLiteralWords_appends_witness :
  exists junk',
    addStreamOfLiteralWords [7; 8; 9] 1 2 (conc empty_abs [0; 0; 0] true)
    = Ok (tt, conc (mkAbs (a_init empty_abs)
                          (mkSeg (rbit (a_last empty_abs))
                                 (rlen (a_last empty_abs))
                                 (lits (a_last empty_abs)
                                  ++ chunk [7; 8; 9] 1 2))
                          (a_sib empty_abs + 64 * 2))
                   junk' true).
Proof.
  apply (addStreamOfLiteralWords_appends empty_abs [0; 0; 0] true [7; 8; 9] 1 2).
  - unfold wf_seg, nlit. cbn. repeat split; try lia. constructor.
  - lia.
  - lia.
  - cbn. lia.
  - cbn. lia.
  - unfold nlit. cbn. lia.
  - unfold total_len, size_w. cbn. lia.
  - right. cbn. lia.
  - cbn. lia.
  - cbn. lia.
Defined.

(** ** [setSizeInBits] after [Set] calls *)

Lemma setSizeInBits_words s sib :
  0 <= s < 2 ^ 62 -> 0 <= sib < 2 ^ 62 ->
  (Z.quot (i64 (i64 (s + wordInBits) - 1)) wordInBits
   =? Z.quot (i64 (i64 (sib + wordInBits) - 1)) wordInBits)
  = ((s + 63) / 64 =? (sib + 63) / 64).
Proof.
  intros Hs Hsib. unfold wordInBits.
  rewrite !(i64_small (_ + 64)) by lia. rewrite !i64_small by lia.
  rewrite !Z.quot_div_nonneg by lia.
  replace (s + 64 - 1) with (s + 63) by lia.
  replace (sib + 64 - 1) with (sib + 63) by lia. reflexivity.
Qed.

(** X16. [setSizeInBits] on a bitmap built by accepted [Set] calls.  It
    refuses, changing nothing, a size that needs another number of
    64-bit words than [Size()]. Otherwise only [sizeInBits] changes: the
    bits stay in the buffer, so that [Cardinality] still counts all the
    [Set] calls, also those at or above the new size, while [Get] reads
    the indices up to the new size as before and [false] above it. *)
Theorem setSizeInBits_after_Sets (l : list Z) (s : Z) :
  ascending l = true -> 0 <= s < 2 ^ 62 ->
  exists b,
    fromList l = Ok b
    /\ ((s + 63) / 64 <> (sizeInBits b + 63) / 64 ->
        setSizeInBits s b = Ok (false, b))
    /\ ((s + 63) / 64 = (sizeInBits b + 63) / 64 ->
        exists b',
          setSizeInBits s b = Ok (true, b')
          /\ sizeInBits b' = s
          /\ Cardinality b' = Ok (Z.of_nat (length l), b')
          /\ forall j, j <> s \/ s mod 64 <> 0 ->
                       Get j b' = Ok ((j <=? s) && mem j l, b')).
Proof.
  intros Hasc Hs.
  destruct (fromList_Holds l Hasc) as (a & junk & Hb & HH & _).
  destruct HH as (HI & Hsib & Hbits & Hcount & Hmem).
  assert (HM : MaxInt32 = 2147483647) by reflexivity.
  pose proof HI as (Hrange & Hok & Hlen & _).
  pose proof (built_total a HI) as Htot.
  exists (conc a junk true). split; [exact Hb|].
  change (sizeInBits (conc a junk true)) with (a_sib a).
  unfold setSizeInBits, bind, gets.
  change (sizeInBits (conc a junk true)) with (a_sib a).
  rewrite setSizeInBits_words by lia. split.
  - intros Hne. destruct (Z.eqb_spec ((s + 63) / 64) ((a_sib a + 63) / 64));
      [contradiction|reflexivity].
  - intros Heq. rewrite Heq, Z.eqb_refl. cbn [negb].
    unfold modify, ret. rewrite set_sib_conc.
    exists (conc (with_sib s a) junk true).
    split; [reflexivity|]. split; [reflexivity|].
    rewrite !conc_buffer.
    change (all_segs (with_sib s a)) with (all_segs a).
    change (a_sib (with_sib s a)) with s.
    change (a_init (with_sib s a)) with (a_init a). split.
    + rewrite Cardinality_ok.
      * rewrite card_words, Hcount by exact Hok. reflexivity.
      * apply ok_wf_mark; assumption.
      * lia.
    + intros j Hj.
      destruct (Z.leb_spec j s) as [Hle|Hgt]; cbn [andb].
      * destruct (Z.lt_ge_cases j 0) as [Hneg|Hpos].
        { rewrite Get_outside by (left; exact Hneg).
          rewrite mem_false; [reflexivity|].
          intros k Hk. specialize (Hmem k Hk). lia. }
        rewrite Get_bitw; try assumption.
        -- rewrite Hbits by lia. reflexivity.
        -- lia.
        -- rewrite Hlen, <- Heq. zlia.
      * rewrite Get_outside by (right; exact Hgt). reflexivity.
Qed.

Lemma setSizeInBits_after_Sets_witness :
  exists b,
    fromList [10; 20] = Ok b
    /\ ((15 + 63) / 64 <> (sizeInBits b + 63) / 64 ->
        setSizeInBits 15 b = Ok (false, b))
    /\ ((15 + 63) / 64 = (sizeInBits b + 63) / 64 ->
        exists b',
          setSizeInBits 15 b = Ok (true, b')
          /\ sizeInBits b' = 15
          /\ Cardinality b' = Ok (Z.of_nat (length [10; 20]), b')
          /\ forall j, j <> 15 \/ 15 mod 64 <> 0 ->
                       Get j b' = Ok ((j <=? 15) && mem j [10; 20], b')).
Proof.
  apply (setSizeInBits_after_Sets [10; 20] 15); [reflexivity|lia].
Defined.

(** ** [setSizeInBitsWithDefault] *)

Lemma zrange_S lo n : zrange lo (S n) = lo :: zrange (lo + 1) n.
Proof.
  unfold zrange. cbn [seq map]. rewrite Z.add_0_r. f_equal.
  rewrite <- seq_shift, map_map. apply map_ext. intros k. lia.
Qed.

Lemma zrange_app lo n m :
  zrange lo (n + m) = zrange lo n ++ zrange (lo + Z.of_nat n) m.
Proof.
  revert lo. induction n as [|n IH]; intros lo.
  - cbn [Nat.add]. unfold zrange at 2. cbn [seq map app].
    rewrite Z.add_0_r. reflexivity.
  - cbn [Nat.add]. rewrite !zrange_S, IH. cbn [app]. do 3 f_equal. lia.
Qed.

Lemma zrange_length lo n : length (zrange lo n) = n.
Proof. unfold zrange. rewrite length_map, length_seq. reflexivity. Qed.

Lemma mem_zrange j lo n :
  mem j (zrange lo n) = (lo <=? j) && (j <? lo + Z.of_nat n).
Proof.
  revert lo. induction n as [|n IH]; intros lo.
  - cbn [zrange seq map mem existsb]. change (Z.of_nat 0) with 0.
    destruct (Z.leb_spec lo j), (Z.ltb_spec j (lo + 0)); cbn [andb];
      try reflexivity; exfalso; lia.
  - rewrite zrange_S. cbn [mem existsb]. fold (mem j (zrange (lo + 1) n)).
    rewrite IH.
    destruct (Z.eqb_spec j lo), (Z.leb_spec (lo + 1) j), (Z.leb_spec lo j),
      (Z.ltb_spec j (lo + 1 + Z.of_nat n)),
      (Z.ltb_spec j (lo + Z.of_nat (S n))); cbn [andb orb];
      try reflexivity; exfalso; lia.
Qed.

Lemma ascending_zrange lo n :
  0 <= lo -> lo + Z.of_nat n <= MaxInt32 - 63 ->
  ascending_from lo (zrange lo n) = true.
Proof.
  revert lo. induction n as [|n IH]; intros lo Hlo Hhi; [reflexivity|].
  rewrite zrange_S. cbn [ascending_from]. rewrite IH by lia.
  destruct (Z.leb_spec lo lo), (Z.leb_spec lo (MaxInt32 - 64)); cbn [andb];
    try reflexivity; exfalso; lia.
Qed.

Lemma last_succ_zrange lo n d :
  (0 < n)%nat -> List.last (map Z.succ (zrange lo n)) d = lo + Z.of_nat n.
Proof.
  revert lo d. induction n as [|n IH]; intros lo d Hn; [lia|].
  rewrite zrange_S. cbn [map]. rewrite last_cons_default.
  destruct n as [|n]; [cbn; lia|]. rewrite IH by lia. lia.
Qed.

(** ** The loops of [setSizeInBitsWithDefault] *)

Lemma setWhile_runs cond adj n :
  forall fuel a junk,
    Inv a -> Small a junk ->
    a_sib a + Z.of_nat n <= MaxInt32 - 63 ->
    (forall k, (k < n)%nat -> cond (a_sib a + Z.of_nat k) = true) ->
    cond (a_sib a + Z.of_nat n) = false ->
    ((fuel <= n)%nat -> setWhile fuel cond (conc a junk adj) = OutOfFuel)
    /\ ((n < fuel)%nat ->
        exists junk',
          setWhile fuel cond (conc a junk adj)
          = Ok (tt, conc (abs_setEach (zrange (a_sib a) n) a) junk' adj)
          /\ Small (abs_setEach (zrange (a_sib a) n) a) junk').
Proof.
  induction n as [|n IH]; intros fuel a junk HI Hsmall Hhi Htrue Hfalse.
  - rewrite Z.add_0_r in Hfalse. split.
    + intros Hf. replace fuel with 0%nat by lia. reflexivity.
    + intros Hf. destruct fuel as [|fuel]; [lia|]. exists junk.
      split; [|exact Hsmall]. unfold setWhile. cbn [iter].
      unfold bind at 1. unfold bind at 1, gets at 1.
      change (sizeInBits (conc a junk adj)) with (a_sib a).
      rewrite Hfalse. reflexivity.
  - pose proof (Htrue 0%nat ltac:(lia)) as H0. rewrite Z.add_0_r in H0.
    pose proof HI as ((Hlo & _) & _).
    destruct (Set_step a junk adj (a_sib a) HI Hsmall)
      as (junk1 & Hrun & Hsmall1); [lia|].
    destruct (Set_pure a (a_sib a) HI) as (HI1 & Hsib1 & _ & _); [lia|].
    destruct (IH (pred fuel) (abs_Set (a_sib a) a) junk1 HI1 Hsmall1)
      as [Hout Hok].
    { rewrite Hsib1. lia. }
    { intros k Hk. rewrite Hsib1.
      replace (a_sib a + 1 + Z.of_nat k) with (a_sib a + Z.of_nat (S k)) by lia.
      apply Htrue. lia. }
    { rewrite Hsib1.
      replace (a_sib a + 1 + Z.of_nat n) with (a_sib a + Z.of_nat (S n)) by lia.
      exact Hfalse. }
    assert (Hstep : forall f,
      setWhile (S f) cond (conc a junk adj)
      = setWhile f cond (conc (abs_Set (a_sib a) a) junk1 adj)).
    { intros f. unfold setWhile. cbn [iter].
      unfold bind at 1. unfold bind at 1, gets at 1.
      change (sizeInBits (conc a junk adj)) with (a_sib a).
      rewrite H0. unfold bind at 1. unfold bind at 1, gets at 1.
      change (sizeInBits (conc a junk adj)) with (a_sib a).
      unfold bind at 1. rewrite Hrun. reflexivity. }
    split.
    + intros Hf. destruct fuel as [|fuel]; [reflexivity|].
      rewrite Hstep. apply Hout. cbn [pred]. lia.
    + intros Hf. destruct fuel as [|fuel]; [lia|]. cbn [pred] in Hok.
      destruct Hok as (junk' & Hrun' & Hsmall'); [lia|].
      exists junk'. rewrite Hstep, zrange_S. rewrite Hsib1 in Hrun', Hsmall'.
      split; [exact Hrun'|exact Hsmall'].
Qed.

Lemma Set_refuses i e : MaxInt32 - 64 < i -> Set_ i e = Ok (false, e).
Proof.
  intros Hi. unfold Set_, wordInBits.
  destruct (Z.gtb_spec i (MaxInt32 - 64)); [reflexivity|lia].
Qed.

Lemma setWhile_stuck cond e fuel :
  cond (sizeInBits e) = true -> MaxInt32 - 64 < sizeInBits e ->
  setWhile fuel cond e = OutOfFuel.
Proof.
  intros Hc Hs. induction fuel as [|fuel IH]; [reflexivity|].
  unfold setWhile in *. cbn [iter].
  unfold bind at 1. unfold bind at 1, gets at 1. rewrite Hc.
  unfold bind at 1. unfold bind at 1, gets at 1. unfold bind at 1.
  rewrite Set_refuses by exact Hs. exact IH.
Qed.

Lemma addStream_runs a junk adj v n :
  wf_seg (a_last a) -> Fit a junk ->
  0 <= n -> rlen (a_last a) + n < 2 ^ 31 - 1 ->
  - 2 ^ 63 <= a_sib a -> a_sib a + 64 * n < 2 ^ 63 ->
  exists junk',
    addStreamOfEmptyWords v n (conc a junk adj)
    = Ok (tt, conc (abs_addStream v n a) junk' adj)
    /\ total_len (abs_addStream v n a) junk'
       <= Z.max (total_len a junk) (2 * size_w (abs_addStream v n a)).
Proof.
  intros Hwf Hfit Hn Hroom Hlo Hhi.
  unfold addStreamOfEmptyWords, abs_addStream, wordInBits.
  pose proof Hwf as ((Hr0 & _) & _).
  destruct (Z.eqb_spec n 0) as [->|Hn0].
  - exists junk. split; [reflexivity|lia].
  - erewrite bind_ok by reflexivity. cbv beta.
    change (sizeInBits (conc a junk adj)) with (a_sib a).
    rewrite (i64_small (n * 64)), i64_small by lia.
    erewrite bind_ok by reflexivity. cbv beta. rewrite set_sib_conc.
    replace (a_sib a + n * 64) with (a_sib a + 64 * n) by lia.
    apply (stream_runs (with_sib (a_sib a + 64 * n) a) junk adj v n Hwf Hfit Hn Hroom).
Qed.

Lemma bitw_ones_run ws n j :
  0 <= j ->
  bitw (ws ++ replicate n allOnes) j
  = bitw ws j
    || ((64 * Z.of_nat (length ws) <=? j)
        && (j <? 64 * Z.of_nat (length ws) + 64 * Z.of_nat n)).
Proof.
  intros Hj. assert (Hr : 0 <= j mod 64 < 64) by zlia.
  assert (Hq : 0 <= j / 64) by zlia.
  destruct (Z.lt_ge_cases (j / 64) (Z.of_nat (length ws))) as [Hlow|Hge].
  - unfold bitw. rewrite lookup_app_l by lia.
    destruct (Z.leb_spec (64 * Z.of_nat (length ws)) j); [exfalso; zlia|].
    cbn [andb]. rewrite orb_false_r. reflexivity.
  - rewrite (bitw_none ws j) by lia. cbn [orb].
    destruct (Z.leb_spec (64 * Z.of_nat (length ws)) j); [|exfalso; zlia].
    cbn [andb]. unfold bitw. rewrite lookup_app_r by lia.
    destruct (Z.ltb_spec j (64 * Z.of_nat (length ws) + 64 * Z.of_nat n)).
    + rewrite lookup_replicate_2 by zlia.
      change allOnes with (Z.ones 64). rewrite ones_bit by lia.
      destruct (Z.leb_spec 0 (j mod 64)), (Z.ltb_spec (j mod 64) 64);
        try reflexivity; exfalso; lia.
    + rewrite lookup_ge_None_2; [reflexivity|].
      rewrite length_replicate. zlia.
Qed.

Lemma Holds_stream a l n :
  Holds a l -> a_sib a mod 64 = 0 -> 0 < n ->
  a_sib a + 64 * n <= MaxInt32 - 63 ->
  Holds (abs_addStream true n a) (l ++ zrange (a_sib a) (Z.to_nat (64 * n))).
Proof.
  intros (HI & Hsib & Hbits & Hcount & Hmem) Hm Hn Hhi.
  assert (HM : MaxInt32 = 2147483647) by reflexivity.
  pose proof (Inv_wf_seg a HI) as Hwf.
  pose proof (Inv_bounds a HI) as (Hrl & Hsum & Hlen25 & _).
  pose proof HI as (Hrange & Hok & Hlen & _ & Hsz).
  unfold abs_addStream. destruct (Z.eqb_spec n 0); [lia|].
  set (a0 := with_sib (a_sib a + 64 * n) a).
  assert (Hroom : rlen (a_last a0) + n < 2 ^ 31 - 1).
  { change (rlen (a_last a0)) with (rlen (a_last a)). unfold nlit in Hsum.
    lia. }
  destruct (stream_last true n a0 Hwf ltac:(lia) Hroom)
    as (_ & _ & Hsize & Hsib').
  change (size_w a0) with (size_w a) in Hsize.
  change (a_sib a0) with (a_sib a + 64 * n) in Hsib'.
  assert (Hws : words (all_segs (abs_stream true n a0))
                = words (all_segs a) ++ replicate (Z.to_nat n) allOnes).
  { rewrite words_stream by (exact Hrl || lia). reflexivity. }
  assert (H64 : 64 * Z.of_nat (length (words (all_segs a))) = a_sib a)
    by (rewrite Hlen; zlia).
  split.
  { unfold Inv. rewrite Hws, Hsib', length_app, length_replicate.
    split; [lia|]. split; [apply ok_stream; [exact Hok|lia]|].
    split; [zlia|]. split; [intros Hne; exfalso; zlia|]. lia. }
  split.
  { rewrite Hsib', map_app, last_app_default, last_succ_zrange by lia. lia. }
  split.
  { intros j Hj. rewrite Hws, bitw_ones_run, Hbits, H64, mem_app, mem_zrange
      by lia.
    rewrite !Z2Nat.id by lia. reflexivity. }
  split.
  { rewrite Hws, sum_popcount_app, Hcount, length_app, zrange_length.
    change (replicate (Z.to_nat n) allOnes)
      with (replicate (Z.to_nat n) (run_word true)).
    rewrite (sum_popcount_replicate (Z.to_nat n) true). lia. }
  intros j Hj. rewrite mem_app, mem_zrange in Hj. rewrite Hsib'.
  apply orb_prop in Hj as [Hj|Hj].
  - specialize (Hmem j Hj). lia.
  - apply andb_prop in Hj as [H1 H2]. apply Z.leb_le in H1.
    apply Z.ltb_lt in H2. lia.
Qed.

Lemma sib_setEach_zrange a n :
  Inv a -> a_sib a + Z.of_nat n <= MaxInt32 - 63 ->
  a_sib (abs_setEach (zrange (a_sib a) n) a) = a_sib a + Z.of_nat n.
Proof.
  intros HI Hhi. pose proof HI as ((Hlo & _) & _).
  destruct (abs_setEach_spec (zrange (a_sib a) n) a HI) as (_ & Hlast & _).
  { apply ascending_zrange; lia. }
  rewrite Hlast. destruct n as [|n]; [cbn; lia|].
  apply last_succ_zrange. lia.
Qed.

Lemma Holds_addStream a l n :
  Holds a l -> 0 <= n -> (0 < n -> a_sib a mod 64 = 0) ->
  a_sib a + 64 * n <= MaxInt32 - 63 ->
  Holds (abs_addStream true n a) (l ++ zrange (a_sib a) (Z.to_nat (64 * n)))
  /\ a_sib (abs_addStream true n a) = a_sib a + 64 * n.
Proof.
  intros HH Hn Hm Hhi. destruct (Z.eq_dec n 0) as [->|Hn0].
  - unfold abs_addStream. cbn [Z.eqb Z.mul Z.to_nat zrange seq map].
    rewrite app_nil_r. split; [exact HH|lia].
  - split; [apply Holds_stream; try assumption; try lia; apply Hm; lia|].
    unfold abs_addStream. destruct (Z.eqb_spec n 0); [contradiction|].
    destruct HH as (HI & _).
    pose proof (Inv_wf_seg a HI) as Hwf.
    pose proof (Inv_bounds a HI) as (Hrl & Hsum & _).
    assert (HM : MaxInt32 = 2147483647) by reflexivity.
    pose proof HI as ((Hlo & _) & _).
    destruct (stream_last true n (with_sib (a_sib a + 64 * n) a) Hwf)
      as (_ & _ & _ & Hsib); [lia| |exact Hsib].
    change (rlen (a_last (with_sib (a_sib a + 64 * n) a)))
      with (rlen (a_last a)).
    unfold nlit in Hsum. lia.
Qed.

Lemma with_sib_same a : with_sib (a_sib a) a = a.
Proof. destruct a. reflexivity. Qed.

Section Extend.

Variables (a : abs) (junk : list Z) (adj : bool) (l : list Z) (size : Z).

Hypothesis HH : Holds a l.

Hypothesis Hsmall : Small a junk.

Hypothesis Hsize : a_sib a <= size <= MaxInt32.

Let s0 := a_sib a.

Let cond1 := fun sib => negb (Z.rem sib wordInBits =? 0) && (sib <? size).

Let n1 := rounds1 s0 size.

Let a1 := abs_setEach (zrange s0 n1) a.

Lemma Extend_bounds :
  0 <= s0 <= MaxInt32 - 63 /\ (n1 < 64)%nat
  /\ s0 + Z.of_nat n1 <= MaxInt32 - 63
  /\ s0 + Z.of_nat n1 <= size
  /\ (s0 + Z.of_nat n1 < size -> (s0 + Z.of_nat n1) mod 64 = 0).
Proof.
  destruct HH as (((Hlo & Hhi) & _) & _).
  assert (HM : MaxInt32 = 2147483647) by reflexivity.
  unfold n1, rounds1, s0 in *.
  destruct (Z.eqb_spec (a_sib a mod 64) 0) as [Hz|Hnz].
  - change (Z.of_nat 0) with 0. rewrite !Z.add_0_r. repeat split; try lia.
  - rewrite Z2Nat.id by zlia. repeat split; try zlia.
Qed.

Lemma Extend_cond1 :
  (forall k, (k < n1)%nat -> cond1 (s0 + Z.of_nat k) = true)
  /\ cond1 (s0 + Z.of_nat n1) = false.
Proof.
  destruct HH as (((Hlo & Hhi) & _) & _).
  assert (HM : MaxInt32 = 2147483647) by reflexivity.
  unfold cond1, wordInBits, n1, rounds1, s0 in *.
  destruct (Z.eqb_spec (a_sib a mod 64) 0) as [Hz|Hnz].
  - split; [intros k Hk; lia|]. change (Z.of_nat 0) with 0.
    rewrite Z.add_0_r, Z.rem_mod_nonneg, Hz by lia. reflexivity.
  - split.
    + intros k Hk.
      assert (Hk' : a_sib a + Z.of_nat k < Z.min size (64 * (a_sib a / 64 + 1)))
        by lia.
      rewrite Z.rem_mod_nonneg by lia.
      destruct (Z.eqb_spec ((a_sib a + Z.of_nat k) mod 64) 0); [exfalso; zlia|].
      destruct (Z.ltb_spec (a_sib a + Z.of_nat k) size); [reflexivity|lia].
    + rewrite Z2Nat.id by zlia. rewrite Z.rem_mod_nonneg by zlia.
      replace (a_sib a + (Z.min size (64 * (a_sib a / 64 + 1)) - a_sib a))
        with (Z.min size (64 * (a_sib a / 64 + 1))) by lia.
      destruct (Z.eqb_spec (Z.min size (64 * (a_sib a / 64 + 1)) mod 64) 0);
        [reflexivity|].
      destruct (Z.ltb_spec (Z.min size (64 * (a_sib a / 64 + 1))) size);
        [exfalso; zlia|reflexivity].
Qed.

(** the first loop and the stream of one-words *)
Lemma Extend_phases fuel :
  ((fuel <= n1)%nat -> setWhile fuel cond1 (conc a junk adj) = OutOfFuel)
  /\ ((n1 < fuel)%nat ->
      exists a2 junk2,
        (setWhile fuel cond1 ;;;
         sib <- gets sizeInBits ;;
         addStreamOfEmptyWords true
           (i64 (Z.quot size wordInBits - Z.quot sib wordInBits)))
          (conc a junk adj)
        = Ok (tt, conc a2 junk2 adj)
        /\ Holds a2 (l ++ zrange s0 (Z.to_nat (a_sib a2 - s0)))
        /\ Small a2 junk2
        /\ s0 <= a_sib a2 <= size
        /\ size - 64 < a_sib a2 <= MaxInt32 - 63
        /\ (a_sib a2 < size -> a_sib a2 mod 64 = 0)).
Proof.
  destruct Extend_bounds as (Hs0 & Hn1 & Hhi1 & Hle1 & Hmod1).
  destruct Extend_cond1 as (Htrue & Hfalse).
  assert (HM : MaxInt32 = 2147483647) by reflexivity.
  pose proof HH as (HI & _).
  destruct (setWhile_runs cond1 adj n1 fuel a junk HI Hsmall Hhi1 Htrue Hfalse)
    as [Hout Hok].
  split; [exact Hout|]. intros Hf.
  destruct (Hok Hf) as (junk1 & Hrun1 & Hsmall1).
  fold s0 in Hrun1, Hsmall1. fold a1 in Hrun1, Hsmall1.
  assert (HH1 : Holds a1 (l ++ zrange s0 n1)).
  { apply Holds_setEach; [exact HH|]. apply ascending_zrange; lia. }
  assert (Hs1 : a_sib a1 = s0 + Z.of_nat n1)
    by (apply sib_setEach_zrange; assumption).
  pose proof HH1 as (HI1 & _).
  set (n2 := size / 64 - a_sib a1 / 64).
  assert (Hn2 : 0 <= n2) by (unfold n2; zlia).
  assert (Hs2 : a_sib a1 + 64 * n2 <= MaxInt32 - 63) by (unfold n2; zlia).
  destruct (Holds_addStream a1 (l ++ zrange s0 n1) n2 HH1 Hn2) as [HH2 Hsib2].
  { intros Hpos. rewrite Hs1. apply Hmod1.
    unfold n2 in Hpos. rewrite Hs1 in Hpos. zlia. }
  { exact Hs2. }
  destruct (addStream_runs a1 junk1 adj true n2) as (junk2 & Hrun2 & Hlen2).
  { apply Inv_wf_seg. exact HI1. }
  { unfold Small in Hsmall1. unfold Fit. lia. }
  { exact Hn2. }
  { pose proof (Inv_bounds a1 HI1) as (_ & Hsum & _). unfold nlit in Hsum.
    unfold n2. zlia. }
  { lia. }
  { lia. }
  exists (abs_addStream true n2 a1), junk2.
  split.
  { erewrite bind_ok by exact Hrun1. cbv beta.
    erewrite bind_ok by reflexivity. cbv beta.
    change (sizeInBits (conc a1 junk1 adj)) with (a_sib a1).
    unfold wordInBits. rewrite !Z.quot_div_nonneg by lia.
    fold n2. rewrite i64_small by lia. exact Hrun2. }
  split.
  { rewrite Hsib2, Hs1.
    replace (Z.to_nat (s0 + Z.of_nat n1 + 64 * n2 - s0))
      with (n1 + Z.to_nat (64 * n2))%nat by lia.
    rewrite zrange_app, app_assoc, <- Hs1. exact HH2. }
  split.
  { pose proof HH2 as ((_ & _ & Hlen & _ & Hsz) & _).
    pose proof (Inv_bounds _ (proj1 HH2)) as (_ & _ & Hl25 & _).
    unfold Small in *. lia. }
  rewrite Hsib2. unfold n2. split; [zlia|]. split; [zlia|].
  intros Hlt. destruct (Z.lt_ge_cases (a_sib a1) size) as [Hl|Hg].
  - rewrite Hs1 in Hl. apply Hmod1 in Hl. rewrite <- Hs1 in Hl. zlia.
  - exfalso. zlia.
Qed.

End Extend.

Lemma bind_then {S A B C D} (m : St S A) (g : St S B) (k : B -> St S C)
    (h : St S D) e r e2 :
  bind m (fun _ => bind g k) e = Ok (r, e2) ->
  bind m (fun _ => bind g (fun x => bind (k x) (fun _ => h))) e = h e2.
Proof.
  unfold bind. destruct (m e) as [[? e1]| |]; try discriminate.
  destruct (g e1) as [[x e1']| |]; try discriminate.
  intros ->. reflexivity.
Qed.

Lemma setSizeInBitsWithDefault_true fuel size e :
  sizeInBits e <= size ->
  setSizeInBitsWithDefault fuel size true e
  = ((setWhile fuel (fun sib => negb (Z.rem sib wordInBits =? 0)
                                && (sib <? size)) ;;;
      sib <- gets sizeInBits ;;
      addStreamOfEmptyWords true
        (i64 (Z.quot size wordInBits - Z.quot sib wordInBits)) ;;;
      setWhile fuel (fun sib => sib <? size)) ;;;
     modify (set_sizeInBits size) ;;;
     ret true) e.
Proof.
  intros Hle. unfold setSizeInBitsWithDefault.
  unfold bind at 1, gets at 1.
  destruct (Z.ltb_spec size (sizeInBits e)); [lia|]. reflexivity.
Qed.

Section ExtendOnes.

Variables (a : abs) (junk : list Z) (adj : bool) (l : list Z) (size : Z).

Hypothesis HH : Holds a l.

Hypothesis Hsmall : Small a junk.

Lemma extend_ones fuel :
  a_sib a <= size <= MaxInt32 - 63 -> (64 <= fuel)%nat ->
  exists a3 junk3,
    setSizeInBitsWithDefault fuel size true (conc a junk adj)
    = Ok (true, conc a3 junk3 adj)
    /\ Holds a3 (l ++ zrange (a_sib a) (Z.to_nat (size - a_sib a))).
Proof.
  intros Hsize Hfuel.
  assert (HM : MaxInt32 = 2147483647) by reflexivity.
  destruct (Extend_bounds a l size HH ltac:(lia)) as (Hs0 & Hn1 & _).
  destruct (Extend_phases a junk adj l size HH Hsmall ltac:(lia) fuel)
    as [_ Hok].
  destruct Hok as (a2 & junk2 & Hrun12 & HH2 & Hsmall2 & Hr2 & Hr2' & _);
    [lia|].
  pose proof HH2 as (HI2 & _).
  set (n3 := Z.to_nat (size - a_sib a2)).
  destruct (setWhile_runs (fun sib => sib <? size) adj n3 fuel a2 junk2
              HI2 Hsmall2) as [_ Hok3].
  { unfold n3. lia. }
  { intros k Hk. apply Z.ltb_lt. unfold n3 in Hk. lia. }
  { apply Z.ltb_ge. unfold n3. lia. }
  destruct Hok3 as (junk3 & Hrun3 & _); [unfold n3; lia|].
  set (a3 := abs_setEach (zrange (a_sib a2) n3) a2) in *.
  assert (Hs3 : a_sib a3 = size).
  { unfold a3. rewrite sib_setEach_zrange by (assumption || unfold n3; lia).
    unfold n3. lia. }
  exists a3, junk3. split.
  - rewrite setSizeInBitsWithDefault_true by exact (proj1 Hsize).
    erewrite bind_ok; cycle 1.
    { erewrite bind_then by exact Hrun12. exact Hrun3. }
    cbv beta. unfold bind, modify, ret. rewrite set_sib_conc, <- Hs3.
    rewrite with_sib_same. reflexivity.
  - replace (Z.to_nat (size - a_sib a))
      with (Z.to_nat (a_sib a2 - a_sib a) + n3)%nat by (unfold n3; lia).
    rewrite zrange_app, app_assoc.
    replace (a_sib a + Z.of_nat (Z.to_nat (a_sib a2 - a_sib a)))
      with (a_sib a2) by lia.
    apply Holds_setEach; [exact HH2|].
    apply ascending_zrange; [lia|]. unfold n3. lia.
Qed.

Lemma extend_hangs fuel :
  a_sib a <= size -> MaxInt32 - 63 < size <= MaxInt32 ->
  setSizeInBitsWithDefault fuel size true (conc a junk adj) = OutOfFuel.
Proof.
  intros Hle Hsize.
  assert (HM : MaxInt32 = 2147483647) by reflexivity.
  rewrite setSizeInBitsWithDefault_true by exact Hle.
  destruct (Extend_phases a junk adj l size HH Hsmall ltac:(lia) fuel)
    as [Hout Hok].
  destruct (Nat.le_gt_cases fuel (rounds1 (a_sib a) size)) as [Hf|Hf].
  - unfold bind at 1. unfold bind at 1. rewrite (Hout Hf). reflexivity.
  - destruct (Hok Hf) as (a2 & junk2 & Hrun12 & _ & _ & _ & Hr2 & Hmod).
    unfold bind at 1. erewrite bind_then by exact Hrun12.
    rewrite setWhile_stuck; [reflexivity| |].
    + apply Z.ltb_lt. change (sizeInBits (conc a2 junk2 adj)) with (a_sib a2).
      lia.
    + change (sizeInBits (conc a2 junk2 adj)) with (a_sib a2).
      assert (Hm : a_sib a2 mod 64 = 0) by (apply Hmod; lia). zlia.
Qed.

End ExtendOnes.

(** X17. [setSizeInBitsWithDefault], on the bitmap that accepted [Set] calls
    on [l] build, with enough fuel for its loops (64 rounds).  A size
    below [Size()] is refused and nothing changes. With the default
    [false] only [sizeInBits] changes ([extendEmptyBits] is empty). With
    the default [true] and a size up to [MaxInt32 - 63], the bitmap then
    reads as [l] followed by every index from the old size up to the
    new one. *)
Theorem setSizeInBitsWithDefault_extends (l : list Z) (size : Z) (fuel : nat) :
  ascending l = true -> (64 <= fuel)%nat ->
  exists b,
    fromList l = Ok b
    /\ (size < sizeInBits b ->
        forall v, setSizeInBitsWithDefault fuel size v b = Ok (false, b))
    /\ (sizeInBits b <= size ->
        setSizeInBitsWithDefault fuel size false b
        = Ok (true, set_sizeInBits size b))
    /\ (sizeInBits b <= size <= MaxInt32 - 63 ->
        exists b',
          setSizeInBitsWithDefault fuel size true b = Ok (true, b')
          /\ reads_as b'
               (l ++ zrange (sizeInBits b) (Z.to_nat (size - sizeInBits b)))).
Proof.
  intros Hasc Hfuel.
  destruct (fromList_Holds l Hasc) as (a & junk & Hb & HH & Hsmall).
  exists (conc a junk true). split; [exact Hb|].
  change (sizeInBits (conc a junk true)) with (a_sib a).
  split; [|split].
  - intros Hlt v. unfold setSizeInBitsWithDefault, bind, gets.
    change (sizeInBits (conc a junk true)) with (a_sib a).
    destruct (Z.ltb_spec size (a_sib a)); [reflexivity|lia].
  - intros Hle. unfold setSizeInBitsWithDefault, bind, gets.
    change (sizeInBits (conc a junk true)) with (a_sib a).
    destruct (Z.ltb_spec size (a_sib a)); [lia|]. reflexivity.
  - intros Hsize.
    destruct (extend_ones a junk true l size HH Hsmall fuel Hsize Hfuel)
      as (a3 & junk3 & Hrun & HH3).
    exists (conc a3 junk3 true). split; [exact Hrun|].
    apply Holds_reads. exact HH3.
Qed.

Lemma setSizeInBitsWithDefault_extends_witness :
  exists b,
    fromList [10; 100] = Ok b
    /\ (200 < sizeInBits b ->
        forall v, setSizeInBitsWithDefault 64 200 v b = Ok (false, b))
    /\ (sizeInBits b <= 200 ->
        setSizeInBitsWithDefault 64 200 false b
        = Ok (true, set_sizeInBits 200 b))
    /\ (sizeInBits b <= 200 <= MaxInt32 - 63 ->
        exists b',
          setSizeInBitsWithDefault 64 200 true b = Ok (true, b')
          /\ reads_as b'
               ([10; 100]
                ++ zrange (sizeInBits b) (Z.to_nat (200 - sizeInBits b)))).
Proof.
  apply (setSizeInBitsWithDefault_extends [10; 100] 200 64);
    [reflexivity|lia].
Defined.

(** X18. [setSizeInBitsWithDefault(size, true)] does not return for a size
    above [MaxInt32 - 63] (up to [MaxInt32]), on any bitmap that accepted
    [Set] calls build: its last loop calls [Set] on an index that [Set]
    refuses, so that [sizeInBits] never reaches [size]; the fuel runs
    out, however much there is. *)
Theorem setSizeInBitsWithDefault_hangs (l : list Z) (size : Z) :
  ascending l = true -> MaxInt32 - 63 < size <= MaxInt32 ->
  exists b,
    fromList l = Ok b
    /\ forall fuel, setSizeInBitsWithDefault fuel size true b = OutOfFuel.
Proof.
  intros Hasc Hsize.
  destruct (fromList_Holds l Hasc) as (a & junk & Hb & HH & Hsmall).
  exists (conc a junk true). split; [exact Hb|]. intros fuel.
  apply (extend_hangs a junk true l size HH Hsmall fuel); [|exact Hsize].
  destruct HH as (((_ & Hhi) & _) & _). lia.
Qed.

Lemma setSizeInBitsWithDefault_hangs_witness :
  exists b,
    fromList [10; 100] = Ok b
    /\ forall fuel,
         setSizeInBitsWithDefault fuel 2147483600 true b = OutOfFuel.
Proof.
  apply (setSizeInBitsWithDefault_hangs [10; 100] 2147483600);
    [reflexivity|].
  unfold MaxInt32. lia.
Defined.

(** ** [negativePushBack] and [addStreamOfNegatedLiteralWords] *)

Lemma negate_loop (data : list Z) (start n : Z) (e : Ewah) :
  0 <= start -> 0 <= n -> start + n <= Z.of_nat (length data) ->
  Z.of_nat (length data) < 2 ^ 31 ->
  forall k i fuel,
    (i + k = Z.to_nat n)%nat -> (k < fuel)%nat ->
    iter fuel
      (fun '(i, nd) =>
         if i <? n then
           w <- lift (rd_buf data (i32 (start + i))) ;;
           ret (inl (i32 (i + 1), <[Z.to_nat i := not64 w]> nd))
         else ret (inr nd))
      (Z.of_nat i,
       map not64 (take i (drop (Z.to_nat start) data)) ++ replicate k 0) e
    = Ok (map not64 (chunk data start n), e).
Proof.
  intros Hs Hn Hlen Hd. induction k as [|k IH]; intros i fuel Hik Hfuel.
  - destruct fuel as [|fuel]; [lia|]. cbn [iter]. unfold bind at 1.
    destruct (Z.ltb_spec (Z.of_nat i) n); [lia|]. unfold ret.
    cbn [replicate]. rewrite app_nil_r. unfold chunk.
    replace (Z.to_nat n) with i by lia. reflexivity.
  - destruct fuel as [|fuel]; [lia|]. cbn [iter]. unfold bind at 1.
    destruct (Z.ltb_spec (Z.of_nat i) n); [|lia].
    rewrite i32_small by lia. unfold rd_buf.
    destruct (Z.ltb_spec (start + Z.of_nat i) 0); [lia|].
    destruct (lookup_lt_is_Some_2 data (Z.to_nat (start + Z.of_nat i)))
      as [w Hw]; [lia|].
    unfold bind at 1, lift at 1. rewrite Hw. unfold ret at 1.
    rewrite i32_small by lia. rewrite Nat2Z.id.
    assert (Hw' : drop (Z.to_nat start) data !! i = Some w).
    { rewrite lookup_drop. rewrite <- Hw. f_equal. lia. }
    assert (Hins : <[i := not64 w]>
                     (map not64 (take i (drop (Z.to_nat start) data))
                      ++ replicate (S k) 0)
                   = map not64 (take (S i) (drop (Z.to_nat start) data))
                     ++ replicate k 0).
    { rewrite insert_app_r_alt by (rewrite length_map, length_take; lia).
      rewrite length_map, length_take.
      pose proof (lookup_lt_Some _ _ _ Hw') as Hlt.
      replace (i - i `min` length (drop (Z.to_nat start) data))%nat
        with 0%nat by lia.
      cbn [replicate]. rewrite (take_S_r _ _ _ Hw'), map_app, <- app_assoc.
      reflexivity. }
    rewrite Hins.
    replace (Z.of_nat i + 1) with (Z.of_nat (S i)) by lia.
    apply IH; lia.
Qed.

Lemma chunk_all (l : list Z) n : length l = Z.to_nat n -> chunk l 0 n = l.
Proof.
  intros Hl. unfold chunk. change (Z.to_nat 0) with 0%nat.
  rewrite drop_0, take_ge by lia. reflexivity.
Qed.

Lemma negativePushBack_st pop junk sib p adj data start n :
  0 <= start -> 0 <= n -> start + n <= Z.of_nat (length data) ->
  Z.of_nat (length data) < 2 ^ 31 ->
  Z.of_nat (length pop + length junk) + n < 2 ^ 29 ->
  junk = [] \/ n <= Z.of_nat (length junk) ->
  negativePushBack data start n (st pop junk sib p adj)
  = Ok (tt, st (pop ++ map not64 (chunk data start n))
              (regrown (length pop) n junk) sib p adj).
Proof.
  intros Hs Hn Hlen Hd Hsmall Hroom. unfold negativePushBack, go_make.
  destruct (Z.ltb_spec n 0); [lia|].
  unfold bind at 1, ret at 1.
  erewrite bind_ok; cycle 1.
  { apply (negate_loop data start n _ Hs Hn Hlen Hd (Z.to_nat n) 0%nat); lia. }
  cbv beta.
  pose proof (chunk_length data start n Hs Hn Hlen) as Hc.
  rewrite pushBackMultiple_st; try assumption; try lia.
  - rewrite chunk_all by (rewrite length_map; exact Hc). reflexivity.
  - rewrite length_map, Hc. lia.
  - rewrite length_map, Hc. lia.
Qed.

(** X19. [addStreamOfNegatedLiteralWords data start n], when the current
    marker has room for [n] more literal words and the buffer is full
    or has room for them: the complements of [data[start : start+n]]
    become literal words of the current segment, in order, and
    [sizeInBits] grows by [64 * n]. *)
Theorem addStreamOfNegatedLiteralWords_appends a junk adj data start n :
  wf_seg (a_last a) ->
  0 <= start -> 0 <= n -> start + n <= Z.of_nat (length data) ->
  Z.of_nat (length data) < 2 ^ 31 ->
  nlit (a_last a) + n < 2 ^ 31 - 1 ->
  total_len a junk + n < 2 ^ 29 ->
  junk = [] \/ n <= Z.of_nat (length junk) ->
  - 2 ^ 63 <= a_sib a -> a_sib a + 64 * n < 2 ^ 63 ->
  exists junk',
    addStreamOfNegatedLiteralWords data start n (conc a junk adj)
    = Ok (tt, conc (mkAbs (a_init a)
                          (mkSeg (rbit (a_last a)) (rlen (a_last a))
                                 (lits (a_last a)
                                  ++ map not64 (chunk data start n)))
                          (a_sib a + 64 * n))
                   junk' adj).
Proof.
  intros Hwf Hs Hn Hlen Hd Hnl Hfit Hroom Hlo Hhi.
  destruct Hwf as (Hrl & Hnl0 & _). unfold nlit in *.
  unfold addStreamOfNegatedLiteralWords.
  destruct (Z.eq_dec n 0) as [->|Hn0].
  - exists junk. cbn [Z.to_nat Z.mul iter].
    unfold bind, ret. cbn [Z.gtb Z.compare].
    unfold conc, chunk. cbn [a_init a_last a_sib rbit rlen lits Z.to_nat take map].
    rewrite app_nil_r, Z.add_0_r. reflexivity.
  - destruct (Z.to_nat (2 * n)) as [|fuel] eqn:Hfuel; [lia|].
    exists (regrown (length (encode (a_init a)) + 1 + length (lits (a_last a)))
                    n junk).
    cbn [iter]. destruct (Z.gtb_spec n 0); [|lia].
    unfold conc at 1, sst.
    erewrite bind_ok; cycle 1.
    { step_with getNumberOfLiteralWords_seg.
      rewrite numberOfLiteralWords_mk by lia.
      rewrite Z.min_l by (unfold LargestLiteralCount; lia).
      step_with setNumberOfLiteralWords_seg.
      rewrite (i32_small (_ + n)), withNumberOfLiteralWords_mk by lia.
      replace (i32 (n - n)) with 0 by (rewrite Z.sub_diag; reflexivity).
      unfold seg_st.
      erewrite bind_ok; cycle 1.
      { apply negativePushBack_st; try assumption.
        unfold total_len in Hfit. rewrite size_w_eq in Hfit.
        rewrite length_app. cbn [length]. lia. }
      cbv beta. step_ret. step_ret.
      cbn [Z.gtb Z.compare]. step_ret. reflexivity. }
    cbv beta iota. cbn [iter]. cbn [Z.gtb Z.compare]. unfold bind, ret.
    rewrite set_sizeInBits_st, length_app. cbn [length sizeInBits st].
    unfold wordInBits. rewrite i64_small by lia.
    unfold conc, sst, seg_st. cbn [a_init a_last a_sib rbit rlen lits].
    rewrite <- app_assoc. cbn [app].
    rewrite length_app, length_map, chunk_length, Nat2Z.inj_add, Z2Nat.id
      by lia.
    replace (length (encode (a_init a)) + S (length (lits (a_last a))))%nat
      with (length (encode (a_init a)) + 1 + length (lits (a_last a)))%nat
      by lia.
    replace (a_sib a + n * 64) with (a_sib a + 64 * n) by lia.
    reflexivity.
Qed.

Lemma addStreamOfNegatedLiteralWords_appends_witness :
  exists junk',
    addStreamOfNegatedLiteralWords [7; 8; 9] 1 2
      (conc empty_abs [0; 0; 0] true)
    = Ok (tt, conc (mkAbs (a_init empty_abs)
                          (mkSeg (rbit (a_last empty_abs))
                                 (rlen (a_last empty_abs))
                                 (lits (a_last empty_abs)
                                  ++ map not64 (chunk [7; 8; 9] 1 2)))
                          (a_sib empty_abs + 64 * 2))
                   junk' true).
Proof.
  apply (addStreamOfNegatedLiteralWords_appends empty_abs [0; 0; 0] true
           [7; 8; 9] 1 2).
  - unfold wf_seg, nlit. cbn. repeat split; try lia. constructor.
  - lia.
  - lia.
  - cbn. lia.
  - cbn. lia.
  - unfold nlit. cbn. lia.
  - unfold total_len, size_w. cbn. lia.
  - right. cbn. lia.
  - cbn. lia.
  - cbn. lia.
Defined.

(** ** [Swap] *)

(** X20. [a.Swap(b)], for [a] and [b] built by accepted [Set] calls on
    [la] and on [lb]: afterwards [a] reads as [lb] and [b] reads as
    [la], and both can be extended by further accepted [Set] calls. *)
Theorem Swap_then_Sets (la lb la' lb' : list Z) :
  ascending (la ++ la') = true -> ascending (lb ++ lb') = true ->
  exists a b a1 b1,
    fromList la = Ok a /\ fromList lb = Ok b
    /\ reads_as (fst (Swap a b)) lb /\ reads_as (snd (Swap a b)) la
    /\ setEach lb' (fst (Swap a b)) = Ok a1 /\ reads_as a1 (lb ++ lb')
    /\ setEach la' (snd (Swap a b)) = Ok b1 /\ reads_as b1 (la ++ la').
Proof.
  intros Ha Hb.
  destruct (ascending_from_app 0 la la' Ha) as [Hla Hla'].
  destruct (ascending_from_app 0 lb lb' Hb) as [Hlb Hlb'].
  destruct (fromList_Holds la Hla) as (xa & ja & Hfa & HHa & Hsa).
  destruct (fromList_Holds lb Hlb) as (xb & jb & Hfb & HHb & Hsb).
  pose proof HHa as (_ & Hsiba & _). pose proof HHb as (_ & Hsibb & _).
  rewrite <- Hsiba in Hla'. rewrite <- Hsibb in Hlb'.
  assert (Hswap : Swap (conc xa ja true) (conc xb jb true)
                  = (conc xb jb true, conc xa ja true)) by reflexivity.
  destruct (extend_reads xb jb true lb lb' HHb Hsb Hlb') as (a1 & Hra & Hrda).
  destruct (extend_reads xa ja true la la' HHa Hsa Hla') as (b1 & Hrb & Hrdb).
  exists (conc xa ja true), (conc xb jb true), a1, b1.
  rewrite Hswap. cbn [fst snd].
  split; [exact Hfa|]. split; [exact Hfb|].
  split; [apply Holds_reads; exact HHb|].
  split; [apply Holds_reads; exact HHa|].
  split; [exact Hra|]. split; [exact Hrda|]. split; assumption.
Qed.

Lemma Swap_then_Sets_witness :
  exists a b a1 b1,
    fromList [10; 100] = Ok a /\ fromList [3] = Ok b
    /\ reads_as (fst (Swap a b)) [3] /\ reads_as (snd (Swap a b)) [10; 100]
    /\ setEach [70] (fst (Swap a b)) = Ok a1 /\ reads_as a1 ([3] ++ [70])
    /\ setEach [10000] (snd (Swap a b)) = Ok b1
    /\ reads_as b1 ([10; 100] ++ [10000]).
Proof.
  apply (Swap_then_Sets [10; 100] [3] [10000] [70]); reflexivity.
Defined.

(** * The buffer and the words in use

    Every method keeps [sized]: each is a sequence of reads, of
    assignments inside the buffer, and of calls of [pushBack]. *)

(** ** What a method keeps *)

Section Keeps.
Context {S : Type} (J : S -> Prop).

Lemma keeps_ret {A} (a : A) : keeps J (ret a).
Proof. intros e x e' HJ Hr. inversion Hr. subst. exact HJ. Qed.

Lemma keeps_gets {A} (f : S -> A) : keeps J (gets f).
Proof. intros e x e' HJ Hr. inversion Hr. subst. exact HJ. Qed.

Lemma keeps_lift {A} (o : option A) : keeps J (lift o).
Proof.
  intros e x e' HJ Hr. unfold lift in Hr. destruct o; [|discriminate].
  inversion Hr. subst. exact HJ.
Qed.

Lemma keeps_panic {A} : keeps J (@panic S A).
Proof. intros e x e' _ Hr. discriminate. Qed.

Lemma keeps_bind {A B} (m : St S A) (k : A -> St S B) :
  keeps J m -> (forall a, keeps J (k a)) -> keeps J (bind m k).
Proof.
  intros Hm Hk e b e' HJ Hr. unfold bind in Hr.
  destruct (m e) as [[a e1]| |] eqn:Hme; try discriminate.
  exact (Hk a e1 b e' (Hm e a e1 HJ Hme) Hr).
Qed.

Lemma keeps_iter {L R} (step : L -> St S (L + R)) :
  (forall l, keeps J (step l)) -> forall fuel l, keeps J (iter fuel step l).
Proof.
  intros Hstep fuel. induction fuel as [|f IH]; intros l.
  - intros e x e' _ Hr. discriminate.
  - cbn [iter]. apply keeps_bind; [apply Hstep|].
    intros [l'|r]; [apply IH|apply keeps_ret].
Qed.

Lemma keeps_modify (f : S -> S) :
  (forall e, J e -> J (f e)) -> keeps J (modify f).
Proof. intros Hf e x e' HJ Hr. inversion Hr. subst. apply Hf, HJ. Qed.

End Keeps.

Create HintDb keeps.

(** one step through the text of a method *)
Ltac keep_step :=
  cbv beta zeta;
  lazymatch goal with
  | |- keeps _ (bind _ _) => apply keeps_bind; [|intros ?]
  | |- keeps _ (ret _) => apply keeps_ret
  | |- keeps _ (gets _) => apply keeps_gets
  | |- keeps _ (lift _) => apply keeps_lift
  | |- keeps _ panic => apply keeps_panic
  | |- keeps _ (iter _ _ _) => apply keeps_iter; intros ?
  | |- keeps _ (if ?c then _ else _) => destruct c
  | |- keeps _ (match ?x with _ => _ end) => destruct x
  | |- keeps _ _ => solve [auto with keeps]
  end.

Ltac keep := repeat keep_step.

(** ** The methods of [*Ewah] *)

Lemma sized_st e :
  sized e ->
  e = st (populated e) (drop (Z.to_nat (actualSizeInWords e)) (buffer e))
         (sizeInBits e) (rlw e) (adjustContainerSizeWhenAggregating e).
Proof.
  intros [[H0 H1] _]. unfold st, populated.
  rewrite take_drop, length_take, Nat.min_l, Z2Nat.id by lia.
  destruct e; reflexivity.
Qed.

Lemma populated_st pop junk sib p adj :
  populated (st pop junk sib p adj) = pop.
Proof.
  unfold populated, st. cbn [actualSizeInWords buffer].
  rewrite Nat2Z.id. apply take_app_length.
Qed.

Lemma sized_st_iff pop junk sib p adj :
  sized (st pop junk sib p adj)
  <-> Z.of_nat (length pop + length junk) <= MaxInt32.
Proof.
  unfold sized, st. cbn [actualSizeInWords buffer].
  rewrite length_app. split; [tauto|]. intros Hle. lia.
Qed.

(** After a reallocation for one more word than [n], the buffer has room
    for this word and a length in the range of [int32]. *)
Lemma newSize_bounds n :
  1 <= n <= MaxInt32 ->
  n <= (if n <? 32768 then i32 (n * 2)
        else if Z.quot (i32 (n * 3)) 2 <? n then MaxInt32
             else Z.quot (i32 (n * 3)) 2) <= MaxInt32.
Proof.
  unfold MaxInt32. intros Hn.
  destruct (Z.ltb_spec n 32768).
  - rewrite i32_small by lia. lia.
  - assert (Hq : Z.quot (i32 (n * 3)) 2 <= 2147483647).
    { unfold i32. zlia. }
    destruct (Z.ltb_spec (Z.quot (i32 (n * 3)) 2) n); lia.
Qed.

Lemma go_copy_nil (l : list Z) : go_copy [] l = [].
Proof. unfold go_copy. cbn [length take app]. apply drop_nil. Qed.

(** [pushBack] on a buffer as long as the words in use: the word is
    stored after them and counted. It panics only when the words in use
    are [MaxInt32]. *)
Lemma pushBack_sized pop junk sib p adj w :
  Z.of_nat (length pop + length junk) <= MaxInt32 ->
  match pushBack w (st pop junk sib p adj) with
  | Ok (_, e') =>
      exists junk',
        e' = st (pop ++ [w]) junk' sib p adj
        /\ Z.of_nat (length (pop ++ [w]) + length junk') <= MaxInt32
  | Panic => Z.of_nat (length pop) = MaxInt32
  | OutOfFuel => False
  end.
Proof.
  intros Hlen. unfold pushBack, pushBackMultiple.
  unfold bind at 1, gets at 1. unfold bind at 1, gets at 1.
  cbn [buffer actualSizeInWords st].
  rewrite length_app, i32_small by (unfold MaxInt32 in Hlen; lia).
  destruct junk as [|x junk'].
  - rewrite Nat.add_0_r, Z.eqb_refl. cbn [length] in Hlen.
    rewrite Nat.add_0_r in Hlen.
    set (n := Z.of_nat (length pop)) in *.
    destruct (Z.eq_dec n MaxInt32) as [Hfull|Hroom].
    + rewrite Hfull.
      change (i32 (MaxInt32 + 1)) with (- 2147483648).
      change (- 2147483648 <? 32768) with true. cbv iota.
      change (i32 (- 2147483648 * 2)) with 0.
      unfold go_make. change (0 <? 0) with false. cbv iota.
      unfold bind at 2, ret at 1. unfold bind at 1, modify at 1.
      unfold bind at 1, gets at 1.
      cbn [set_buffer buffer]. change (replicate (Z.to_nat 0) 0) with (@nil Z).
      rewrite go_copy_nil. reflexivity.
    + assert (Hn : 1 <= n + 1 <= MaxInt32) by lia.
      rewrite (i32_small (n + 1)) by (unfold MaxInt32 in Hn; lia).
      pose proof (newSize_bounds (n + 1) Hn) as Hc.
      set (c := if n + 1 <? 32768 then _ else _) in *.
      erewrite bind_ok; cycle 1.
      { unfold go_make. destruct (Z.ltb_spec c 0); [lia|].
        unfold bind at 1, ret at 1, modify.
        rewrite app_nil_r, go_copy_grow by lia.
        replace (Z.to_nat c - length pop)%nat
          with (Datatypes.S (Z.to_nat c - length pop - 1)) by lia.
        cbn [replicate set_buffer]. reflexivity. }
      cbv beta. unfold n. erewrite place_ok by reflexivity.
      cbn [set_buffer sizeInBits rlw adjustContainerSizeWhenAggregating].
      eexists. split; [reflexivity|].
      rewrite length_app, length_replicate. cbn [length]. lia.
  - destruct (Z.eqb_spec (Z.of_nat (length pop))
                (Z.of_nat (length pop + length (x :: junk'))));
      [simpl in *; lia|].
    erewrite bind_ok; [|reflexivity]. cbv beta.
    erewrite place_ok by reflexivity.
    cbn [st sizeInBits rlw adjustContainerSizeWhenAggregating].
    eexists. split; [reflexivity|].
    rewrite length_app. cbn [length] in *. lia.
Qed.

Lemma keeps_pushBack w : keeps sized (pushBack w).
Proof.
  intros e a e' HJ Hr. rewrite (sized_st e HJ) in Hr.
  pose proof HJ as HJ'. rewrite (sized_st e HJ) in HJ'.
  apply sized_st_iff in HJ'.
  pose proof (pushBack_sized _ _ (sizeInBits e) (rlw e)
                (adjustContainerSizeWhenAggregating e) w HJ') as Hp.
  rewrite Hr in Hp. destruct Hp as (junk' & -> & Hlen).
  apply sized_st_iff. exact Hlen.
Qed.

Lemma sized_set_buffer_insert e i w :
  sized e -> sized (set_buffer (<[i := w]> (buffer e)) e).
Proof.
  unfold sized. cbn [set_buffer actualSizeInWords buffer].
  rewrite length_insert. tauto.
Qed.

Lemma keeps_rd p : keeps sized (rd p).
Proof. unfold rd. keep. Qed.

Lemma keeps_wr p w : keeps sized (wr p w).
Proof.
  intros e a e' HJ Hr. unfold wr, bind, gets, lift, modify in Hr.
  destruct (rd_buf (buffer e) p); [|discriminate].
  inversion Hr. subst. apply sized_set_buffer_insert, HJ.
Qed.

Lemma keeps_set_sizeInBits v : keeps sized (modify (set_sizeInBits v)).
Proof. apply keeps_modify. intros e He. exact He. Qed.

Lemma keeps_set_rlw v : keeps sized (modify (set_rlw v)).
Proof. apply keeps_modify. intros e He. exact He. Qed.

#[local] Hint Resolve keeps_rd keeps_wr keeps_set_sizeInBits keeps_set_rlw
  keeps_pushBack : keeps.

Lemma keeps_getRunningBit p : keeps sized (RLW.getRunningBit p).
Proof. unfold RLW.getRunningBit. keep. Qed.
Lemma keeps_getRunningLength p : keeps sized (RLW.getRunningLength p).
Proof. unfold RLW.getRunningLength. keep. Qed.
Lemma keeps_getNumberOfLiteralWords p :
  keeps sized (RLW.getNumberOfLiteralWords p).
Proof. unfold RLW.getNumberOfLiteralWords. keep. Qed.
Lemma keeps_size p : keeps sized (RLW.size p).
Proof. unfold RLW.size. keep. Qed.
Lemma keeps_setRunningBit p b : keeps sized (RLW.setRunningBit p b).
Proof. unfold RLW.setRunningBit. keep. Qed.
Lemma keeps_setRunningLength p n : keeps sized (RLW.setRunningLength p n).
Proof. unfold RLW.setRunningLength. keep. Qed.
Lemma keeps_setNumberOfLiteralWords p n :
  keeps sized (RLW.setNumberOfLiteralWords p n).
Proof. unfold RLW.setNumberOfLiteralWords. keep. Qed.

#[local] Hint Resolve keeps_getRunningBit keeps_getRunningLength
  keeps_getNumberOfLiteralWords keeps_size keeps_setRunningBit
  keeps_setRunningLength keeps_setNumberOfLiteralWords : keeps.

Lemma keeps_this_rlw {A} (f : Z -> M A) :
  (forall p, keeps sized (f p)) -> keeps sized (this_rlw f).
Proof. intros Hf. unfold this_rlw. keep. Qed.

(** [Set] takes a word out of use only after it has assigned to it: the
    index is then in the buffer. *)
Lemma keeps_uncount {A} p w (k : M A) :
  keeps sized k ->
  keeps sized (wr p w ;;; modify (set_actualSizeInWords p) ;;; k).
Proof.
  intros Hk e a e' HJ Hr. unfold bind at 1, wr in Hr.
  unfold bind at 1, gets at 1, bind at 1, lift, rd_buf in Hr.
  destruct (Z.ltb_spec p 0) as [|Hp]; [discriminate|].
  destruct (buffer e !! Z.to_nat p) as [x|] eqn:Hx; [|discriminate].
  unfold modify at 1, bind at 1, modify at 1 in Hr.
  apply lookup_lt_Some in Hx.
  refine (Hk _ a e' _ Hr).
  unfold sized in *. cbn [set_actualSizeInWords set_buffer
    actualSizeInWords buffer]. rewrite length_insert. lia.
Qed.

(** one step through the text of a method of [*Ewah] *)
Ltac keeps_step :=
  cbv beta zeta;
  lazymatch goal with
  | |- keeps _ (this_rlw _) =>
      apply keeps_this_rlw; intros ?; auto with keeps
  | |- keeps _ (bind (wr ?p _)
                  (fun _ => bind (modify (set_actualSizeInWords ?p)) _)) =>
      apply keeps_uncount
  | |- _ => keep_step
  end.

Ltac keeps_all := repeat keeps_step.

Lemma keeps_addEmptyWord v : keeps sized (addEmptyWord v).
Proof. unfold addEmptyWord. keeps_all. Qed.

Lemma keeps_addLiteralWord w : keeps sized (addLiteralWord w).
Proof. unfold addLiteralWord. keeps_all. Qed.

#[local] Hint Resolve keeps_addEmptyWord keeps_addLiteralWord : keeps.

Lemma keeps_streamOfEmptyWords_body v n :
  keeps sized (streamOfEmptyWords_body v n).
Proof. unfold streamOfEmptyWords_body. keeps_all. Qed.

#[local] Hint Resolve keeps_streamOfEmptyWords_body : keeps.

Lemma keeps_addStreamOfEmptyWords v n :
  keeps sized (addStreamOfEmptyWords v n).
Proof. unfold addStreamOfEmptyWords. keeps_all. Qed.

Lemma keeps_fastAddStreamOfEmptyWords v n :
  keeps sized (fastAddStreamOfEmptyWords v n).
Proof. unfold fastAddStreamOfEmptyWords. keeps_all. Qed.

Lemma keeps_addSignificantBits w n : keeps sized (addSignificantBits w n).
Proof. unfold addSignificantBits. keeps_all. Qed.

Lemma keeps_add w : keeps sized (add w).
Proof. unfold add. apply keeps_addSignificantBits. Qed.

Lemma keeps_setSizeInBits n : keeps sized (setSizeInBits n).
Proof. unfold setSizeInBits. keeps_all. Qed.

#[local] Hint Resolve keeps_addStreamOfEmptyWords
  keeps_fastAddStreamOfEmptyWords keeps_addSignificantBits keeps_add
  keeps_setSizeInBits : keeps.

Lemma keeps_Get i : keeps sized (Get i).
Proof. unfold Get. keeps_all. Qed.

Lemma keeps_Cardinality : keeps sized Cardinality.
Proof. unfold Cardinality. keeps_all. Qed.

Lemma keeps_Not : keeps sized Not.
Proof. unfold Not. keeps_all. Qed.

Lemma keeps_Set i : keeps sized (Set_ i).
Proof. unfold Set_. keeps_all. Qed.

Lemma keeps_Reset : keeps sized Reset.
Proof.
  intros e a e' [_ Hmax] Hr.
  unfold Reset, wr, rd_buf, bind, modify, gets, lift in Hr.
  cbn [set_actualSizeInWords set_sizeInBits set_rlw set_buffer buffer
       actualSizeInWords sizeInBits rlw] in Hr.
  change (0 <? 0) with false in Hr. cbv iota in Hr.
  destruct (buffer e !! Z.to_nat 0) as [x|] eqn:Hx; [|discriminate].
  apply lookup_lt_Some in Hx. injection Hr as Hr. subst e'.
  unfold sized.
  cbn [set_actualSizeInWords set_sizeInBits set_rlw set_buffer buffer
       actualSizeInWords].
  rewrite length_insert. lia.
Qed.

Lemma length_go_copy (dst src : list Z) :
  length (go_copy dst src) = length dst.
Proof.
  unfold go_copy. rewrite length_app, length_take, length_drop. lia.
Qed.

Lemma keeps_reserve size : keeps sized (reserve (i32 size)).
Proof.
  intros e a e' [Hasw Hmax] Hr. unfold reserve in Hr.
  unfold bind at 1, gets at 1 in Hr.
  rewrite (i32_small (Z.of_nat _)) in Hr by (unfold MaxInt32 in Hmax; lia).
  destruct (Z.gtb_spec (i32 size) (Z.of_nat (length (buffer e))))
    as [Hbig|Hsmall].
  - unfold go_make in Hr.
    destruct (Z.ltb_spec (i32 size) 0); [discriminate|].
    unfold bind, ret, modify in Hr. inversion Hr. subst.
    unfold sized. cbn [set_rlw set_buffer actualSizeInWords buffer].
    rewrite length_go_copy, length_replicate.
    assert (i32 size <= MaxInt32) by (unfold i32, MaxInt32; zlia).
    lia.
  - inversion Hr. subst. split; assumption.
Qed.

(** [this.Copy(other)] only reads [other]: the buffer it makes has as
    many words as [other] has in use. *)
Lemma Copy_sized (other this e' : Ewah) :
  sized other -> exec (Copy (Other other)) this = Ok e' -> sized e'.
Proof.
  intros [Hasw Hmax] Hr. unfold exec, Copy, field in Hr.
  unfold bind at 1, ret at 1, go_make in Hr.
  destruct (Z.ltb_spec (actualSizeInWords other) 0); [discriminate|].
  unfold bind, ret, modify, gets in Hr. inversion Hr. subst.
  unfold sized. cbn [set_rlw set_sizeInBits set_actualSizeInWords set_buffer
    actualSizeInWords buffer].
  rewrite length_go_copy, length_replicate. lia.
Qed.

Lemma keeps_Copy_itself : keeps sized (Copy This).
Proof.
  intros e a e' [Hasw Hmax] Hr. unfold Copy, field in Hr.
  unfold bind at 1, gets at 1, go_make in Hr.
  destruct (Z.ltb_spec (actualSizeInWords e) 0); [discriminate|].
  unfold bind, ret, modify, gets in Hr. inversion Hr. subst.
  unfold sized. cbn [set_rlw set_sizeInBits set_actualSizeInWords set_buffer
    actualSizeInWords buffer].
  rewrite length_go_copy, length_replicate. lia.
Qed.

Lemma Clone_sized (e c : Ewah) : sized e -> Clone e = Ok c -> sized c.
Proof.
  intros HJ Hr. rewrite (sized_st e HJ) in Hr.
  pose proof HJ as [[H0 H1] Hmax].
  destruct (Clone_st (populated e) (drop (Z.to_nat (actualSizeInWords e))
              (buffer e)) (sizeInBits e) (rlw e)
              (adjustContainerSizeWhenAggregating e)) as (junk' & Hc & Hlen).
  { unfold populated. rewrite length_take. unfold MaxInt32 in Hmax. lia. }
  rewrite Hc in Hr. inversion Hr. subst.
  apply sized_st_iff. rewrite <- length_app, Hlen.
  unfold populated. rewrite length_take. unfold MaxInt32 in *. lia.
Qed.

Lemma Swap_sized (this other : Ewah) :
  sized this -> sized other ->
  sized (fst (Swap this other)) /\ sized (snd (Swap this other)).
Proof. intros Ht Ho. split; [exact Ho|exact Ht]. Qed.

(** ** The Boolean operations write to the container through its sink
    methods only *)
Section MergeKeeps.
Context {K : Type} `{BitmapStorage K} (J : K -> Prop).
Hypothesis keeps_sink_add : forall w, keeps J (sink_add w).
Hypothesis keeps_sink_addStreamOfEmptyWords :
  forall v n, keeps J (sink_addStreamOfEmptyWords v n).
Hypothesis keeps_sink_setSizeInBits :
  forall n, keeps J (sink_setSizeInBits n).

Lemma keeps_discharge_gen negated b max :
  keeps J (discharge_gen negated b max).
Proof. unfold discharge_gen. keep. Qed.

Lemma keeps_discharge b max : keeps J (discharge b max).
Proof. apply keeps_discharge_gen. Qed.

Lemma keeps_dischargeNegated b max : keeps J (dischargeNegated b max).
Proof. apply keeps_discharge_gen. Qed.

Lemma keeps_dischargeContainer b : keeps J (dischargeContainer b).
Proof. unfold dischargeContainer. keep. apply keeps_discharge. Qed.

Lemma keeps_dischargeAsEmpty b : keeps J (dischargeAsEmpty b).
Proof. unfold dischargeAsEmpty. keep. Qed.

Lemma keeps_bothNonEmpty rlwi rlwj : keeps J (bothNonEmpty rlwi rlwj).
Proof. unfold bothNonEmpty. keep. Qed.

Lemma keeps_emitRun v prey predator : keeps J (emitRun v prey predator).
Proof. unfold emitRun. keep. Qed.

Lemma keeps_fillUp v index predator : keeps J (fillUp v index predator).
Proof. unfold fillUp. keep. Qed.

Lemma keeps_iterators x y : keeps J (iterators x y).
Proof. unfold iterators. keep. Qed.

Lemma keeps_remaining rlwi rlwj : keeps J (remaining rlwi rlwj).
Proof. unfold remaining. keep. Qed.

#[local] Hint Resolve keeps_discharge keeps_dischargeNegated
  keeps_dischargeContainer keeps_dischargeAsEmpty keeps_bothNonEmpty
  keeps_emitRun keeps_fillUp keeps_iterators keeps_remaining : keeps.

Lemma keeps_and_run i_is_prey prey predator :
  keeps J (and_run i_is_prey prey predator).
Proof. unfold and_run. keep. Qed.

Lemma keeps_or_run i_is_prey prey predator :
  keeps J (or_run i_is_prey prey predator).
Proof. unfold or_run. keep. Qed.

Lemma keeps_xor_run i_is_prey prey predator :
  keeps J (xor_run i_is_prey prey predator).
Proof. unfold xor_run. keep. Qed.

Lemma keeps_andNot_run i_is_prey prey predator :
  keeps J (andNot_run i_is_prey prey predator).
Proof. unfold andNot_run. keep. Qed.

Lemma keeps_merge_loop run op rlwi rlwj :
  (forall i_is_prey prey predator, keeps J (run i_is_prey prey predator)) ->
  keeps J (merge_loop run op rlwi rlwj).
Proof. intros Hrun. unfold merge_loop. keep. Qed.

#[local] Hint Resolve keeps_and_run keeps_or_run keeps_xor_run
  keeps_andNot_run keeps_merge_loop : keeps.

Lemma keeps_andToContainer this a : keeps J (andToContainer this a).
Proof. unfold andToContainer. keep. Qed.

Lemma keeps_andNotToContainer this a : keeps J (andNotToContainer this a).
Proof. unfold andNotToContainer. keep. Qed.

Lemma keeps_orToContainer this a : keeps J (orToContainer this a).
Proof. unfold orToContainer. keep. Qed.

Lemma keeps_xorToContainer this a : keeps J (xorToContainer this a).
Proof. unfold xorToContainer. keep. Qed.

End MergeKeeps.

Lemma sized_fresh : sized fresh.
Proof. unfold sized, MaxInt32. cbn. lia. Qed.

Lemma bitOp_sized (this a c : Ewah) (f : Ewah -> St Ewah unit) :
  keeps sized (f a) -> bitOp this a f = Ok c -> sized c.
Proof.
  intros Hf Hr. unfold bitOp in Hr. rewrite New_fresh in Hr.
  unfold exec in Hr.
  destruct ((reserve _ ;;; f a) fresh) as [[x e']| |] eqn:Hrun;
    try discriminate.
  inversion Hr. subst.
  refine (keeps_bind sized _ _ (keeps_reserve _) (fun _ => Hf)
            fresh x c sized_fresh Hrun).
Qed.

Lemma reachable_is_sized (e : Ewah) : reachable e -> sized e.
Proof.
  assert (Hexec : forall {A} (m : M A) e e',
             keeps sized m -> sized e -> exec m e = Ok e' -> sized e').
  { intros A m e0 e' Hm HJ Hr. unfold exec in Hr.
    destruct (m e0) as [[a e1]| |] eqn:Hrun; try discriminate.
    inversion Hr. subst. exact (Hm e0 a e' HJ Hrun). }
  induction 1 as [e HN|c e e' _ IH Hr|e c _ IH Hr|this other e' _ _ _ IH Hr
                  |this other _ IHt _ IHo|this other _ IHt _ IHo
                  |this a c _ _ _ _ Hr|this a c _ _ _ _ Hr
                  |this a c _ _ _ _ Hr|this a c _ _ _ _ Hr].
  - rewrite New_fresh in HN. inversion HN. apply sized_fresh.
  - destruct c; cbn [run] in Hr;
      (eapply Hexec; [|exact IH|exact Hr]);
      auto using keeps_Set, keeps_Get, keeps_Not,
        keeps_Reset, keeps_Copy_itself, keeps_Cardinality, keeps_gets,
        keeps_add, keeps_addSignificantBits, keeps_addEmptyWord,
        keeps_addLiteralWord, keeps_addStreamOfEmptyWords,
        keeps_fastAddStreamOfEmptyWords, keeps_setSizeInBits, keeps_pushBack,
        keeps_reserve.
    + apply keeps_gets.
    + unfold SizeInBytes. keep.
    + apply keeps_gets.
  - exact (Clone_sized e c IH Hr).
  - exact (Copy_sized other this e' IH Hr).
  - exact IHo.
  - exact IHt.
  - refine (bitOp_sized this a c _ _ Hr).
    apply keeps_andToContainer; cbn; auto with keeps. intros n. keep.
  - refine (bitOp_sized this a c _ _ Hr).
    apply keeps_andNotToContainer; cbn; auto with keeps. intros n. keep.
  - refine (bitOp_sized this a c _ _ Hr).
    apply keeps_orToContainer; cbn; auto with keeps. intros n. keep.
  - refine (bitOp_sized this a c _ _ Hr).
    apply keeps_xorToContainer; cbn; auto with keeps. intros n. keep.
Qed.

Lemma pushBack_populated (e : Ewah) (data : Z) :
  sized e -> actualSizeInWords e < MaxInt32 ->
  exists e', pushBack data e = Ok (tt, e')
             /\ populated e' = populated e ++ [data]
             /\ actualSizeInWords e' = actualSizeInWords e + 1
             /\ sized e'.
Proof.
  intros HJ Hroom. pose proof HJ as HJ'.
  rewrite (sized_st e HJ) in HJ'. apply sized_st_iff in HJ'.
  pose proof (pushBack_sized _ _ (sizeInBits e) (rlw e)
                (adjustContainerSizeWhenAggregating e) data HJ') as Hp.
  rewrite <- (sized_st e HJ) in Hp.
  assert (Hpop : Z.of_nat (length (populated e)) = actualSizeInWords e).
  { destruct HJ as [[H0 H1] _]. unfold populated. rewrite length_take. lia. }
  destruct (pushBack data e) as [[[] e']| |]; [|lia|contradiction].
  destruct Hp as (junk' & -> & Hlen). exists (st (populated e ++ [data]) junk'
    (sizeInBits e) (rlw e) (adjustContainerSizeWhenAggregating e)).
  split; [reflexivity|]. split; [apply populated_st|]. split.
  - cbn [st actualSizeInWords]. rewrite length_app. cbn [length]. lia.
  - apply sized_st_iff. exact Hlen.
Qed.



(** ** Several words at once

    [pushBackMultiple] reallocates only when the buffer is exactly full,
    which is enough for one word. [addStreamOfLiteralWords] and
    [addStreamOfNegatedLiteralWords] pass it several words, and no
    exported method calls them: five literal words appended at once to
    a new bitmap (one word in use, four allocated) leave
    [actualSizeInWords = 6] over a buffer of 4 words, and two of the
    five words are lost. *)
Remark pushBackMultiple_overruns_buffer :
  exists e,
    exec (addStreamOfLiteralWords [1; 2; 3; 4; 5] 0 5) fresh = Ok e
    /\ actualSizeInWords e = 6
    /\ length (buffer e) = 4%nat
    /\ exec (pushBackMultiple [1; 2; 3; 4; 5] 0 5) fresh
       = Ok (mkEwah 6 0 [0; 1; 2; 3] 0 true).
Proof. eexists. by_evaluation. Qed.

(** ** [Copy] onto the receiver itself *)

Lemma encode_empty_segs n :
  encode (replicate n (mkSeg false 0 [])) = replicate n 0.
Proof. induction n as [|n IH]; [reflexivity|]. cbn. rewrite IH. reflexivity. Qed.

Lemma total_empty_segs n : total (replicate n (mkSeg false 0 [])) = 0.
Proof. induction n as [|n IH]; [reflexivity|]. cbn. rewrite IH. reflexivity. Qed.

Lemma card_empty_segs n : card (replicate n (mkSeg false 0 [])) = 0.
Proof. induction n as [|n IH]; [reflexivity|]. cbn. rewrite IH. reflexivity. Qed.

(** X21. [b.Copy(b)]: [make] replaces the buffer of [b] before [copy]
    reads it, so that [copy] reads the new buffer. The bitmap keeps its
    size in bits and its number of words in use, all of them zero: no
    bit is set any more. *)
Theorem Copy_onto_itself (e : Ewah) :
  0 <= actualSizeInWords e ->
  exists s,
    exec (Copy This) e = Ok s
    /\ buffer s = replicate (Z.to_nat (actualSizeInWords e)) 0
    /\ actualSizeInWords s = actualSizeInWords e
    /\ sizeInBits s = sizeInBits e
    /\ eval Cardinality s = Ok 0.
Proof.
  intros Hasw. set (n := Z.to_nat (actualSizeInWords e)).
  set (s := st (replicate n 0) [] (sizeInBits e) (rlw e)
               (adjustContainerSizeWhenAggregating e)).
  assert (Hrun : Copy This e = Ok (tt, s)).
  { unfold Copy, field. unfold bind at 1, gets at 1, go_make.
    destruct (Z.ltb_spec (actualSizeInWords e) 0); [lia|].
    unfold bind, ret, modify, gets.
    cbn [set_rlw set_sizeInBits set_actualSizeInWords set_buffer
         actualSizeInWords sizeInBits rlw buffer
         adjustContainerSizeWhenAggregating].
    fold n. unfold go_copy. rewrite take_drop.
    unfold s, st. rewrite app_nil_r, length_replicate.
    unfold n. rewrite Z2Nat.id by lia. reflexivity. }
  exists s. unfold exec. rewrite Hrun. split; [reflexivity|].
  split; [unfold s, st; cbn [buffer]; apply app_nil_r|].
  split; [unfold s, st; cbn [actualSizeInWords];
          rewrite length_replicate; unfold n; lia|].
  split; [reflexivity|].
  unfold eval, s. rewrite <- encode_empty_segs.
  rewrite Cardinality_ok.
  - rewrite card_empty_segs. reflexivity.
  - apply Forall_replicate. unfold wf_mark, nlit. cbn. lia.
  - rewrite total_empty_segs. lia.
Qed.

Lemma Copy_onto_itself_witness :
  exists b s,
    fromList [10; 100] = Ok b
    /\ eval Cardinality b = Ok 2
    /\ exec (Copy This) b = Ok s
    /\ buffer s = replicate (Z.to_nat (actualSizeInWords b)) 0
    /\ actualSizeInWords s = actualSizeInWords b
    /\ sizeInBits s = sizeInBits b
    /\ eval Cardinality s = Ok 0.
Proof.
  exists (mkEwah 3 101 [17179869184; 1024; 68719476736; 0] 0 true).
  destruct (Copy_onto_itself
              (mkEwah 3 101 [17179869184; 1024; 68719476736; 0] 0 true))
    as (s & Hs); [cbn; lia|].
  exists s. split; [reflexivity|]. split; [reflexivity|]. exact Hs.
Defined.
